(** * Autocast / Display / placer.py

    A shallow embedding of the placement script [Display/placer.py] and
    the properties of its block extractor, field extractor, sorter and
    placement loop.

    Python strings are modelled as lists of characters ([list ascii], the
    characters with code point below 256); Python [int] as [Z] or [nat]
    (indices); Python [float] as the binary64 numbers of [PrimFloat];
    [None] as [option]; a raised exception as a value of [result].

    The file has five parts: the model (the functions of the script and
    the built-in operations they call), the vocabulary in which the
    properties are stated, the lemmas, the statements of the
    specification, each with the identifier it has there, and further
    properties of the code, numbered X1, X2, ... *)

From Stdlib Require Import Ascii String.
From Stdlib Require Import List Arith ZArith Lia Bool.
From Stdlib Require Import Permutation Sorting.Sorted.
From Stdlib Require Import PrimFloat Uint63 FloatOps SpecFloat.
From Equations Require Import Equations.
From Equations.Prop Require Import Logic.
Import ListNotations.

Set Warnings "-inexact-float".

(** * Part I. The model *)

(** ** Python strings *)

Definition pystr : Type := list ascii.

(** A literal: [lit "abc"] is the Python string ['abc']. *)
Definition lit (s : string) : pystr := list_ascii_of_string s.

(** The double quote character (code point 34). *)
Definition dquote : ascii := Ascii false true false false false true false false.

(** The two parentheses. *)
Definition lparen : ascii := "("%char.

Definition rparen : ascii := ")"%char.

(** A literal in which every apostrophe stands for a double quote:
    [qlit "(at 'x')"] is the Python string ['(at "x")']. *)
Definition qlit (s : string) : pystr :=
  map (fun c => if Ascii.eqb c "'"%char then dquote else c) (lit s).

(** [s[a:b]] for [0 <= a] and [0 <= b]. *)
Definition slice (s : pystr) (a b : nat) : pystr := firstn (b - a) (skipn a s).

(** [s.startswith(sub)]. *)
Fixpoint startswith (s sub : pystr) {struct sub} : bool :=
  match sub, s with
  | [], _ => true
  | a :: sub', b :: s' => Ascii.eqb a b && startswith s' sub'
  | _ :: _, [] => false
  end.

(** The scan of [str.index]/[str.find]: the lowest position of [rest],
    counted from [i], at which [sub] starts. *)
Fixpoint find_from (rest sub : pystr) (i : nat) : option nat :=
  if startswith rest sub then Some i
  else match rest with
       | [] => None
       | _ :: rest' => find_from rest' sub (S i)
       end.

(** [s.index(sub, start)]: [None] stands for the [ValueError] the method
    raises when there is no occurrence at or after [start]. *)
Definition index (s sub : pystr) (start : nat) : option nat :=
  if length s <? start then None else find_from (skipn start s) sub start.

(** [sub in s]. *)
Definition contains (s sub : pystr) : bool :=
  match index s sub 0 with Some _ => true | None => false end.

(** [s.replace(old, new, 1)]. *)
Definition replace1 (s old new : pystr) : pystr :=
  match index s old 0 with
  | Some i => firstn i s ++ new ++ skipn (i + length old) s
  | None => s
  end.

(** ** Regular expressions: the fragment of [re] the script uses *)

(** Character classes. [\s] and [\d] are those of Python 3 on [str]
    patterns, for the characters below 256. *)
Definition code (c : ascii) : nat := nat_of_ascii c.

Definition is_space (c : ascii) : bool :=
  let n := code c in
  ((9 <=? n) && (n <=? 13)) || ((28 <=? n) && (n <=? 32))
  || (n =? 133) || (n =? 160).

Definition is_digit (c : ascii) : bool :=
  let n := code c in (48 <=? n) && (n <=? 57).

Definition is_char (a : ascii) (c : ascii) : bool := Ascii.eqb c a.

Definition not_char (a : ascii) (c : ascii) : bool := negb (Ascii.eqb c a).

(** The class [[-\d.]]. *)
Definition is_number_char (c : ascii) : bool :=
  Ascii.eqb c "-"%char || is_digit c || Ascii.eqb c "."%char.

(** Patterns: one character of a class, a greedy repetition of a class,
    sequence, greedy option and numbered capturing group. *)
Inductive regex : Type :=
| Eps
| Cls (p : ascii -> bool)
| Star (p : ascii -> bool)
| Seq (r1 r2 : regex)
| Opt (r : regex)
| Group (n : nat) (r : regex).

Definition Plus (p : ascii -> bool) : regex := Seq (Cls p) (Star p).

(** The characters of [s], one after the other. *)
Fixpoint Str (s : pystr) : regex :=
  match s with
  | [] => Eps
  | c :: s' => Seq (Cls (is_char c)) (Str s')
  end.

Fixpoint Seqs (rs : list regex) : regex :=
  match rs with
  | [] => Eps
  | r :: rs' => Seq r (Seqs rs')
  end.

(** The spans of the capturing groups that took part in a match. *)
Definition captures : Type := nat -> option (nat * nat).

Definition no_captures : captures := fun _ => None.

Definition set_capture (n : nat) (sp : nat * nat) (cs : captures) : captures :=
  fun m => if m =? n then Some sp else cs m.

(** A match object: the span of the whole match and of its groups. *)
Record match_object : Type := {
  m_start : nat;
  m_end : nat;
  m_groups : captures
}.

(** The backtracking matcher, in continuation-passing style: [rmatch r k
    pos rest cs] matches [r] at position [pos], where the text from
    [pos] on is [rest], then hands the position reached to [k]. A
    greedy repetition ([star_loop]) tries the longest run first and gives
    characters back when what follows fails. *)
Fixpoint star_loop (p : ascii -> bool) (k : nat -> pystr -> option match_object)
    (pos : nat) (rest : pystr) : option match_object :=
  match rest with
  | c :: rest' =>
      if p c
      then match star_loop p k (S pos) rest' with
           | Some m => Some m
           | None => k pos rest
           end
      else k pos rest
  | [] => k pos rest
  end.

Fixpoint rmatch (r : regex) (k : nat -> pystr -> captures -> option match_object)
    (pos : nat) (rest : pystr) (cs : captures) : option match_object :=
  match r with
  | Eps => k pos rest cs
  | Cls p =>
      match rest with
      | c :: rest' => if p c then k (S pos) rest' cs else None
      | [] => None
      end
  | Star p => star_loop p (fun pos' rest' => k pos' rest' cs) pos rest
  | Seq r1 r2 => rmatch r1 (rmatch r2 k) pos rest cs
  | Opt r' =>
      match rmatch r' k pos rest cs with
      | Some m => Some m
      | None => k pos rest cs
      end
  | Group n r' =>
      rmatch r' (fun pos' rest' cs' => k pos' rest' (set_capture n (pos, pos') cs'))
        pos rest cs
  end.

(** [re.match] at one position. *)
Definition match_at (r : regex) (pos : nat) (rest : pystr) : option match_object :=
  rmatch r (fun pos' _ cs => Some {| m_start := pos; m_end := pos'; m_groups := cs |})
    pos rest no_captures.

(** The scan of [re.search]: the first position, from [pos] on, where the
    pattern matches. *)
Fixpoint search_from (r : regex) (pos : nat) (rest : pystr) : option match_object :=
  match match_at r pos rest with
  | Some m => Some m
  | None =>
      match rest with
      | [] => None
      | _ :: rest' => search_from r (S pos) rest'
      end
  end.

(** [re.search(r, s)]. *)
Definition re_search (r : regex) (s : pystr) : option match_object :=
  search_from r 0 s.

(** [m.group(0)] and [m.group(n)] on the text [s] that was searched. *)
Definition group0 (s : pystr) (m : match_object) : pystr :=
  slice s (m_start m) (m_end m).

Definition group (s : pystr) (m : match_object) (n : nat) : option pystr :=
  option_map (fun sp => slice s (fst sp) (snd sp)) (m_groups m n).

(** The patterns of the script. In these comments an apostrophe stands
    for the double quote of the pattern. *)

(** [\(\s*footprint\s+'([^']+)'] *)
Definition footprint_type_re : regex :=
  Seqs [Cls (is_char lparen); Star is_space; Str (lit "footprint");
        Plus is_space; Cls (is_char dquote);
        Group 1 (Plus (not_char dquote)); Cls (is_char dquote)].

(** [\(\s*property\s+'Reference'\s+'([^']+)'] *)
Definition reference_re : regex :=
  Seqs [Cls (is_char lparen); Star is_space; Str (lit "property");
        Plus is_space; Str (qlit "'Reference'"); Plus is_space;
        Cls (is_char dquote);
        Group 1 (Plus (not_char dquote)); Cls (is_char dquote)].

(** [\(at\s+([-\d.]+)\s+([-\d.]+)(?:\s+([-\d.]+))?\)] *)
Definition at_re : regex :=
  Seqs [Cls (is_char lparen); Str (lit "at"); Plus is_space;
        Group 1 (Plus is_number_char); Plus is_space;
        Group 2 (Plus is_number_char);
        Opt (Seq (Plus is_space) (Group 3 (Plus is_number_char)));
        Cls (is_char rparen)].

(** [\d+] *)
Definition digits_re : regex := Plus is_digit.

(** ** Python numbers: [int()], [float()] and their formatting

    The built-in conversions the script calls, on the binary64 numbers of
    [PrimFloat]. A decimal numeral is read with exact integer arithmetic
    and rounded once, to nearest with ties to even, as [float()] does;
    [format(x, '.4f')] and [str(x)] are computed from the exact value of
    the number. *)

Module Py.

Local Open Scope Z_scope.

(** The value of a decimal digit. *)
Definition digit_value (c : ascii) : Z := Z.of_nat (code c) - 48.

(** The number that a string of decimal digits denotes. *)
Definition int_of_digits (s : pystr) : Z :=
  fold_left (fun acc c => 10 * acc + digit_value c) s 0.

(** The longest string of digits [int()] converts
    ([sys.get_int_max_str_digits()], by default). *)
Definition max_str_digits : nat := 4300.

(** [int(s)] for a string of decimal digits: [None] stands for the
    [ValueError] raised on a string of more than [max_str_digits]
    digits, leading zeros included. *)
Definition int_of_str (s : pystr) : option Z :=
  if (max_str_digits <? length s)%nat then None else Some (int_of_digits s).

Definition digit_char (d : Z) : ascii := ascii_of_nat (Z.to_nat (48 + d)).

(** The decimal digits of [n >= 0], at least one of them. *)
Fixpoint digits_fuel (fuel : nat) (n : Z) (acc : pystr) : pystr :=
  match fuel with
  | O => acc
  | S fuel' =>
      let acc' := digit_char (n mod 10) :: acc in
      if n <? 10 then acc' else digits_fuel fuel' (n / 10) acc'
  end.

Definition digits_of (n : Z) : pystr :=
  digits_fuel (S (Z.to_nat (Z.log2 n))) n [].

(** [str(n)] for an [int]. *)
Definition str_of_int (n : Z) : pystr :=
  if n <? 0 then "-"%char :: digits_of (- n) else digits_of n.

(** [a / b] rounded to the nearest integer, ties to even ([b > 0]). *)
Definition div_half_even (a b : Z) : Z :=
  let q := a / b in
  let r := a mod b in
  if (b <? 2 * r) || ((b =? 2 * r) && Z.odd q) then q + 1 else q.

(** The binary64 number nearest to [num / den], for [num >= 0] and
    [den > 0]. *)
Definition float_of_ratio (num den : Z) : float :=
  if num =? 0 then PrimFloat.zero
  else
    let e1 := Z.log2 num - Z.log2 den - 52 in
    let q1 := if 0 <=? e1 then num / (den * 2 ^ e1) else (num * 2 ^ (- e1)) / den in
    let e2 := if q1 <? 2 ^ 52 then e1 - 1 else e1 in
    let e := Z.max e2 (-1074) in
    let q := if 0 <=? e then div_half_even num (den * 2 ^ e)
             else div_half_even (num * 2 ^ (- e)) den in
    FloatOps.Z.ldexp (of_uint63 (Uint63.of_Z q)) e.

(** The syntax [float()] accepts, among the strings of the class
    [[-\d.]]: an optional sign, digits with at most one point, and a
    digit on at least one side of the point. *)
Fixpoint take_digits (s : pystr) : pystr * pystr :=
  match s with
  | c :: s' =>
      if is_digit c then let (d, r) := take_digits s' in (c :: d, r)
      else ([], s)
  | [] => ([], [])
  end.

(** The parts of a numeral: sign, digits before and after the point. *)
Definition numeral_parts (s : pystr) : option (bool * pystr * pystr) :=
  let (neg, body) :=
    match s with
    | c :: s' => if Ascii.eqb c "-"%char then (true, s') else (false, s)
    | [] => (false, s)
    end in
  let (int_part, rest) := take_digits body in
  match rest with
  | [] => match int_part with [] => None | _ => Some (neg, int_part, []) end
  | c :: frac =>
      if Ascii.eqb c "."%char && forallb is_digit frac
      then match int_part, frac with
           | [], [] => None
           | _, _ => Some (neg, int_part, frac)
           end
      else None
  end.

(** [float(s)]: [None] stands for the [ValueError] raised on a string
    that is not a numeral. *)
Definition float_of_str (s : pystr) : option float :=
  match numeral_parts s with
  | None => None
  | Some (neg, int_part, frac) =>
      let v := float_of_ratio (int_of_digits (int_part ++ frac))
                 (10 ^ Z.of_nat (length frac)) in
      Some (if neg then PrimFloat.opp v else v)
  end.

(** [float(n)] for a list index [n] (below [2^63], as every index is). *)
Definition float_of_nat (n : nat) : float :=
  of_uint63 (Uint63.of_Z (Z.of_nat n)).

(** [digits] padded with zeros on the left to [width] characters. *)
Definition zero_pad (width : nat) (s : pystr) : pystr :=
  repeat "0"%char (width - length s) ++ s.

(** [format(x, '.4f')]. *)
Definition format_4f (x : float) : pystr :=
  match Prim2SF x with
  | S754_nan => lit "nan"
  | S754_infinity s => if s then lit "-inf" else lit "inf"
  | S754_zero s => if s then lit "-0.0000" else lit "0.0000"
  | S754_finite s m e =>
      let n := if 0 <=? e then Zpos m * 2 ^ e * 10000
               else div_half_even (Zpos m * 10000) (2 ^ (- e)) in
      (if s then ["-"%char] else [])
      ++ digits_of (n / 10000) ++ "."%char :: zero_pad 4 (digits_of (n mod 10000))
  end.

(** [10^t <= a / b], for [a, b > 0]. *)
Definition pow10_le (t a b : Z) : bool :=
  if 0 <=? t then 10 ^ t * b <=? a else b <=? a * 10 ^ (- t).

Fixpoint climb_log10 (fuel : nat) (t a b : Z) : Z :=
  match fuel with
  | O => t
  | S fuel' => if pow10_le (t + 1) a b then climb_log10 fuel' (t + 1) a b else t
  end.

(** The largest [t] with [10^t <= a / b], for [a, b > 0]. *)
Definition floor_log10 (a b : Z) : Z :=
  climb_log10 6 ((Z.log2 a - Z.log2 b) * 30103 / 100000 - 2) a b.

Fixpoint strip_zeros (fuel : nat) (c p : Z) : Z * Z :=
  match fuel with
  | O => (c, p)
  | S fuel' => if (c mod 10 =? 0) && (0 <? c) then strip_zeros fuel' (c / 10) (p + 1)
               else (c, p)
  end.

(** The shortest decimal [c * 10^p] that rounds to [m * 2^e], and among
    the shortest the nearest: the digits [repr] prints. [fuel] bounds the
    number of digits tried (17 are always enough). *)
Fixpoint shortest_decimal (fuel : nat) (n : Z) (x lo hi den t : Z)
    (inclusive : bool) : Z * Z :=
  let p := t - n + 1 in
  let f := if p <? 0 then 10 ^ (- p) else 1 in
  let dn := if p <? 0 then den else den * 10 ^ p in
  let d := (x * f) / dn in
  let inside c :=
    if inclusive then (lo * f <=? c * dn) && (c * dn <=? hi * f)
    else (lo * f <? c * dn) && (c * dn <? hi * f) in
  let dist c := Z.abs (c * dn - x * f) in
  let pick :=
    match inside d, inside (d + 1) with
    | true, true =>
        if dist d <? dist (d + 1) then Some d
        else if dist (d + 1) <? dist d then Some (d + 1)
        else Some (if Z.even d then d else d + 1)
    | true, false => Some d
    | false, true => Some (d + 1)
    | false, false => None
    end in
  match pick, fuel with
  | Some c, _ => (c, p)
  | None, O => (d, p)
  | None, S fuel' => shortest_decimal fuel' (n + 1) x lo hi den t inclusive
  end.

(** The digits and the position of the decimal point of [repr] for the
    finite number [m * 2^e]: the value is [0.digits * 10^point]. *)
Definition repr_digits (m : positive) (e : Z) : pystr * Z :=
  let boundary := (Zpos m =? 2 ^ 52) && (-1074 <? e) in
  let sn := if 2 <=? e then 2 ^ (e - 2) else 1 in
  let den := if 2 <=? e then 1 else 2 ^ (2 - e) in
  let x := 4 * Zpos m * sn in
  let hi := (4 * Zpos m + 2) * sn in
  let lo := (4 * Zpos m - (if boundary then 1 else 2)) * sn in
  let t := floor_log10 x den in
  let (c, p) := shortest_decimal 17 1 x lo hi den t (Z.even (Zpos m)) in
  let (c', p') := strip_zeros 20 c p in
  let ds := digits_of c' in
  (ds, p' + Z.of_nat (length ds)).

(** [str(x)], that is [repr(x)], for a [float]. *)
Definition str_of_float (x : float) : pystr :=
  match Prim2SF x with
  | S754_nan => lit "nan"
  | S754_infinity s => if s then lit "-inf" else lit "inf"
  | S754_zero s => if s then lit "-0.0" else lit "0.0"
  | S754_finite s m e =>
      let (ds, point) := repr_digits m e in
      let n := Z.of_nat (length ds) in
      (if s then ["-"%char] else []) ++
      if (point <=? -4) || (16 <? point) then
        let e10 := point - 1 in
        firstn 1 ds
        ++ (match skipn 1 ds with [] => [] | rest => "."%char :: rest end)
        ++ "e"%char :: (if e10 <? 0 then "-"%char else "+"%char)
        :: zero_pad 2 (digits_of (Z.abs e10))
      else if point <=? 0 then
        lit "0." ++ repeat "0"%char (Z.to_nat (- point)) ++ ds
      else if n <=? point then
        ds ++ repeat "0"%char (Z.to_nat (point - n)) ++ lit ".0"
      else
        firstn (Z.to_nat point) ds ++ "."%char :: skipn (Z.to_nat point) ds
  end.

End Py.

(** ** Exceptions *)

Inductive exn : Type := ValueError | AttributeError | TypeError.

(** The outcome of a call that may raise. *)
Inductive result (A : Type) : Type :=
| Ok (a : A)
| Raise (e : exn).

Arguments Ok {A} a.

Arguments Raise {A} e.

Definition bind {A B : Type} (r : result A) (f : A -> result B) : result B :=
  match r with
  | Ok a => f a
  | Raise e => Raise e
  end.

Notation "x <- r ;; k" := (bind r (fun x => k))
  (at level 61, r at next level, right associativity).

(** A list comprehension whose element expression may raise: the first
    exception ends it. *)
Fixpoint map_result {A B : Type} (f : A -> result B) (l : list A) : result (list B) :=
  match l with
  | [] => Ok []
  | a :: l' => b <- f a ;; bs <- map_result f l' ;; Ok (b :: bs)
  end.

(** ** The block extractor: [parse_s_expression_blocks] *)

(** One turn of the body of the [for] loop: the counter after [c]. *)
Definition count_paren (open_parens : Z) (c : ascii) : Z :=
  if Ascii.eqb c lparen then (open_parens + 1)%Z
  else if Ascii.eqb c rparen then (open_parens - 1)%Z
  else open_parens.

(** The [for i in range(block_start, len(content))] loop, on the text from
    [i] on: [Some i] when it leaves through [break] at index [i], [None]
    when it runs to the end of the text (the [else] clause). *)
Fixpoint match_end (rest : pystr) (i : nat) (open_parens : Z) : option nat :=
  match rest with
  | [] => None
  | c :: rest' =>
      let open_parens := count_paren open_parens c in
      if (open_parens =? 0)%Z then Some i
      else match_end rest' (S i) open_parens
  end.

(** The positions that [index] and [match_end] return lie within the text:
    this is what makes the [while] loop below end. *)

Lemma startswith_length s sub :
  startswith s sub = true -> length sub <= length s.
Proof.
  revert s; induction sub as [|a sub IH]; intros [|b s]; simpl; intros H;
    try lia; try discriminate.
  apply andb_true_iff in H. destruct H as [_ H]. apply IH in H. lia.
Qed.

Lemma find_from_bounds rest sub i b :
  find_from rest sub i = Some b ->
  i <= b /\ b + length sub <= i + length rest.
Proof.
  revert i; induction rest as [|c rest IH]; intros i; cbn [find_from];
    destruct (startswith _ sub) eqn:E; try discriminate.
  - intros [= <-]. apply startswith_length in E. lia.
  - intros [= <-]. apply startswith_length in E. lia.
  - intros H. apply IH in H. simpl. lia.
Qed.

Lemma index_bounds s sub start b :
  index s sub start = Some b ->
  start <= b /\ b + length sub <= length s /\ start <= length s.
Proof.
  unfold index. destruct (Nat.ltb_spec (length s) start); [discriminate|].
  intros Hf. apply find_from_bounds in Hf. rewrite length_skipn in Hf. lia.
Qed.

Lemma match_end_bounds rest i d e :
  match_end rest i d = Some e -> i <= e < i + length rest.
Proof.
  revert i d; induction rest as [|c rest IH]; intros i d; simpl; [discriminate|].
  destruct (count_paren d c =? 0)%Z.
  - intros [= <-]; lia.
  - intros H; apply IH in H; lia.
Qed.

(** The [while True] loop. Each turn moves [start_index] forward, which is
    why the loop ends. *)
Equations? parse_loop (content block_name : pystr) (start_index : nat)
    (blocks : list pystr) : list pystr
    by wf (length content + 1 - start_index) lt :=
  parse_loop content block_name start_index blocks
    with inspect (index content (lparen :: block_name) start_index) := {
    | exist _ None _ => blocks
    | exist _ (Some block_start) Hfind
        with inspect (match_end (skipn block_start content) block_start 0) := {
        | exist _ (Some i) Hend =>
            parse_loop content block_name (i + 1)
              (blocks ++ [slice content block_start (i + 1)])
        | exist _ None _ =>
            parse_loop content block_name
              (block_start + length (lparen :: block_name)) blocks } }.
Proof.
  - apply index_bounds in Hfind. apply match_end_bounds in Hend.
    rewrite length_skipn in Hend. lia.
  - apply index_bounds in Hfind. simpl in *. lia.
Qed.

Definition parse_s_expression_blocks (content block_name : pystr) : list pystr :=
  parse_loop content block_name 0 [].

(** ** The field extractor: [get_footprint_details] *)

(** The record (a [dict] in the script) of one footprint. *)
Module Component.
Record t : Type := {
  type : option pystr;
  reference : option pystr;
  x : option float;
  y : option float;
  rotation : option float;
  at_string : option pystr;
  original_string : pystr
}.
End Component.

(** [float(s)]. *)
Definition float_of (s : pystr) : result float :=
  match Py.float_of_str s with
  | Some v => Ok v
  | None => Raise ValueError
  end.

(** [float(p) if p is not None else None]. *)
Definition float_or_none (p : option pystr) : result (option float) :=
  match p with
  | Some s => v <- float_of s ;; Ok (Some v)
  | None => Ok None
  end.

Definition get_footprint_details (footprint_str : pystr) : result Component.t :=
  let type_match := re_search footprint_type_re footprint_str in
  let footprint_type :=
    match type_match with
    | Some m => group footprint_str m 1
    | None => None
    end in
  let ref_match := re_search reference_re footprint_str in
  let reference :=
    match ref_match with
    | Some m => group footprint_str m 1
    | None => None
    end in
  let at_match := re_search at_re footprint_str in
  let position :=
    match at_match with
    | Some m => (group footprint_str m 1, group footprint_str m 2,
                 group footprint_str m 3)
    | None => (None, None, None)
    end in
  let at_string :=
    match at_match with
    | Some m => Some (group0 footprint_str m)
    | None => None
    end in
  x <- float_or_none (fst (fst position)) ;;
  y <- float_or_none (snd (fst position)) ;;
  rotation <- float_or_none (snd position) ;;
  Ok {| Component.type := footprint_type;
        Component.reference := reference;
        Component.x := x;
        Component.y := y;
        Component.rotation := rotation;
        Component.at_string := at_string;
        Component.original_string := footprint_str |}.

(** ** Filter and sort: [sort_components] *)

(** The truth value of a string that may be [None]. *)
Definition truthy (s : option pystr) : bool :=
  match s with
  | Some (_ :: _) => true
  | _ => false
  end.

(** [c['reference'] and c['reference'].startswith(prefix)]. *)
Definition has_prefix (prefix : pystr) (c : Component.t) : bool :=
  match Component.reference c with
  | Some r => truthy (Some r) && startswith r prefix
  | None => false
  end.

(** The key: [int(re.search(r'\d+', x['reference']).group())]. Without a
    digit in the reference, [re.search] returns [None] and [.group()]
    raises [AttributeError]; on a run of more than 4300 digits [int()]
    raises [ValueError]. *)
Definition sort_key (c : Component.t) : result Z :=
  match Component.reference c with
  | Some r =>
      match re_search digits_re r with
      | Some m =>
          match Py.int_of_str (group0 r m) with
          | Some n => Ok n
          | None => Raise ValueError
          end
      | None => Raise AttributeError
      end
  | None => Raise TypeError
  end.

(** [sorted] is stable: an element goes before the first one whose key is
    not smaller than its own. *)
Fixpoint insert_by_key {A : Type} (k : Z) (a : A) (l : list (Z * A)) : list (Z * A) :=
  match l with
  | [] => [(k, a)]
  | (k', a') :: l' =>
      if (k <=? k')%Z then (k, a) :: (k', a') :: l'
      else (k', a') :: insert_by_key k a l'
  end.

Fixpoint sorted_by_key {A : Type} (l : list (Z * A)) : list (Z * A) :=
  match l with
  | [] => []
  | (k, a) :: l' => insert_by_key k a (sorted_by_key l')
  end.

(** [sorted(l, key=f)]: the keys are computed first, for every element
    in order. *)
Definition sorted {A : Type} (l : list A) (key : A -> result Z) : result (list A) :=
  keys <- map_result key l ;;
  Ok (map snd (sorted_by_key (combine keys l))).

Definition sort_components (components : list Component.t) (prefix : pystr)
  : result (list Component.t) :=
  sorted (filter (has_prefix prefix) components) sort_key.

(** ** The placement driver: [main] *)

(** The lines [main] prints, by the format string that produces them. *)
Inductive message : Type :=
| FileNotFound                          (* "Error: The file ... was not found." *)
| CheckDirectory                        (* "Please make sure the script is ..." *)
| NoFootprints                          (* "Could not parse any footprints ..." *)
| FoundDisplays (n : nat)               (* "Found {n} displays to process." *)
| FoundResistors (n : nat)              (* "Found {n} resistors to process." *)
| NoDisplays                            (* "Error: No displays with ..." *)
| FewResistors (found expected : nat)   (* "Warning: Found {} resistors, but ..." *)
| Placed (reference : option pystr) (x : float)
                                        (* "Placed {reference} at X={x}" *)
| NoCoordinates (reference : option pystr)
                                        (* "Warning: Not enough relative ..." *)
| Complete.                             (* "Processing complete. ..." *)

Definition display_type : pystr := lit "External_Parts:ACPSC04-41SEKWA".

Definition start_x : float := 5.7%float.

Definition start_y : float := 199.1%float.

Definition spacing : float := 11.4%float.

(** A triple [(rel_x, rel_y, rel_rot)] of the table. *)
Definition rel (rel_x rel_y : float) (rel_rot : Z) : float * float * Z :=
  (rel_x, rel_y, rel_rot).

Definition resistor_relative_coords : list (float * float * Z) :=
  [ rel (-5.7) (-4.0) 90; rel (-5.7) (-1.4) 90; rel (-5.7) 1.2 (-90);
    rel (-5.7) 3.8 (-90); rel (-5.7) 6.5 (-90); rel (-5.7) (-9.2) 90;
    rel (-5.7) (-6.6) 90; rel (-2.5) (-11.0) 0; rel 1.5 (-11.0) 0;
    rel 3.9 (-11.0) 0; rel 1.3 10.9 0; rel (-1.0) 10.9 0;
    rel (-3.3) 10.9 0; rel (-5.7) 9.2 (-190); rel 3.7 10.9 180 ].

(** [str(t)] for a type that may be [None]. *)
Definition str_of_type (t : option pystr) : pystr :=
  match t with
  | Some s => s
  | None => lit "None"
  end.

(** [c['type'] == "External_Parts:ACPSC04-41SEKWA"]. *)
Definition is_display (c : Component.t) : bool :=
  match Component.type c with
  | Some t => if list_eq_dec ascii_dec t display_type then true else false
  | None => false
  end.

(** ["Resistor_SMD" in str(c.get('type'))]. *)
Definition is_resistor (c : Component.t) : bool :=
  contains (str_of_type (Component.type c)) (lit "Resistor_SMD").

(** What the two loops carry: the document being rewritten and the lines
    printed so far. *)
Record state : Type := {
  modified_content : pystr;
  printed : list message
}.

Definition print (m : message) (st : state) : state :=
  {| modified_content := modified_content st; printed := printed st ++ [m] |}.

(** The guard of both substitutions:
    [c['at_string'] and c['original_string'] in modified_content]. *)
Definition can_replace (c : Component.t) (content : pystr) : bool :=
  truthy (Component.at_string c) && contains content (Component.original_string c).

(** The two [replace] calls: the new [at] string, after four spaces, takes
    the place of the first [at_string] of the block, and the new block the
    place of the first occurrence of the block in the document. *)
Definition substitute (c : Component.t) (new_at_str : pystr) (content : pystr) : pystr :=
  match Component.at_string c with
  | Some at_string =>
      let new_block :=
        replace1 (Component.original_string c) at_string (lit "    " ++ new_at_str) in
      replace1 content (Component.original_string c) new_block
  | None => content
  end.

Definition new_display_x (i : nat) : float :=
  (start_x + Py.float_of_nat i * spacing)%float.

Definition new_display_y : float := start_y.

(** [f"(at {new_display_x:.4f} {new_display_y:.4f}{rot_str})"]. *)
Definition display_at_str (i : nat) (display : Component.t) : pystr :=
  let rot_str :=
    match Component.rotation display with
    | Some r => lit " " ++ Py.str_of_float r
    | None => []
    end in
  lit "(at " ++ Py.format_4f (new_display_x i) ++ lit " "
  ++ Py.format_4f new_display_y ++ rot_str ++ lit ")".

(** [f"(at {new_resistor_x:.4f} {new_resistor_y:.4f} {rel_rot})"]. *)
Definition resistor_at_str (i : nat) (slot : float * float * Z) : pystr :=
  let '(rel_x, rel_y, rel_rot) := slot in
  let new_resistor_x := (new_display_x i + rel_x)%float in
  let new_resistor_y := (new_display_y + rel_y)%float in
  lit "(at " ++ Py.format_4f new_resistor_x ++ lit " "
  ++ Py.format_4f new_resistor_y ++ lit " " ++ Py.str_of_int rel_rot ++ lit ")".

(** The first half of the body of the outer loop, for display [i]. The
    line it prints formats the reference as a string, which the reference
    of every record of a group is (see [sort_components]). *)
Definition place_display (i : nat) (display : Component.t) (st : state) : state :=
  if can_replace display (modified_content st) then
    print (Placed (Component.reference display) (new_display_x i))
      {| modified_content :=
           substitute display (display_at_str i display) (modified_content st);
         printed := printed st |}
  else st.

(** The body of the inner loop, for resistor [j] of display [i]. *)
Definition place_resistor (i j : nat) (resistor : Component.t) (st : state) : state :=
  if length resistor_relative_coords <=? j then
    print (NoCoordinates (Component.reference resistor)) st
  else
    match nth_error resistor_relative_coords j with
    | Some slot =>
        if can_replace resistor (modified_content st) then
          {| modified_content :=
               substitute resistor (resistor_at_str i slot) (modified_content st);
             printed := printed st |}
        else st
    | None => st
    end.

(** [for j, resistor in enumerate(current_display_resistors)], from [j]. *)
Fixpoint resistor_loop (i j : nat) (current : list Component.t) (st : state) : state :=
  match current with
  | [] => st
  | resistor :: rest => resistor_loop i (S j) rest (place_resistor i j resistor st)
  end.

(** [resistors[i * 15 : i * 15 + 15]]. *)
Definition current_display_resistors (i : nat) (resistors : list Component.t)
  : list Component.t :=
  firstn (i * 15 + 15 - i * 15) (skipn (i * 15) resistors).

(** [for i, display in enumerate(displays)], from [i]. *)
Fixpoint display_loop (i : nat) (displays resistors : list Component.t) (st : state)
  : state :=
  match displays with
  | [] => st
  | display :: rest =>
      let st := place_display i display st in
      let st := resistor_loop i 0 (current_display_resistors i resistors) st in
      display_loop (S i) rest resistors st
  end.

(** What a run of [main] leaves: the lines printed, the text written to
    the output file if any, and the exception that ended it if any. *)
Record run : Type := {
  console : list message;
  written : option pystr;
  raised : option exn
}.

Definition returned (log : list message) (out : option pystr) : run :=
  {| console := log; written := out; raised := None |}.

Definition failed (log : list message) (e : exn) : run :=
  {| console := log; written := None; raised := Some e |}.

(** [main], given what opening the input file yields: [None] when the
    file does not exist, its text otherwise. *)
Definition main (input_file : option pystr) : run :=
  match input_file with
  | None => returned [FileNotFound; CheckDirectory] None
  | Some original_content =>
      let footprint_strings :=
        parse_s_expression_blocks original_content (lit "footprint") in
      match footprint_strings with
      | [] => returned [NoFootprints] None
      | _ :: _ =>
          match map_result get_footprint_details footprint_strings with
          | Raise e => failed [] e
          | Ok all_components =>
              match sort_components (filter is_display all_components) (lit "SEGD") with
              | Raise e => failed [] e
              | Ok displays =>
                  match sort_components (filter is_resistor all_components) (lit "R") with
                  | Raise e => failed [] e
                  | Ok resistors =>
                      let log := [FoundDisplays (length displays);
                                  FoundResistors (length resistors)] in
                      match displays with
                      | [] => returned (log ++ [NoDisplays]) None
                      | _ :: _ =>
                          let log :=
                            if length resistors <? length displays * 15
                            then log ++ [FewResistors (length resistors)
                                           (length displays * 15)]
                            else log in
                          let st :=
                            display_loop 0 displays resistors
                              {| modified_content := original_content;
                                 printed := log |} in
                          returned (printed st ++ [Complete])
                            (Some (modified_content st))
                      end
                  end
              end
          end
      end
  end.

(** * Part II. The vocabulary of the properties *)

(** ** Parentheses and blocks *)

(** The value of the counter after the characters of [s], from [d]. *)
Definition depth_from (d : Z) (s : pystr) : Z := fold_left count_paren s d.

(** Opening minus closing parentheses of [s]. *)
Definition depth (s : pystr) : Z := depth_from 0 s.

(** A complete parenthesised expression, as the counter sees it: the
    depth is zero at the end and positive after every shorter non-empty
    prefix. Quoted parentheses count like any other. *)
Definition balanced_block (s : pystr) : Prop :=
  depth s = 0%Z /\
  forall n, 0 < n < length s -> (0 < depth (firstn n s))%Z.

(** A decision procedure for [balanced_block], from depth [d]. *)
Fixpoint balanced_from (d : Z) (s : pystr) : bool :=
  match s with
  | [] => false
  | c :: s' =>
      match s' with
      | [] => (count_paren d c =? 0)%Z
      | _ :: _ => (0 <? count_paren d c)%Z && balanced_from (count_paren d c) s'
      end
  end.

(** The text of the span [(a, b)]: [content[a:b]]. *)
Definition span_text (content : pystr) (sp : nat * nat) : pystr :=
  slice content (fst sp) (snd sp).

(** Non-empty spans within [lo, hi], each ending before the next starts. *)
Fixpoint ordered_spans (lo hi : nat) (spans : list (nat * nat)) : Prop :=
  match spans with
  | [] => True
  | (a, b) :: rest => lo <= a /\ a < b /\ b <= hi /\ ordered_spans b hi rest
  end.

(** The counter returns to zero strictly inside the search token itself. *)
Definition token_closes_early (token : pystr) : bool :=
  match match_end token 0 0 with
  | Some e => S e <? length token
  | None => false
  end.

(** What holds of every block the extractor returns for [tag]. *)
Record extracted_block (tag blk : pystr) : Prop := {
  eb_open : exists t, blk = lparen :: t;
  eb_tag : token_closes_early (lparen :: tag) = false ->
           startswith blk (lparen :: tag) = true;
  eb_count : count_occ ascii_dec blk lparen = count_occ ascii_dec blk rparen;
  eb_prefix : forall n, 0 < n < length blk ->
      count_occ ascii_dec (firstn n blk) rparen
      < count_occ ascii_dec (firstn n blk) lparen
}.

(** The text [gap_1 block_1 ... gap_k block_k tail]. *)
Fixpoint document (parts : list (pystr * pystr)) (tail : pystr) : pystr :=
  match parts with
  | [] => tail
  | (gap, block) :: rest => gap ++ block ++ document rest tail
  end.

(** The search token of the tag ["footprint"]. *)
Definition footprint_tag : pystr := lit "footprint".

(** A well-formed [(footprint ...)] expression: it opens with the token
    and is one complete parenthesised expression. *)
Definition well_formed_footprint (b : pystr) : Prop :=
  startswith b (lparen :: footprint_tag) = true /\ balanced_block b.

(** A stretch of text between blocks: the token does not occur in it. *)
Definition no_footprint_token (g : pystr) : Prop :=
  contains g (lparen :: footprint_tag) = false.

(** ** Groups of a match, digits of a reference *)

(** The groups a pattern sets in every match: those that stand outside
    any option or repetition. *)
Fixpoint always_sets (r : regex) (n : nat) : bool :=
  match r with
  | Group m r' => (m =? n) || always_sets r' n
  | Seq r1 r2 => always_sets r1 n || always_sets r2 n
  | _ => false
  end.

(** The longest prefix of [s] made of characters of the class [p]. *)
Fixpoint leading (p : ascii -> bool) (s : pystr) : pystr :=
  match s with
  | c :: s' => if p c then c :: leading p s' else []
  | [] => []
  end.

(** The first run of decimal digits of [s], if it has a digit. *)
Fixpoint first_digit_run (s : pystr) : option pystr :=
  match s with
  | [] => None
  | c :: s' => if is_digit c then Some (c :: leading is_digit s') else first_digit_run s'
  end.

(** The integer value of the first run of decimal digits of the
    reference ([0] when there is none). *)
Definition reference_number (c : Component.t) : Z :=
  match Component.reference c with
  | Some r =>
      match first_digit_run r with
      | Some d => Py.int_of_digits d
      | None => 0%Z
      end
  | None => 0%Z
  end.

(** The records the specification keeps: the reference is not null and
    starts with the prefix. *)
Definition kept (prefix : pystr) (c : Component.t) : bool :=
  match Component.reference c with
  | Some r => startswith r prefix
  | None => false
  end.

(** A record with a reference and nothing else. *)
Definition with_reference (r : pystr) : Component.t :=
  {| Component.type := None;
     Component.reference := Some r;
     Component.x := None;
     Component.y := None;
     Component.rotation := None;
     Component.at_string := None;
     Component.original_string := [] |}.

(** Pairs of a key and an element, ordered by key. *)
Definition key_le {A : Type} (p q : Z * A) : Prop := (fst p <= fst q)%Z.

Definition has_key {A : Type} (k : Z) (p : Z * A) : bool := (fst p =? k)%Z.

(** ** The text a pattern matches *)

(** [matches r s]: the pattern [r] matches the whole of [s]. *)
Inductive matches : regex -> pystr -> Prop :=
| matches_eps : matches Eps []
| matches_cls p c : p c = true -> matches (Cls p) [c]
| matches_star_nil p : matches (Star p) []
| matches_star_cons p c s :
    p c = true -> matches (Star p) s -> matches (Star p) (c :: s)
| matches_seq r1 r2 s1 s2 :
    matches r1 s1 -> matches r2 s2 -> matches (Seq r1 r2) (s1 ++ s2)
| matches_opt_none r : matches (Opt r) []
| matches_opt_some r s : matches r s -> matches (Opt r) s
| matches_group n r s : matches r s -> matches (Group n r) s.

(** The class [p] lies within the class [q], checked on the 256
    characters. *)
Definition class_within (p q : ascii -> bool) : bool :=
  forallb (fun n => implb (p (ascii_of_nat n)) (q (ascii_of_nat n))) (seq 0 256).

(** Every class of [r] lies within [q]. *)
Fixpoint classes_within (r : regex) (q : ascii -> bool) : bool :=
  match r with
  | Eps => true
  | Cls p | Star p => class_within p q
  | Seq r1 r2 => classes_within r1 q && classes_within r2 q
  | Opt r' | Group _ r' => classes_within r' q
  end.

(** Neither parenthesis. *)
Definition plain (c : ascii) : bool :=
  negb (Ascii.eqb c lparen) && negb (Ascii.eqb c rparen).

(** One parenthesised group without a parenthesis inside. *)
Definition paren_group (s : pystr) : Prop :=
  exists body, s = lparen :: body ++ [rparen] /\ Forall (fun c => plain c = true) body.

(** ** Substitutions and placements *)

(** The substitution made for one record when its guard holds, and the
    document left as it is otherwise. *)
Definition guarded_substitute (c : Component.t) (new_at_str : pystr) (content : pystr)
  : pystr :=
  if can_replace c content then substitute c new_at_str content else content.

(** The text put in the place of a position field: one parenthesised
    group after characters that are no parentheses (the four spaces of
    the script, more of them when a replaced field is replaced again). *)
Definition inserted (s : pystr) : Prop :=
  exists sp g, s = sp ++ g /\ Forall (fun c => plain c = true) sp /\ paren_group g.

(** One position field rewritten: the first occurrence [anchor] of the
    [at] string of [c] inside the first occurrence of the block of [c] in
    the document gives way to [new]; the text before and after it, inside
    the block ([bpre], [bpost]) and around the block ([pre], [post]), is
    kept as it is. *)
Inductive field_replaced (cs : list Component.t) : pystr -> pystr -> Prop :=
| field_replaced_intro c anchor new pre bpre bpost post :
    In c cs ->
    Component.at_string c = Some anchor ->
    inserted new ->
    Component.original_string c = bpre ++ anchor ++ bpost ->
    index (Component.original_string c) anchor 0 = Some (length bpre) ->
    index (pre ++ bpre ++ anchor ++ bpost ++ post) (Component.original_string c) 0
      = Some (length pre) ->
    field_replaced cs (pre ++ bpre ++ anchor ++ bpost ++ post)
      (pre ++ bpre ++ new ++ bpost ++ post).

(** A sequence of such rewritings. *)
Inductive fields_replaced (cs : list Component.t) : pystr -> pystr -> Prop :=
| fields_same doc : fields_replaced cs doc doc
| fields_step doc doc' doc'' :
    field_replaced cs doc doc' -> fields_replaced cs doc' doc'' ->
    fields_replaced cs doc doc''.

(** [edited cs input output]: read from left to right, [output] is
    [input] character by character, except that some occurrences of [at]
    strings of records of [cs] in [input] have given way, each as a
    whole, to inserted text. *)
Inductive edited (cs : list Component.t) : pystr -> pystr -> Prop :=
| edited_end : edited cs [] []
| edited_keep ch s s' : edited cs s s' -> edited cs (ch :: s) (ch :: s')
| edited_field c anchor new s s' :
    In c cs ->
    Component.at_string c = Some anchor ->
    inserted new ->
    edited cs s s' ->
    edited cs (anchor ++ s) (new ++ s').

(** The text of an [at] clause: two coordinates with four decimals and
    the rotation, if any, as it is given. *)
Definition at_text (x y : float) (rot : option pystr) : pystr :=
  lit "(at " ++ Py.format_4f x ++ lit " " ++ Py.format_4f y
  ++ match rot with Some r => lit " " ++ r | None => [] end ++ lit ")".

(** The placements in the words of the specification. Display [i] goes to
    [(start_x + i * spacing, start_y)] and keeps its rotation; resistor [j]
    of its slice of 15 goes to [(x_i + dx_j, start_y + dy_j)] with the
    rotation [rot_j] of the table. *)
Definition spec_display_at (i : nat) (display : Component.t) : pystr :=
  at_text (start_x + Py.float_of_nat i * spacing) start_y
    (option_map Py.str_of_float (Component.rotation display)).

Definition spec_resistor_at (i : nat) (slot : float * float * Z) : pystr :=
  at_text ((start_x + Py.float_of_nat i * spacing) + fst (fst slot))
    (start_y + snd (fst slot)) (Some (Py.str_of_int (snd slot))).

Definition spec_turn (resistors : list Component.t) (p : nat * Component.t)
  : list (Component.t * pystr) :=
  (snd p, spec_display_at (fst p) (snd p))
  :: map (fun q => (fst q, spec_resistor_at (fst p) (snd q)))
       (combine (firstn 15 (skipn (15 * fst p) resistors)) resistor_relative_coords).

Definition placements_from (i : nat) (displays resistors : list Component.t)
  : list (Component.t * pystr) :=
  flat_map (spec_turn resistors) (combine (seq i (length displays)) displays).

Definition placements (displays resistors : list Component.t)
  : list (Component.t * pystr) :=
  placements_from 0 displays resistors.

(** The placements applied in order, each under its guard. *)
Definition apply_placements (l : list (Component.t * pystr)) (content : pystr) : pystr :=
  fold_left (fun doc p => guarded_substitute (fst p) (snd p) doc) l content.

(** The two groups of a run: the sorted displays and the sorted
    resistors of the document. *)
Definition groups_of (content : pystr) (displays resistors : list Component.t) : Prop :=
  exists all_components,
    map_result get_footprint_details
      (parse_s_expression_blocks content (lit "footprint")) = Ok all_components /\
    sort_components (filter is_display all_components) (lit "SEGD") = Ok displays /\
    sort_components (filter is_resistor all_components) (lit "R") = Ok resistors.

(** ** Example documents *)

(** A document whose only display has no [at] clause. *)
Definition display_without_at : pystr :=
  qlit "(kicad_pcb (footprint 'External_Parts:ACPSC04-41SEKWA' (property 'Reference' 'SEGD1')))".

(** Two displays and two resistors, out of order. *)
Definition example_document : pystr :=
  qlit "(kicad_pcb
  (footprint 'Resistor_SMD:R_0603' (layer 'F.Cu')
    (at 100 50 90)
    (property 'Reference' 'R2' (at 0 0)))
  (footprint 'External_Parts:ACPSC04-41SEKWA' (layer 'F.Cu')
    (at 10.5 20)
    (property 'Reference' 'SEGD1' (at 0 -1.5 180)))
  (footprint 'Resistor_SMD:R_0603' (layer 'F.Cu')
    (at 100 60)
    (property 'Reference' 'R1' (at 0 0)))
  (footprint 'External_Parts:ACPSC04-41SEKWA' (layer 'F.Cu')
    (at 10.5 20 45)
    (property 'Reference' 'SEGD2' (at 0 -1.5 180)))
)".

Definition example_output : pystr :=
  qlit "(kicad_pcb
  (footprint 'Resistor_SMD:R_0603' (layer 'F.Cu')
        (at 0.0000 197.7000 90)
    (property 'Reference' 'R2' (at 0 0)))
  (footprint 'External_Parts:ACPSC04-41SEKWA' (layer 'F.Cu')
        (at 5.7000 199.1000)
    (property 'Reference' 'SEGD1' (at 0 -1.5 180)))
  (footprint 'Resistor_SMD:R_0603' (layer 'F.Cu')
        (at 0.0000 195.1000 90)
    (property 'Reference' 'R1' (at 0 0)))
  (footprint 'External_Parts:ACPSC04-41SEKWA' (layer 'F.Cu')
        (at 17.1000 199.1000 45.0)
    (property 'Reference' 'SEGD2' (at 0 -1.5 180)))
)".

(** ** Capturing groups *)

(** The patterns inside the groups numbered [n] of [r]. *)
Fixpoint group_bodies (n : nat) (r : regex) : list regex :=
  match r with
  | Group m r' => (if m =? n then [r'] else []) ++ group_bodies n r'
  | Seq r1 r2 => group_bodies n r1 ++ group_bodies n r2
  | Opt r' => group_bodies n r'
  | _ => []
  end.

(** ** Lines printed and nesting *)

(** [s] is [l] with some elements left out: going through [l], every
    element is either left out or the next one of [s]. *)
Fixpoint subsequence {A : Type} (s l : list A) : Prop :=
  match l with
  | [] => s = []
  | a :: l' => subsequence s l' \/ exists s', s = a :: s' /\ subsequence s' l'
  end.

(** The line [Placed] of every display of the list, the first of which
    has the index [i]. *)
Definition display_lines (i : nat) (displays : list Component.t) : list message :=
  map (fun p => Placed (Component.reference (snd p)) (new_display_x (fst p)))
    (combine (seq i (length displays)) displays).

(** From the depth [d], the counter never goes below zero along [s] and
    ends at zero: every parenthesis of [s] has its partner. *)
Fixpoint nested_from (d : Z) (s : pystr) : bool :=
  match s with
  | [] => (d =? 0)%Z
  | c :: s' => (0 <=? count_paren d c)%Z && nested_from (count_paren d c) s'
  end.

Definition well_nested (s : pystr) : bool := nested_from 0 s.

(** ** Coordinates in tenths *)

(** Equality of two texts, as a boolean. *)
Definition pystr_eqb (a b : pystr) : bool :=
  if list_eq_dec ascii_dec a b then true else false.

(** The decimal number [tenths / 10], not negative, written with four
    decimals. *)
Definition decimal_4 (tenths : Z) : pystr :=
  Py.str_of_int (tenths / 10) ++ "."%char :: Py.digit_char (tenths mod 10) :: lit "000".

(** The table of the relative coordinates, in tenths, with the
    rotations. *)
Definition relative_tenths : list (Z * Z * Z) :=
  [ (-57, -40, 90); (-57, -14, 90); (-57, 12, -90); (-57, 38, -90);
    (-57, 65, -90); (-57, -92, 90); (-57, -66, 90); (-25, -110, 0);
    (15, -110, 0); (39, -110, 0); (13, 109, 0); (-10, 109, 0);
    (-33, 109, 0); (-57, 92, -190); (37, 109, 180) ]%Z.

(** The coordinates that display [i] and its resistors are given are,
    with four decimals, the decimal numbers [5.7 + 11.4 i], [199.1] and
    these plus the entries of the table. *)
Definition exact_slot (i : nat) (p : (float * float * Z) * (Z * Z * Z)) : bool :=
  let '((rel_x, rel_y, rel_rot), (dx, dy, rot)) := p in
  pystr_eqb (Py.format_4f (new_display_x i + rel_x))
    (decimal_4 (57 + 114 * Z.of_nat i + dx))
  && pystr_eqb (Py.format_4f (new_display_y + rel_y)) (decimal_4 (1991 + dy))
  && (rel_rot =? rot)%Z.

Definition exact_display (i : nat) : bool :=
  pystr_eqb (Py.format_4f (new_display_x i)) (decimal_4 (57 + 114 * Z.of_nat i))
  && pystr_eqb (Py.format_4f new_display_y) (decimal_4 1991)
  && forallb (exact_slot i) (combine resistor_relative_coords relative_tenths).

(** A rotation of [n] degrees, read by [float()], is printed as [n.0]. *)
Definition whole_degrees (n : Z) : bool :=
  match Py.float_of_str (Py.str_of_int n) with
  | Some r => pystr_eqb (Py.str_of_float r) (Py.str_of_int n ++ lit ".0")
  | None => false
  end.

(** ** A run around one turn of the loop *)

(** The lines printed before the loop: the two counts and, with fewer
    than 15 resistors for each display, the warning. *)
Definition lines_before_loop (displays resistors : list Component.t) : list message :=
  [FoundDisplays (length displays); FoundResistors (length resistors)]
  ++ (if length resistors <? length displays * 15
      then [FewResistors (length resistors) (length displays * 15)]
      else []).

(** The state of the loop when the turn of display [i] begins. *)
Definition state_before (content : pystr) (displays resistors : list Component.t)
    (i : nat) : state :=
  display_loop 0 (firstn i displays) resistors
    {| modified_content := content;
       printed := lines_before_loop displays resistors |}.

(** The displays and the resistors of the example document, sorted. *)
Definition example_groups : list Component.t * list Component.t :=
  Eval vm_compute in
    match map_result get_footprint_details
            (parse_s_expression_blocks example_document (lit "footprint")) with
    | Ok all_components =>
        match sort_components (filter is_display all_components) (lit "SEGD"),
              sort_components (filter is_resistor all_components) (lit "R") with
        | Ok displays, Ok resistors => (displays, resistors)
        | _, _ => ([], [])
        end
    | Raise _ => ([], [])
    end.

Definition example_first_display : Component.t :=
  nth 0 (fst example_groups) (with_reference []).

Definition example_second_display : Component.t :=
  nth 1 (fst example_groups) (with_reference []).

(** * Part III. Properties *)

(** ** The block extractor *)

(** In a case of the loop, what [index] and [match_end] returned is known:
    rewrite with it. *)
Ltac rewrite_turn :=
  repeat match goal with
         | H : index _ _ _ = _ |- _ => rewrite H
         | H : match_end _ _ _ = _ |- _ => rewrite H
         end.

(** The loop as one equation: what a turn of the [while] does. *)
Lemma parse_loop_eq content block_name start_index blocks :
  parse_loop content block_name start_index blocks =
  match index content (lparen :: block_name) start_index with
  | None => blocks
  | Some block_start =>
      match match_end (skipn block_start content) block_start 0 with
      | Some i =>
          parse_loop content block_name (i + 1)
            (blocks ++ [slice content block_start (i + 1)])
      | None =>
          parse_loop content block_name
            (block_start + length (lparen :: block_name)) blocks
      end
  end.
Proof.
  funelim (parse_loop content block_name start_index blocks);
    rewrite_turn; reflexivity.
Qed.

Lemma depth_from_app d a b :
  depth_from d (a ++ b) = depth_from (depth_from d a) b.
Proof. apply fold_left_app. Qed.

Lemma count_paren_shift d c : count_paren d c = (d + count_paren 0 c)%Z.
Proof.
  unfold count_paren.
  destruct (Ascii.eqb c lparen); [lia|]. destruct (Ascii.eqb c rparen); lia.
Qed.

Lemma depth_from_shift d s : depth_from d s = (d + depth s)%Z.
Proof.
  unfold depth. revert d; induction s as [|c s IH]; intros d; simpl; [lia|].
  rewrite IH, (IH (count_paren 0 c)), (count_paren_shift d c). lia.
Qed.

Lemma depth_app a b : depth (a ++ b) = (depth a + depth b)%Z.
Proof.
  unfold depth at 1. rewrite depth_from_app, depth_from_shift. reflexivity.
Qed.

Lemma depth_count s :
  depth s = (Z.of_nat (count_occ ascii_dec s lparen)
             - Z.of_nat (count_occ ascii_dec s rparen))%Z.
Proof.
  induction s as [|c s IH]; [reflexivity|].
  change (c :: s) with ([c] ++ s). rewrite depth_app, IH.
  change ([c] ++ s) with (c :: s). cbn [count_occ].
  unfold depth, depth_from; cbn [fold_left]. unfold count_paren.
  destruct (Ascii.eqb_spec c lparen) as [->|Hl].
  - destruct (ascii_dec lparen lparen); [|congruence].
    destruct (ascii_dec lparen rparen); [discriminate|]. lia.
  - destruct (ascii_dec c lparen); [congruence|].
    destruct (Ascii.eqb_spec c rparen) as [->|Hr].
    + destruct (ascii_dec rparen rparen); [|congruence]. lia.
    + destruct (ascii_dec c rparen); [congruence|]. lia.
Qed.

(** What [match_end] returns, in terms of the depth of prefixes. *)
Lemma match_end_some rest i d e :
  match_end rest i d = Some e ->
  exists k, e = i + k /\ k < length rest /\
    depth_from d (firstn (S k) rest) = 0%Z /\
    forall j, 0 < j <= k -> depth_from d (firstn j rest) <> 0%Z.
Proof.
  revert i d; induction rest as [|c rest IH]; intros i d; cbn [match_end];
    [discriminate|].
  destruct (Z.eqb_spec (count_paren d c) 0) as [Hz|Hz].
  - intros [= <-]. exists 0. simpl. repeat split; try lia.
  - intros H. apply IH in H. destruct H as (k & -> & Hk & Hd & Hj).
    exists (S k). split; [lia|]. split; [simpl; lia|]. split; [exact Hd|].
    intros [|j] Hr; [lia|]. simpl.
    destruct j as [|j]; [exact Hz|]. apply Hj. lia.
Qed.

Lemma match_end_none rest i d :
  match_end rest i d = None <->
  forall j, 0 < j <= length rest -> depth_from d (firstn j rest) <> 0%Z.
Proof.
  revert i d; induction rest as [|c rest IH]; intros i d; cbn [match_end].
  - split; [|reflexivity]. intros _ j Hj. simpl in Hj. lia.
  - destruct (Z.eqb_spec (count_paren d c) 0) as [Hz|Hz].
    + split; [discriminate|]. intros H. exfalso.
      apply (H 1); simpl; [lia|exact Hz].
    + rewrite IH. split.
      * intros H [|j] Hr; [lia|]. simpl.
        destruct j as [|j]; [exact Hz|]. apply H. simpl in Hr. lia.
      * intros H j Hr. apply (H (S j)). simpl. lia.
Qed.

(** When the text starts with a block whose depth first returns to zero
    at its last character, [match_end] stops there. *)
Lemma match_end_block b rest i d :
  b <> [] ->
  depth_from d b = 0%Z ->
  (forall j, 0 < j < length b -> depth_from d (firstn j b) <> 0%Z) ->
  match_end (b ++ rest) i d = Some (i + length b - 1).
Proof.
  revert i d; induction b as [|c b IH]; intros i d Hne Hd Hj; [congruence|].
  cbn [app match_end]. destruct b as [|c' b].
  - simpl in Hd. rewrite Hd. simpl. f_equal. lia.
  - destruct (Z.eqb_spec (count_paren d c) 0) as [Hz|Hz].
    + exfalso. apply (Hj 1); simpl; [lia|exact Hz].
    + rewrite IH; [f_equal; simpl; lia|discriminate|exact Hd|].
      intros j Hr. apply (Hj (S j)). simpl in *. lia.
Qed.

(** *** Occurrences of a token *)

Lemma startswith_refl s : startswith s s = true.
Proof. induction s as [|c s IH]; simpl; [reflexivity|]. now rewrite Ascii.eqb_refl. Qed.

Lemma startswith_app s r sub :
  startswith s sub = true -> startswith (s ++ r) sub = true.
Proof.
  revert s; induction sub as [|a sub IH]; intros [|b s]; simpl; intros H;
    try reflexivity; try discriminate.
  apply andb_true_iff in H. destruct H as [-> H]. simpl. now apply IH.
Qed.

Lemma startswith_prefix s sub :
  startswith s sub = true -> firstn (length sub) s = sub.
Proof.
  revert s; induction sub as [|a sub IH]; intros [|b s]; simpl; intros H;
    try reflexivity; try discriminate.
  apply andb_true_iff in H. destruct H as [E H]. apply Ascii.eqb_eq in E.
  subst. f_equal. now apply IH.
Qed.

Lemma startswith_firstn s sub n :
  startswith s sub = true -> length sub <= n -> startswith (firstn n s) sub = true.
Proof.
  revert s n; induction sub as [|a sub IH]; intros [|b s] [|n]; simpl; intros H Hn;
    try reflexivity; try discriminate; try lia.
  apply andb_true_iff in H. destruct H as [-> H]. simpl. apply IH; [exact H|lia].
Qed.

Lemma startswith_app_split a r sub :
  startswith (a ++ r) sub = true ->
  startswith a sub = true \/
  exists sub2, sub = a ++ sub2 /\ startswith r sub2 = true.
Proof.
  revert sub; induction a as [|x a IH]; intros sub H.
  - right. exists sub. split; [reflexivity|exact H].
  - destruct sub as [|y sub]; [left; reflexivity|].
    simpl in H. apply andb_true_iff in H. destruct H as [E H].
    apply Ascii.eqb_eq in E. subst y. destruct (IH _ H) as [Hl|(sub2 & -> & Hr)].
    + left. simpl. now rewrite Ascii.eqb_refl.
    + right. exists sub2. split; [reflexivity|exact Hr].
Qed.

Lemma find_from_shift rest sub i :
  find_from rest sub i = option_map (Nat.add i) (find_from rest sub 0).
Proof.
  revert i; induction rest as [|c rest IH]; intros i; cbn [find_from];
    destruct (startswith _ sub); simpl; try reflexivity; try (f_equal; lia).
  rewrite IH, (IH 1). destruct (find_from rest sub 0); simpl; [f_equal; lia|reflexivity].
Qed.

Lemma find_from_hit rest sub i :
  startswith rest sub = true -> find_from rest sub i = Some i.
Proof. intros H. destruct rest; cbn [find_from]; now rewrite H. Qed.

Lemma find_from_startswith rest sub i b :
  find_from rest sub i = Some b ->
  exists k, b = i + k /\ startswith (skipn k rest) sub = true.
Proof.
  revert i; induction rest as [|c rest IH]; intros i; cbn [find_from];
    destruct (startswith _ sub) eqn:E; try discriminate.
  - intros [= <-]. exists 0. split; [lia|exact E].
  - intros [= <-]. exists 0. split; [lia|exact E].
  - intros H. apply IH in H. destruct H as (k & -> & H).
    exists (S k). split; [lia|exact H].
Qed.

Lemma find_from_none rest sub i :
  find_from rest sub i = None ->
  forall j, startswith (skipn j rest) sub = false.
Proof.
  revert i; induction rest as [|c rest IH]; intros i; cbn [find_from];
    destruct (startswith _ sub) eqn:E; try discriminate.
  - intros _ j. now rewrite skipn_nil.
  - intros H [|j]; [exact E|]. simpl. now apply (IH (S i)).
Qed.

Lemma find_from_gap g r sub i :
  (forall j, j < length g -> startswith (skipn j (g ++ r)) sub = false) ->
  find_from (g ++ r) sub i = find_from r sub (i + length g).
Proof.
  revert i; induction g as [|c g IH]; intros i H.
  - simpl. f_equal. lia.
  - cbn [app find_from].
    assert (startswith (c :: g ++ r) sub = false) as -> by (apply (H 0); simpl; lia).
    rewrite IH.
    + f_equal. simpl. lia.
    + intros j Hj. apply (H (S j)). simpl. lia.
Qed.

Lemma index_startswith s sub start b :
  index s sub start = Some b -> startswith (skipn b s) sub = true.
Proof.
  unfold index. destruct (length s <? start); [discriminate|].
  intros H. apply find_from_startswith in H. destruct H as (k & -> & H).
  rewrite skipn_skipn in H. now rewrite Nat.add_comm.
Qed.

Lemma index_app pre doc sub :
  index (pre ++ doc) sub (length pre) = find_from doc sub (length pre).
Proof.
  unfold index. rewrite length_app.
  destruct (Nat.ltb_spec (length pre + length doc) (length pre)); [lia|].
  rewrite skipn_app, skipn_all, Nat.sub_diag. reflexivity.
Qed.

(** An occurrence found by [index] splits the text around it. *)
Lemma index_split s sub start b :
  index s sub start = Some b ->
  s = firstn b s ++ sub ++ skipn (b + length sub) s.
Proof.
  intros H. apply index_startswith in H. apply startswith_prefix in H.
  rewrite <- (firstn_skipn b s) at 1. f_equal.
  rewrite <- (firstn_skipn (length sub) (skipn b s)) at 1. rewrite H. f_equal.
  rewrite skipn_skipn. f_equal. lia.
Qed.

Lemma replace1_same s old : replace1 s old old = s.
Proof.
  unfold replace1. destruct (index s old 0) eqn:E; [|reflexivity].
  symmetry. now apply index_split with (start := 0).
Qed.

(** A gap without the token, followed by the end of the text or by an
    opening parenthesis, holds no start of the token either, provided the
    tag has no opening parenthesis of its own. *)
Lemma gap_skip g r name :
  contains g (lparen :: name) = false ->
  ~ In lparen name ->
  r = [] \/ (exists r', r = lparen :: r') ->
  forall j, j < length g ->
    startswith (skipn j (g ++ r)) (lparen :: name) = false.
Proof.
  unfold contains, index. simpl (length g <? 0). cbn [skipn].
  destruct (find_from g (lparen :: name) 0) eqn:Hf; [discriminate|].
  intros _ Hname Hr j Hj.
  pose proof (find_from_none _ _ _ Hf) as Hnone.
  destruct (startswith (skipn j (g ++ r)) (lparen :: name)) eqn:E; [|reflexivity].
  exfalso. rewrite skipn_app in E.
  replace (j - length g) with 0 in E by lia. cbn [skipn] in E.
  apply startswith_app_split in E. destruct E as [E|(sub2 & Hsub & E)].
  - now rewrite Hnone in E.
  - destruct sub2 as [|y sub2].
    + rewrite app_nil_r in Hsub. specialize (Hnone j).
      rewrite <- Hsub, startswith_refl in Hnone. discriminate.
    + destruct (skipn j g) as [|x t] eqn:Hs.
      * apply (f_equal (@length _)) in Hs. rewrite length_skipn in Hs.
        simpl in Hs. lia.
      * simpl in Hsub. injection Hsub as _ Hn.
        assert (y = lparen) as ->.
        { destruct Hr as [->|(r' & ->)]; [discriminate|].
          simpl in E. apply andb_true_iff in E. destruct E as [E _].
          now apply Ascii.eqb_eq in E. }
        apply Hname. rewrite Hn. apply in_or_app. right. now left.
Qed.

(** *** Spans of the extracted blocks *)

Lemma ordered_spans_weaken lo lo' hi spans :
  lo <= lo' -> ordered_spans lo' hi spans -> ordered_spans lo hi spans.
Proof. destruct spans as [|[a b] rest]; simpl; [trivial|]. intuition lia. Qed.

Lemma depth_cons c s : depth (c :: s) = (count_paren 0 c + depth s)%Z.
Proof. change (c :: s) with ([c] ++ s). now rewrite depth_app. Qed.

Lemma count_paren_range c : (-1 <= count_paren 0 c <= 1)%Z.
Proof.
  unfold count_paren.
  destruct (Ascii.eqb c lparen); [lia|]. destruct (Ascii.eqb c rparen); lia.
Qed.

Lemma depth_step s n :
  (depth (firstn n s) - 1 <= depth (firstn (S n) s) <= depth (firstn n s) + 1)%Z.
Proof.
  revert n; induction s as [|c s IH]; intros n.
  - rewrite !firstn_nil. lia.
  - destruct n as [|n].
    + cbn [firstn]. rewrite depth_cons. change (depth []) with 0%Z.
      pose proof (count_paren_range c). lia.
    + cbn [firstn]. rewrite !depth_cons. specialize (IH n).
      cbn [firstn] in IH. lia.
Qed.

(** Once positive, a depth that never touches zero stays positive. *)
Lemma depth_stays_positive s k :
  (0 < depth (firstn 1 s))%Z ->
  (forall j, 0 < j <= k -> depth (firstn j s) <> 0%Z) ->
  forall n, 0 < n <= k -> (0 < depth (firstn n s))%Z.
Proof.
  intros H1 Hnz n. induction n as [|n IH]; [lia|].
  intros Hn. destruct n as [|n]; [exact H1|].
  pose proof (depth_step s (S n)). pose proof (Hnz (S (S n)) Hn).
  assert (0 < depth (firstn (S n) s))%Z by (apply IH; lia). lia.
Qed.

Lemma match_end_prefix_free token rest k :
  startswith rest token = true ->
  S k < length token ->
  depth (firstn (S k) rest) = 0%Z ->
  (forall j, 0 < j <= k -> depth (firstn j rest) <> 0%Z) ->
  token_closes_early token = true.
Proof.
  intros Hst Hk Hd Hnz.
  assert (Hpre : forall j, j <= length token -> firstn j rest = firstn j token).
  { intros j Hj. apply startswith_prefix in Hst.
    transitivity (firstn j (firstn (length token) rest)); [|now rewrite Hst].
    rewrite firstn_firstn. f_equal. lia. }
  unfold token_closes_early.
  rewrite <- (firstn_skipn (S k) token).
  rewrite (match_end_block (firstn (S k) token)).
  - rewrite length_app, length_firstn, length_skipn.
    apply Nat.ltb_lt. lia.
  - destruct token; simpl in *; [lia|discriminate].
  - unfold depth in Hd. rewrite <- Hpre by lia. exact Hd.
  - intros j Hj. rewrite length_firstn in Hj. rewrite firstn_firstn.
    replace (Nat.min j (S k)) with j by lia.
    rewrite <- Hpre by lia. apply (Hnz j). lia.
Qed.

(** The block found at [block_start] and closed at [i]. *)
Lemma block_at content tag start block_start i :
  index content (lparen :: tag) start = Some block_start ->
  match_end (skipn block_start content) block_start 0 = Some i ->
  extracted_block tag (slice content block_start (i + 1)) /\
  start <= block_start /\ block_start < i + 1 /\ i + 1 <= length content.
Proof.
  intros Hfind Hend.
  pose proof (index_bounds _ _ _ _ Hfind) as Hb.
  pose proof (index_startswith _ _ _ _ Hfind) as Hst.
  pose proof (match_end_bounds _ _ _ _ Hend) as He. rewrite length_skipn in He.
  apply match_end_some in Hend. destruct Hend as (k & -> & Hk & Hd & Hnz).
  split; [|lia].
  unfold slice. replace (block_start + k + 1 - block_start) with (S k) by lia.
  set (rest := skipn block_start content) in *.
  assert (Hopen : exists t, rest = lparen :: t).
  { destruct rest as [|c t]; [discriminate|]. cbn [startswith] in Hst.
    apply andb_true_iff in Hst. destruct Hst as [E _].
    apply Ascii.eqb_eq in E. subst c. now exists t. }
  destruct Hopen as (t & Hrest).
  assert (Hpos : forall n, 0 < n <= k -> (0 < depth (firstn n rest))%Z).
  { apply depth_stays_positive; [|exact Hnz].
    rewrite Hrest. vm_compute. reflexivity. }
  assert (Hlen : length (firstn (S k) rest) = S k) by (rewrite length_firstn; lia).
  constructor.
  - exists (firstn k t). rewrite Hrest. reflexivity.
  - intros Hearly. apply startswith_firstn; [exact Hst|].
    destruct (Nat.le_gt_cases (length (lparen :: tag)) (S k)) as [Hle|Hgt];
      [exact Hle|].
    rewrite (match_end_prefix_free (lparen :: tag) rest k) in Hearly;
      [discriminate|exact Hst|exact Hgt|exact Hd|exact Hnz].
  - pose proof (depth_count (firstn (S k) rest)) as Hc.
    fold (depth (firstn (S k) rest)) in Hd. lia.
  - intros n Hn. rewrite Hlen in Hn. rewrite firstn_firstn.
    replace (Nat.min n (S k)) with n by lia.
    pose proof (depth_count (firstn n rest)) as Hc.
    specialize (Hpos n). lia.
Qed.

(** The loop only appends: what it returns is what it was given, then the
    blocks found from [start_index] on. *)
Lemma parse_loop_acc content tag start_index blocks :
  forall before,
    parse_loop content tag start_index (before ++ blocks) =
    before ++ parse_loop content tag start_index blocks.
Proof.
  funelim (parse_loop content tag start_index blocks); intros before;
    rewrite (parse_loop_eq _ _ _ (before ++ _)); rewrite_turn.
  - reflexivity.
  - rewrite <- app_assoc. auto.
  - auto.
Qed.

Lemma parse_loop_spans content tag start_index blocks :
  exists spans,
    parse_loop content tag start_index blocks
      = blocks ++ map (span_text content) spans /\
    ordered_spans start_index (length content) spans /\
    Forall (extracted_block tag) (map (span_text content) spans).
Proof.
  funelim (parse_loop content tag start_index blocks).
  - exists []. simpl. rewrite app_nil_r. auto.
  - match goal with
    | IH : exists _, _ |- _ => destruct IH as (spans & Heq & Hord & Hall)
    end.
    match goal with
    | Hf : index _ _ _ = Some _, He : match_end _ _ _ = Some _ |- _ =>
        destruct (block_at _ _ _ _ _ Hf He) as (Hblk & Hlo & Hlt & Hhi)
    end.
    exists ((block_start, i + 1) :: spans). simpl. split; [|split].
    + rewrite Heq, <- app_assoc. reflexivity.
    + auto.
    + constructor; [exact Hblk|exact Hall].
  - match goal with
    | IH : exists _, _ |- _ => destruct IH as (spans & Heq & Hord & Hall)
    end.
    match goal with
    | Hf : index _ _ _ = Some _ |- _ => pose proof (index_bounds _ _ _ _ Hf)
    end.
    exists spans. split; [exact Heq|]. split; [|exact Hall].
    eapply ordered_spans_weaken; [|exact Hord]. simpl. lia.
Qed.

(** A tag without a closing parenthesis never closes early. *)
Lemma token_without_rparen tag :
  ~ In rparen tag -> token_closes_early (lparen :: tag) = false.
Proof.
  intros Hno. unfold token_closes_early.
  assert (match_end (lparen :: tag) 0 0 = None) as ->; [|reflexivity].
  apply match_end_none. intros j Hj.
  rewrite depth_from_shift, depth_count.
  destruct j as [|j]; [lia|]. cbn [firstn].
  assert (count_occ ascii_dec (lparen :: firstn j tag) rparen = 0) as ->.
  { apply count_occ_not_In. intros [Hin|Hin]; [discriminate|].
    apply Hno. rewrite <- (firstn_skipn j tag). apply in_or_app. now left. }
  cbn [count_occ]. destruct (ascii_dec lparen lparen); [lia|congruence].
Qed.

(** *** Documents made of gaps and blocks *)

Lemma balanced_from_depth d s :
  balanced_from d s = true ->
  depth_from d s = 0%Z /\
  forall n, 0 < n < length s -> (0 < depth_from d (firstn n s))%Z.
Proof.
  revert d.
  induction s as [|c s IH]; intros d; cbn [balanced_from]; [discriminate|].
  destruct s as [|c' s].
  - intros H. apply Z.eqb_eq in H. split; [exact H|]. simpl. lia.
  - intros H. apply andb_true_iff in H. destruct H as [Hp H].
    apply Z.ltb_lt in Hp. apply IH in H. destruct H as [Hz Hpos].
    split; [exact Hz|]. intros [|n] Hn; [lia|]. cbn [firstn].
    unfold depth_from; cbn [fold_left]. fold (depth_from (count_paren d c)).
    destruct n as [|n]; [exact Hp|]. apply Hpos. simpl in *. lia.
Qed.

Lemma balanced_from_sound s : balanced_from 0 s = true -> balanced_block s.
Proof. apply balanced_from_depth. Qed.

(** The extractor on a document of gaps and well-formed blocks. *)
Lemma parse_loop_document name parts tail :
  ~ In lparen name ->
  Forall (fun p => contains (fst p) (lparen :: name) = false /\
                   startswith (snd p) (lparen :: name) = true /\
                   balanced_block (snd p)) parts ->
  contains tail (lparen :: name) = false ->
  forall before blocks,
    parse_loop (before ++ document parts tail) name (length before) blocks
    = blocks ++ map snd parts.
Proof.
  intros Hname Hparts Htail.
  induction Hparts as [|[g b] rest (Hg & Hb & Hbal) Hrest IH];
    intros before blocks; rewrite parse_loop_eq, index_app.
  - cbn [document map]. unfold contains, index in Htail.
    simpl (length tail <? 0) in Htail. cbn [skipn] in Htail.
    rewrite find_from_shift.
    destruct (find_from tail (lparen :: name) 0); [discriminate|].
    simpl. now rewrite app_nil_r.
  - cbn [document map fst snd] in *.
    assert (Hne : b <> []) by (destruct b; [discriminate|discriminate]).
    rewrite find_from_gap.
    2:{ apply gap_skip; [exact Hg|exact Hname|]. right.
        destruct b as [|c b]; [congruence|]. cbn [startswith] in Hb.
        apply andb_true_iff in Hb. destruct Hb as [E _].
        apply Ascii.eqb_eq in E. subst c. now eexists. }
    rewrite find_from_hit by (now apply startswith_app).
    replace (before ++ g ++ b ++ document rest tail)
      with ((before ++ g) ++ b ++ document rest tail)
      by (now rewrite <- app_assoc).
    rewrite <- (length_app before g).
    rewrite skipn_app, skipn_all, Nat.sub_diag. cbn [skipn app].
    destruct Hbal as [Hz Hpos].
    rewrite match_end_block; [|exact Hne|exact Hz|].
    2:{ intros j Hj. specialize (Hpos j Hj). unfold depth in Hpos. lia. }
    unfold slice. rewrite skipn_app, skipn_all, Nat.sub_diag. cbn [skipn app].
    replace (length (before ++ g) + length b - 1 + 1 - length (before ++ g))
      with (length b)
      by (destruct b; [congruence|simpl; lia]).
    rewrite firstn_app, firstn_all, Nat.sub_diag. cbn [firstn].
    rewrite app_nil_r.
    replace (length (before ++ g) + length b - 1 + 1)
      with (length ((before ++ g) ++ b))
      by (rewrite (length_app _ b); destruct b; [congruence|simpl; lia]).
    replace ((before ++ g) ++ b ++ document rest tail)
      with (((before ++ g) ++ b) ++ document rest tail)
      by (now rewrite <- app_assoc).
    rewrite IH, <- app_assoc. reflexivity.
Qed.

(** The counter of the block found at [block_start] never returns to zero
    exactly when [match_end] runs to the end of the text. *)
Lemma never_closes content block_start :
  (forall j, block_start < j <= length content ->
             depth (slice content block_start j) <> 0%Z) <->
  match_end (skipn block_start content) block_start 0 = None.
Proof.
  rewrite match_end_none, length_skipn. unfold slice. split.
  - intros H j Hj. specialize (H (block_start + j)).
    replace (block_start + j - block_start) with j in H by lia.
    apply H. lia.
  - intros H j Hj. apply (H (j - block_start)). lia.
Qed.

(** ** Regular expressions *)

Lemma star_loop_inv p k rest :
  forall pos m,
    star_loop p k pos rest = Some m -> exists pos' rest', k pos' rest' = Some m.
Proof.
  induction rest as [|c rest IH]; intros pos m; cbn [star_loop].
  - intros H. now exists pos, [].
  - destruct (p c); [|intros H; now exists pos, (c :: rest)].
    destruct (star_loop p k (S pos) rest) as [m'|] eqn:Hs.
    + intros [= <-]. now apply (IH (S pos)).
    + intros H. now exists pos, (c :: rest).
Qed.

(** A match of [r] reaches its continuation with every group of
    [always_sets] set, and no group unset. *)
Lemma rmatch_inv r :
  forall k pos rest cs m,
    rmatch r k pos rest cs = Some m ->
    exists pos' rest' cs',
      k pos' rest' cs' = Some m /\
      (forall n, cs n <> None -> cs' n <> None) /\
      (forall n, always_sets r n = true -> cs' n <> None).
Proof.
  induction r as [|p|p|r1 IH1 r2 IH2|r IH|g r IH]; intros k pos rest cs m;
    cbn [rmatch always_sets].
  - intros H. exists pos, rest, cs. repeat split; [exact H|auto|discriminate].
  - destruct rest as [|c rest]; [discriminate|].
    destruct (p c); [|discriminate].
    intros H. exists (S pos), rest, cs. repeat split; [exact H|auto|discriminate].
  - intros H. apply star_loop_inv in H. destruct H as (pos' & rest' & H).
    exists pos', rest', cs. repeat split; [exact H|auto|discriminate].
  - intros H. apply IH1 in H. destruct H as (pos1 & rest1 & cs1 & H & Hm1 & Hs1).
    apply IH2 in H. destruct H as (pos2 & rest2 & cs2 & H & Hm2 & Hs2).
    exists pos2, rest2, cs2. repeat split; [exact H|auto|].
    intros n Hn. apply orb_true_iff in Hn. destruct Hn as [Hn|Hn]; auto.
  - destruct (rmatch r k pos rest cs) as [m'|] eqn:Hr.
    + intros [= <-]. apply IH in Hr.
      destruct Hr as (pos' & rest' & cs' & H & Hm & _).
      exists pos', rest', cs'. repeat split; [exact H|auto|discriminate].
    + intros H. exists pos, rest, cs. repeat split; [exact H|auto|discriminate].
  - intros H. apply IH in H. destruct H as (pos' & rest' & cs' & H & Hm & Hs).
    exists pos', rest', (set_capture g (pos, pos') cs').
    repeat split; [exact H| |].
    + intros n Hn. unfold set_capture. destruct (n =? g); [discriminate|auto].
    + intros n Hn. unfold set_capture. destruct (Nat.eqb_spec n g) as [->|Hne];
        [discriminate|]. apply orb_true_iff in Hn. destruct Hn as [Hn|Hn]; auto.
      apply Nat.eqb_eq in Hn. congruence.
Qed.

Lemma search_from_groups r n rest :
  always_sets r n = true ->
  forall pos m, search_from r pos rest = Some m -> m_groups m n <> None.
Proof.
  intros Hn. induction rest as [|c rest IH]; intros pos m; cbn [search_from];
    destruct (match_at r pos _) as [m'|] eqn:Hm;
    try discriminate; try (now apply IH).
  all: intros [= <-]; unfold match_at in Hm; apply rmatch_inv in Hm;
    destruct Hm as (pos' & rest' & cs' & [= <-] & _ & Hs); now apply Hs.
Qed.

(** A match of the [at] pattern has its two coordinates. *)
Lemma at_re_groups s m :
  re_search at_re s = Some m ->
  exists t1 t2, group s m 1 = Some t1 /\ group s m 2 = Some t2.
Proof.
  intros H. unfold group.
  pose proof (search_from_groups at_re 1 s eq_refl 0 m H) as H1.
  pose proof (search_from_groups at_re 2 s eq_refl 0 m H) as H2.
  destruct (m_groups m 1); [|congruence]. destruct (m_groups m 2); [|congruence].
  now eexists _, _.
Qed.

Lemma firstn_leading p s : firstn (length (leading p s)) s = leading p s.
Proof.
  induction s as [|c s IH]; cbn [leading]; [reflexivity|].
  destruct (p c); [|reflexivity]. cbn [length firstn]. now rewrite IH.
Qed.

(** With a continuation that accepts, the greedy repetition takes the
    whole run. *)
Lemma star_loop_final p start cs rest :
  forall pos,
    star_loop p (fun pos' _ =>
                   Some {| m_start := start; m_end := pos'; m_groups := cs |})
      pos rest
    = Some {| m_start := start; m_end := pos + length (leading p rest);
              m_groups := cs |}.
Proof.
  induction rest as [|c rest IH]; intros pos; cbn [star_loop leading].
  - cbn [length]. now rewrite Nat.add_0_r.
  - destruct (p c).
    + rewrite IH. cbn [length]. do 2 f_equal. lia.
    + cbn [length]. now rewrite Nat.add_0_r.
Qed.

Lemma search_digits rest :
  forall pos,
    match search_from digits_re pos rest with
    | Some m =>
        exists k d,
          first_digit_run rest = Some d /\
          m_start m = pos + k /\ m_end m = pos + k + length d /\
          firstn (length d) (skipn k rest) = d
    | None => first_digit_run rest = None
    end.
Proof.
  induction rest as [|c rest IH]; intros pos.
  - reflexivity.
  - cbn [search_from first_digit_run].
    assert (Hm : match_at digits_re pos (c :: rest)
                 = if is_digit c
                   then Some {| m_start := pos;
                                m_end := S pos + length (leading is_digit rest);
                                m_groups := no_captures |}
                   else None).
    { unfold match_at, digits_re, Plus. cbn [rmatch].
      destruct (is_digit c); [apply star_loop_final|reflexivity]. }
    rewrite Hm. destruct (is_digit c).
    + exists 0, (c :: leading is_digit rest).
      cbn [m_start m_end length skipn firstn]. rewrite firstn_leading.
      repeat split; try reflexivity; lia.
    + specialize (IH (S pos)).
      destruct (search_from digits_re (S pos) rest) as [m|]; [|exact IH].
      destruct IH as (k & d & Hd & Hs & He & Hf).
      exists (S k), d. cbn [skipn]. repeat split; try assumption; lia.
Qed.

Lemma no_at_match_record footprint_str :
  re_search at_re footprint_str = None ->
  exists c,
    get_footprint_details footprint_str = Ok c /\
    Component.at_string c = None /\ Component.x c = None /\
    Component.y c = None /\ Component.rotation c = None.
Proof.
  intros H. unfold get_footprint_details. rewrite H.
  cbn [fst snd float_or_none bind]. eexists. split; [reflexivity|].
  cbn. auto.
Qed.

(** *** The matcher is sound *)

Lemma star_loop_sound p k rest :
  forall pos m,
    star_loop p k pos rest = Some m ->
    exists consumed rest',
      rest = consumed ++ rest' /\ matches (Star p) consumed /\
      k (pos + length consumed) rest' = Some m.
Proof.
  induction rest as [|c rest IH]; intros pos m; cbn [star_loop].
  - intros H. exists [], []. rewrite Nat.add_0_r. repeat split; [constructor|exact H].
  - assert (Hstop : k pos (c :: rest) = Some m ->
                    exists consumed rest',
                      c :: rest = consumed ++ rest' /\ matches (Star p) consumed /\
                      k (pos + length consumed) rest' = Some m).
    { intros H. exists [], (c :: rest). rewrite Nat.add_0_r.
      repeat split; [constructor|exact H]. }
    destruct (p c) eqn:Hp; [|exact Hstop].
    destruct (star_loop p k (S pos) rest) as [m'|] eqn:Hs; [|exact Hstop].
    intros [= <-]. apply IH in Hs. destruct Hs as (consumed & rest' & -> & Hm & Hk).
    exists (c :: consumed), rest'. cbn [length app].
    replace (pos + S (length consumed)) with (S pos + length consumed) by lia.
    repeat split; [now constructor|exact Hk].
Qed.

Lemma rmatch_sound r :
  forall k pos rest cs m,
    rmatch r k pos rest cs = Some m ->
    exists consumed rest' cs',
      rest = consumed ++ rest' /\ matches r consumed /\
      k (pos + length consumed) rest' cs' = Some m.
Proof.
  induction r as [|p|p|r1 IH1 r2 IH2|r IH|g r IH]; intros k pos rest cs m;
    cbn [rmatch].
  - intros H. exists [], rest, cs. rewrite Nat.add_0_r.
    repeat split; [constructor|exact H].
  - destruct rest as [|c rest]; [discriminate|].
    destruct (p c) eqn:Hp; [|discriminate].
    intros H. exists [c], rest, cs. cbn [length app].
    replace (pos + 1) with (S pos) by lia.
    repeat split; [now constructor|exact H].
  - intros H. apply star_loop_sound in H.
    destruct H as (consumed & rest' & -> & Hm & Hk).
    now exists consumed, rest', cs.
  - intros H. apply IH1 in H. destruct H as (s1 & rest1 & cs1 & -> & Hm1 & H).
    apply IH2 in H. destruct H as (s2 & rest2 & cs2 & -> & Hm2 & H).
    exists (s1 ++ s2), rest2, cs2. rewrite length_app, <- app_assoc.
    rewrite Nat.add_assoc. repeat split; [now constructor|exact H].
  - destruct (rmatch r k pos rest cs) as [m'|] eqn:Hr.
    + intros [= <-]. apply IH in Hr.
      destruct Hr as (consumed & rest' & cs' & -> & Hm & H).
      exists consumed, rest', cs'. repeat split; [now constructor|exact H].
    + intros H. exists [], rest, cs. rewrite Nat.add_0_r.
      repeat split; [constructor|exact H].
  - intros H. apply IH in H. destruct H as (consumed & rest' & cs' & -> & Hm & H).
    eexists consumed, rest', _. repeat split; [now constructor|exact H].
Qed.

(** What [re.search] finds is a stretch of the text that the pattern
    matches, and [group(0)] is that stretch. *)
Lemma search_from_sound r rest :
  forall pos m,
    search_from r pos rest = Some m ->
    exists skipped consumed rest',
      rest = skipped ++ consumed ++ rest' /\ matches r consumed /\
      m_start m = pos + length skipped /\
      m_end m = pos + length skipped + length consumed.
Proof.
  induction rest as [|c rest IH]; intros pos m; cbn [search_from];
    destruct (match_at r pos _) as [m'|] eqn:Hm.
  1,3: intros [= <-]; unfold match_at in Hm; apply rmatch_sound in Hm;
    destruct Hm as (consumed & rest' & cs' & Hrest & Hmatch & [= <-]);
    exists [], consumed, rest'; cbn [length app m_start m_end];
    rewrite Nat.add_0_r; auto.
  - discriminate.
  - intros H. apply IH in H.
    destruct H as (skipped & consumed & rest' & -> & Hmatch & Hs & He).
    exists (c :: skipped), consumed, rest'. cbn [length app].
    repeat split; [exact Hmatch|lia|lia].
Qed.

Lemma group0_matches r s m :
  re_search r s = Some m -> matches r (group0 s m).
Proof.
  intros H. apply search_from_sound in H.
  destruct H as (skipped & consumed & rest' & -> & Hmatch & Hs & He).
  unfold group0, slice. rewrite Hs, He. cbn [Nat.add].
  replace (length skipped + length consumed - length skipped)
    with (length consumed) by lia.
  rewrite skipn_app, skipn_all, Nat.sub_diag. cbn [skipn app].
  rewrite firstn_app, firstn_all, Nat.sub_diag. cbn [firstn].
  now rewrite app_nil_r.
Qed.

Lemma class_within_spec p q :
  class_within p q = true -> forall c, p c = true -> q c = true.
Proof.
  unfold class_within. rewrite forallb_forall. intros H c Hp.
  specialize (H (nat_of_ascii c)). rewrite ascii_nat_embedding in H.
  rewrite Hp in H. apply H. apply in_seq. pose proof (nat_ascii_bounded c). lia.
Qed.

Lemma matches_classes r q s :
  classes_within r q = true -> matches r s -> Forall (fun c => q c = true) s.
Proof.
  intros Hq Hm. induction Hm; cbn [classes_within] in Hq.
  - constructor.
  - constructor; [|constructor]. now apply (class_within_spec p q).
  - constructor.
  - constructor; [now apply (class_within_spec p q)|auto].
  - apply andb_true_iff in Hq. destruct Hq as [Hq1 Hq2].
    apply Forall_app. split; auto.
  - constructor.
  - auto.
  - auto.
Qed.

Lemma matches_Seqs_app l1 l2 s :
  matches (Seqs (l1 ++ l2)) s ->
  exists s1 s2, s = s1 ++ s2 /\ matches (Seqs l1) s1 /\ matches (Seqs l2) s2.
Proof.
  revert s; induction l1 as [|r l1 IH]; intros s H.
  - exists [], s. repeat split; [constructor|exact H].
  - cbn [app Seqs] in H. inversion H as [| | | |? ? s1 s2 H1 H2| | |]; subst.
    apply IH in H2. destruct H2 as (t1 & t2 & -> & Ht1 & Ht2).
    exists (s1 ++ t1), t2. rewrite app_assoc. repeat split; [|exact Ht2].
    cbn [Seqs]. now constructor.
Qed.

(** The text of a match of the [at] pattern is one parenthesised group. *)
Lemma at_re_paren_group s : matches at_re s -> paren_group s.
Proof.
  intros H.
  change at_re with
    (Seqs ([Cls (is_char lparen)]
           ++ [Str (lit "at"); Plus is_space; Group 1 (Plus is_number_char);
               Plus is_space; Group 2 (Plus is_number_char);
               Opt (Seq (Plus is_space) (Group 3 (Plus is_number_char)))]
           ++ [Cls (is_char rparen)])) in H.
  apply matches_Seqs_app in H. destruct H as (s1 & s23 & -> & H1 & H23).
  apply matches_Seqs_app in H23. destruct H23 as (s2 & s3 & -> & H2 & H3).
  cbn [Seqs] in H1, H3.
  inversion H1 as [| | | |? ? a1 b1 Ha1 Hb1| | |]; subst.
  inversion Ha1 as [|? c1 Hc1| | | | | |]; subst. inversion Hb1; subst.
  inversion H3 as [| | | |? ? a3 b3 Ha3 Hb3| | |]; subst.
  inversion Ha3 as [|? c3 Hc3| | | | | |]; subst. inversion Hb3; subst.
  unfold is_char in Hc1, Hc3. apply Ascii.eqb_eq in Hc1, Hc3. subst c1 c3.
  exists s2. split; [reflexivity|].
  revert H2. apply matches_classes. vm_compute. reflexivity.
Qed.

(** ** The sort *)

Section StableSort.

Context {A : Type}.

Implicit Types (l : list (Z * A)) (k : Z) (a : A).

Lemma insert_by_key_perm k a l :
  Permutation (insert_by_key k a l) ((k, a) :: l).
Proof.
  induction l as [|[k' a'] l IH]; cbn [insert_by_key]; [reflexivity|].
  destruct (k <=? k')%Z; [reflexivity|].
  rewrite IH. apply perm_swap.
Qed.

Lemma sorted_by_key_perm l : Permutation (sorted_by_key l) l.
Proof.
  induction l as [|[k a] l IH]; cbn [sorted_by_key]; [reflexivity|].
  rewrite insert_by_key_perm. now constructor.
Qed.

Lemma insert_by_key_sorted k a l :
  StronglySorted key_le l -> StronglySorted key_le (insert_by_key k a l).
Proof.
  induction 1 as [|[k' a'] l Hl IH Hall]; cbn [insert_by_key].
  - repeat constructor.
  - destruct (Z.leb_spec k k') as [Hle|Hgt].
    + constructor; [now constructor|]. constructor; [exact Hle|].
      eapply Forall_impl; [|exact Hall]. unfold key_le. cbn [fst].
      intros p Hp. lia.
    + constructor; [exact IH|].
      eapply Permutation_Forall.
      * symmetry. apply insert_by_key_perm.
      * constructor; [unfold key_le; cbn [fst]; lia|exact Hall].
Qed.

Lemma sorted_by_key_sorted l : StronglySorted key_le (sorted_by_key l).
Proof.
  induction l as [|[k a] l IH]; cbn [sorted_by_key]; [constructor|].
  now apply insert_by_key_sorted.
Qed.

(** Stability: the elements of one key keep their order. *)
Lemma insert_by_key_stable k0 k a l :
  filter (has_key k0) (insert_by_key k a l) = filter (has_key k0) ((k, a) :: l).
Proof.
  induction l as [|[k' a'] l IH]; cbn [insert_by_key]; [reflexivity|].
  destruct (Z.leb_spec k k') as [Hle|Hgt]; [reflexivity|].
  cbn [filter] in *. rewrite IH. unfold has_key. cbn [fst].
  destruct (Z.eqb_spec k' k0), (Z.eqb_spec k k0); try reflexivity. lia.
Qed.

Lemma sorted_by_key_stable k0 l :
  filter (has_key k0) (sorted_by_key l) = filter (has_key k0) l.
Proof.
  induction l as [|[k a] l IH]; cbn [sorted_by_key]; [reflexivity|].
  rewrite insert_by_key_stable. cbn [filter]. now rewrite IH.
Qed.

End StableSort.

Lemma map_result_total {A B : Type} (f : A -> result B) (g : A -> B) l :
  (forall a, In a l -> f a = Ok (g a)) -> map_result f l = Ok (map g l).
Proof.
  induction l as [|a l IH]; intros H; [reflexivity|].
  cbn [map_result map]. rewrite (H a) by now left. cbn [bind].
  rewrite IH; [reflexivity|]. intros b Hb. apply H. now right.
Qed.

Lemma combine_map_self {A B : Type} (g : A -> B) (l : list A) :
  combine (map g l) l = map (fun a => (g a, a)) l.
Proof. induction l as [|a l IH]; cbn [map combine]; [reflexivity|]. now rewrite IH. Qed.

Lemma map_result_length {A B : Type} (f : A -> result B) l bs :
  map_result f l = Ok bs -> length bs = length l.
Proof.
  revert bs; induction l as [|a l IH]; intros bs; cbn [map_result].
  - now intros [= <-].
  - destruct (f a); cbn [bind]; [|discriminate].
    destruct (map_result f l) as [bs'|]; cbn [bind]; [|discriminate].
    intros [= <-]. cbn [length]. now rewrite (IH bs').
Qed.

Lemma map_result_all {A B : Type} (f : A -> result B) l bs :
  map_result f l = Ok bs -> forall a, In a l -> exists b, f a = Ok b.
Proof.
  revert bs; induction l as [|a l IH]; intros bs; cbn [map_result];
    [contradiction|].
  destruct (f a) as [b|] eqn:Hf; cbn [bind]; [|discriminate].
  destruct (map_result f l) as [bs'|]; cbn [bind]; [|discriminate].
  intros _ a' [<-|Hin]; [now exists b|]. now apply (IH bs').
Qed.

Lemma map_snd_combine {A B : Type} (ks : list B) (l : list A) :
  length ks = length l -> map snd (combine ks l) = l.
Proof.
  revert l; induction ks as [|k ks IH]; intros [|a l]; cbn; try discriminate;
    [reflexivity|].
  intros [= H]. now rewrite IH.
Qed.

(** What [sorted] returns when the key is defined on every element. *)
Lemma sorted_spec {A : Type} (l : list A) (key : A -> result Z) (num : A -> Z) :
  (forall a, In a l -> key a = Ok (num a)) ->
  exists res,
    sorted l key = Ok res /\
    Permutation res l /\
    StronglySorted (fun a b => (num a <= num b)%Z) res /\
    forall k, filter (fun a => (num a =? k)%Z) res
              = filter (fun a => (num a =? k)%Z) l.
Proof.
  intros Hkey. unfold sorted. rewrite (map_result_total key num l Hkey).
  cbn [bind]. rewrite combine_map_self.
  set (dec := map (fun a => (num a, a)) l).
  set (srt := sorted_by_key dec).
  assert (Hperm : Permutation srt dec) by apply sorted_by_key_perm.
  assert (Hdec : Forall (fun p => fst p = num (snd p)) srt).
  { eapply Permutation_Forall; [symmetry; exact Hperm|].
    subst dec. apply Forall_map, Forall_forall. reflexivity. }
  assert (Hsnd : map snd dec = l).
  { subst dec. rewrite map_map. cbn [snd]. apply map_id. }
  exists (map snd srt). split; [reflexivity|]. split; [|split].
  - apply (Permutation_map snd) in Hperm. now rewrite Hsnd in Hperm.
  - assert (Hmap : forall s, Forall (fun p => fst p = num (snd p)) s ->
              StronglySorted key_le s ->
              StronglySorted (fun a b => (num a <= num b)%Z) (map snd s)).
    { intros s Hd Hs. induction Hs as [|p s Hs IH Hall]; cbn [map]; [constructor|].
      apply Forall_cons_iff in Hd. destruct Hd as [Hp Hrest].
      constructor; [now apply IH|].
      apply Forall_map. apply Forall_forall. intros q Hq.
      rewrite Forall_forall in Hall, Hrest. specialize (Hall q Hq).
      specialize (Hrest q Hq). unfold key_le in Hall. lia. }
    apply Hmap; [exact Hdec|apply sorted_by_key_sorted].
  - intros k.
    assert (Hfilter : forall s, Forall (fun p => fst p = num (snd p)) s ->
              filter (fun a => (num a =? k)%Z) (map snd s)
              = map snd (filter (has_key k) s)).
    { induction s as [|p s IH]; intros Hs; [reflexivity|].
      apply Forall_cons_iff in Hs. destruct Hs as [Hp Hrest]. cbn [map filter].
      unfold has_key at 1. rewrite Hp, IH by assumption.
      destruct (num (snd p) =? k)%Z; reflexivity. }
    rewrite Hfilter by assumption. unfold srt.
    rewrite sorted_by_key_stable. rewrite <- Hfilter.
    + now rewrite Hsnd.
    + subst dec. apply Forall_map, Forall_forall. reflexivity.
Qed.

Lemma sorted_perm {A : Type} (l : list A) key res :
  sorted l key = Ok res -> Permutation res l.
Proof.
  unfold sorted. destruct (map_result key l) as [keys|] eqn:Hk; cbn [bind];
    [|discriminate].
  intros [= <-]. apply map_result_length in Hk.
  rewrite <- (map_snd_combine keys l Hk) at 2.
  apply Permutation_map, sorted_by_key_perm.
Qed.

Lemma sort_key_spec c r :
  Component.reference c = Some r ->
  sort_key c = match first_digit_run r with
               | Some d =>
                   match Py.int_of_str d with
                   | Some n => Ok n
                   | None => Raise ValueError
                   end
               | None => Raise AttributeError
               end.
Proof.
  intros Hr. unfold sort_key, re_search. rewrite Hr.
  pose proof (search_digits r 0) as H.
  destruct (search_from digits_re 0 r) as [m|]; [|now rewrite H].
  destruct H as (k & d & -> & Hs & He & Hf).
  unfold group0, slice. rewrite Hs, He. cbn [Nat.add].
  replace (k + length d - k) with (length d) by lia. now rewrite Hf.
Qed.

Lemma first_digit_run_nonempty r : first_digit_run r <> None -> r <> [].
Proof. destruct r; [intros H; now contradict H|discriminate]. Qed.

(** Every record of a group that [sort_components] returns comes from the
    list, has a reference that starts with the prefix, and a number in
    it. *)
Lemma sort_components_group components prefix group c :
  sort_components components prefix = Ok group ->
  In c group ->
  In c components /\
  exists r, Component.reference c = Some r /\ r <> [] /\
            startswith r prefix = true /\ first_digit_run r <> None.
Proof.
  unfold sort_components. intros Hs Hin.
  pose proof (sorted_perm _ _ _ Hs) as Hperm.
  apply (Permutation_in _ Hperm) in Hin. apply filter_In in Hin.
  destruct Hin as [Hin Hp]. split; [exact Hin|].
  unfold has_prefix in Hp. destruct (Component.reference c) as [r|] eqn:Hr;
    [|discriminate].
  apply andb_true_iff in Hp. destruct Hp as [Ht Hp].
  exists r. split; [reflexivity|]. split; [destruct r; [discriminate|discriminate]|].
  split; [exact Hp|].
  unfold sorted in Hs.
  destruct (map_result sort_key (filter (has_prefix prefix) components))
    as [keys|] eqn:Hk; cbn [bind] in Hs; [|discriminate].
  destruct (map_result_all _ _ _ Hk c) as (k & Hkey).
  - apply filter_In. split; [exact Hin|]. unfold has_prefix. rewrite Hr.
    now rewrite Ht, Hp.
  - rewrite (sort_key_spec c r Hr) in Hkey.
    destruct (first_digit_run r); [discriminate|discriminate].
Qed.

(** ** The substitutions and the two loops *)

Lemma guarded_substitute_frame cs c new_at_str content :
  In c cs ->
  inserted (lit "    " ++ new_at_str) ->
  guarded_substitute c new_at_str content = content \/
  field_replaced cs content (guarded_substitute c new_at_str content).
Proof.
  intros Hin Hnew. unfold guarded_substitute, can_replace, substitute.
  destruct (Component.at_string c) as [anchor|] eqn:Hat; [|left; reflexivity].
  destruct (truthy (Some anchor)); [|left; reflexivity]. cbn [andb].
  unfold contains.
  destruct (index content (Component.original_string c) 0) as [p|] eqn:Hp;
    [|left; reflexivity].
  destruct (index (Component.original_string c) anchor 0) as [q|] eqn:Hq.
  - right. unfold replace1 at 2. rewrite Hq. unfold replace1. rewrite Hp.
    pose proof (index_split _ _ _ _ Hp) as Hc.
    pose proof (index_split _ _ _ _ Hq) as Ho.
    set (pre := firstn p content) in *.
    set (post := skipn (p + length (Component.original_string c)) content) in *.
    set (bpre := firstn q (Component.original_string c)) in *.
    set (bpost := skipn (q + length anchor) (Component.original_string c)) in *.
    assert (Hlp : length pre = p).
    { subst pre. rewrite length_firstn.
      apply index_bounds in Hp. lia. }
    assert (Hlq : length bpre = q).
    { subst bpre. rewrite length_firstn.
      apply index_bounds in Hq. lia. }
    assert (Hdoc : content = pre ++ bpre ++ anchor ++ bpost ++ post).
    { rewrite Hc at 1. rewrite Ho at 1. now rewrite <- !app_assoc. }
    replace (pre ++ (bpre ++ (lit "    " ++ new_at_str) ++ bpost) ++ post)
      with (pre ++ bpre ++ (lit "    " ++ new_at_str) ++ bpost ++ post)
      by (now rewrite <- !app_assoc).
    rewrite Hdoc at 1.
    apply field_replaced_intro with (c := c); auto.
    + now rewrite Hlq.
    + rewrite <- Hdoc, Hlp. exact Hp.
  - left. unfold replace1 at 2. rewrite Hq. apply replace1_same.
Qed.

Lemma display_at_str_spec i display :
  display_at_str i display = spec_display_at i display.
Proof.
  unfold display_at_str, spec_display_at, at_text, new_display_x, new_display_y.
  destruct (Component.rotation display); reflexivity.
Qed.

Lemma resistor_at_str_spec i slot :
  resistor_at_str i slot = spec_resistor_at i slot.
Proof. destruct slot as [[dx dy] rot]. reflexivity. Qed.

Lemma place_display_content i display st :
  modified_content (place_display i display st)
  = guarded_substitute display (spec_display_at i display) (modified_content st).
Proof.
  unfold place_display, guarded_substitute. rewrite display_at_str_spec.
  destruct (can_replace display (modified_content st)); reflexivity.
Qed.

Lemma skipn_nth_error {A : Type} (l : list A) j a :
  nth_error l j = Some a -> skipn j l = a :: skipn (S j) l.
Proof.
  revert j; induction l as [|b l IH]; intros [|j]; simpl; try discriminate.
  - now intros [= ->].
  - apply IH.
Qed.

Lemma resistor_loop_content i current :
  forall j st,
    modified_content (resistor_loop i j current st)
    = apply_placements
        (map (fun q => (fst q, spec_resistor_at i (snd q)))
           (combine current (skipn j resistor_relative_coords)))
        (modified_content st).
Proof.
  induction current as [|r rest IH]; intros j st; [reflexivity|].
  cbn [resistor_loop]. rewrite IH. unfold place_resistor.
  destruct (Nat.leb_spec (length resistor_relative_coords) j) as [Hj|Hj].
  - rewrite !skipn_all2 by lia. destruct rest; reflexivity.
  - destruct (nth_error resistor_relative_coords j) as [slot|] eqn:Hn.
    + rewrite (skipn_nth_error _ _ _ Hn). cbn [combine map apply_placements fold_left fst snd].
      unfold guarded_substitute at 2. rewrite resistor_at_str_spec.
      destruct (can_replace r (modified_content st)); reflexivity.
    + apply nth_error_None in Hn. lia.
Qed.

Lemma display_loop_content displays resistors :
  forall i st,
    modified_content (display_loop i displays resistors st)
    = apply_placements (placements_from i displays resistors) (modified_content st).
Proof.
  induction displays as [|d rest IH]; intros i st; [reflexivity|].
  cbn [display_loop]. rewrite IH, resistor_loop_content, place_display_content.
  unfold placements_from. cbn [length seq combine flat_map].
  unfold apply_placements. rewrite fold_left_app. unfold spec_turn at 2.
  cbn [fst snd fold_left]. unfold current_display_resistors.
  replace (i * 15 + 15 - i * 15) with 15 by lia.
  replace (i * 15) with (15 * i) by lia. reflexivity.
Qed.

Lemma In_firstn {A : Type} (a : A) n l : In a (firstn n l) -> In a l.
Proof.
  intros H. rewrite <- (firstn_skipn n l). apply in_or_app. now left.
Qed.

Lemma In_skipn {A : Type} (a : A) n l : In a (skipn n l) -> In a l.
Proof.
  intros H. rewrite <- (firstn_skipn n l). apply in_or_app. now right.
Qed.

Lemma placements_from_records i displays resistors p :
  In p (placements_from i displays resistors) ->
  In (fst p) (displays ++ resistors).
Proof.
  unfold placements_from. intros H. apply in_flat_map in H.
  destruct H as ([k d] & Hkd & Hp). apply in_combine_r in Hkd.
  unfold spec_turn in Hp. cbn [fst snd] in Hp. destruct Hp as [<-|Hp].
  - apply in_or_app. now left.
  - apply in_map_iff in Hp. destruct Hp as ([r slot] & <- & Hr).
    apply in_combine_l in Hr. apply In_firstn, In_skipn in Hr.
    apply in_or_app. now right.
Qed.

Lemma apply_placements_frame cs (l : list (Component.t * pystr)) :
  (forall p, In p l -> In (fst p) cs /\ inserted (lit "    " ++ snd p)) ->
  forall content, fields_replaced cs content (apply_placements l content).
Proof.
  induction l as [|p l IH]; intros Hin content; [constructor|].
  cbn [apply_placements fold_left].
  destruct (Hin p (or_introl eq_refl)) as [Hc Hi].
  destruct (guarded_substitute_frame cs (fst p) (snd p) content Hc Hi) as [Heq|Hstep].
  - rewrite Heq. apply IH. intros q Hq. apply Hin. now right.
  - eapply fields_step; [exact Hstep|]. apply IH.
    intros q Hq. apply Hin. now right.
Qed.

Lemma In_combine_seq {A : Type} (l : list A) :
  forall s i a, nth_error l i = Some a -> In (s + i, a) (combine (seq s (length l)) l).
Proof.
  induction l as [|b l IH]; intros s [|i] a; cbn [nth_error length seq combine];
    try discriminate.
  - intros [= ->]. left. f_equal. lia.
  - intros H. right. replace (s + S i) with (S s + i) by lia. now apply IH.
Qed.

Lemma In_combine_nth {A B : Type} (l : list A) (l' : list B) :
  forall j a b,
    nth_error l j = Some a -> nth_error l' j = Some b -> In (a, b) (combine l l').
Proof.
  revert l'; induction l as [|x l IH]; intros [|y l'] [|j] a b;
    cbn [nth_error combine]; try discriminate.
  - intros [= ->] [= ->]. now left.
  - intros Ha Hb. right. now apply (IH l' j).
Qed.

(** Display [i] is placed at [(start_x + i * spacing, start_y)]. *)
Lemma placements_display displays resistors i display :
  nth_error displays i = Some display ->
  In (display, spec_display_at i display) (placements displays resistors).
Proof.
  intros H. unfold placements, placements_from. apply in_flat_map.
  exists (i, display). split; [apply (In_combine_seq displays 0 i display H)|].
  now left.
Qed.

(** Resistor [j] of the slice of display [i], that is resistor
    [15 * i + j] of the sorted resistors, is placed by slot [j] of the
    table. *)
Lemma placements_resistor displays resistors i j display resistor slot :
  nth_error displays i = Some display ->
  j < 15 ->
  nth_error resistors (15 * i + j) = Some resistor ->
  nth_error resistor_relative_coords j = Some slot ->
  In (resistor, spec_resistor_at i slot) (placements displays resistors).
Proof.
  intros Hd Hj Hr Hs. unfold placements, placements_from. apply in_flat_map.
  exists (i, display). split; [apply (In_combine_seq displays 0 i display Hd)|].
  right. cbn [fst snd]. apply in_map_iff. exists (resistor, slot).
  split; [reflexivity|]. apply (In_combine_nth _ _ j); [|exact Hs].
  rewrite nth_error_firstn. destruct (Nat.ltb_spec j 15); [|lia].
  now rewrite nth_error_skipn.
Qed.

Lemma display_loop_app before display after resistors :
  forall i st,
    display_loop i (before ++ display :: after) resistors st
    = display_loop (S (i + length before)) after resistors
        (resistor_loop (i + length before) 0
           (current_display_resistors (i + length before) resistors)
           (place_display (i + length before) display
              (display_loop i before resistors st))).
Proof.
  induction before as [|d before IH]; intros i st.
  - cbn [app length display_loop]. now rewrite Nat.add_0_r.
  - cbn [app length display_loop]. rewrite IH.
    replace (S i + length before) with (i + S (length before)) by lia.
    reflexivity.
Qed.

Lemma resistor_loop_printed i current :
  forall j st,
    j + length current <= length resistor_relative_coords ->
    printed (resistor_loop i j current st) = printed st.
Proof.
  induction current as [|r rest IH]; intros j st Hlen; [reflexivity|].
  cbn [resistor_loop length] in *. rewrite IH by lia. unfold place_resistor.
  destruct (Nat.leb_spec (length resistor_relative_coords) j); [lia|].
  destruct (nth_error resistor_relative_coords j); [|reflexivity].
  destruct (can_replace r (modified_content st)); reflexivity.
Qed.

Lemma place_resistor_no_slot i j resistor st :
  length resistor_relative_coords <= j ->
  place_resistor i j resistor st
  = print (NoCoordinates (Component.reference resistor)) st.
Proof.
  intros Hj. unfold place_resistor.
  destruct (Nat.leb_spec (length resistor_relative_coords) j); [reflexivity|lia].
Qed.

Lemma place_display_printed i display st m :
  In m (printed st) -> In m (printed (place_display i display st)).
Proof.
  unfold place_display. destruct (can_replace display (modified_content st));
    [|auto]. cbn [print printed]. intros H. apply in_or_app. now left.
Qed.

Lemma place_resistor_printed i j resistor st m :
  In m (printed st) -> In m (printed (place_resistor i j resistor st)).
Proof.
  unfold place_resistor. destruct (length resistor_relative_coords <=? j).
  - cbn [print printed]. intros H. apply in_or_app. now left.
  - destruct (nth_error resistor_relative_coords j); [|auto].
    destruct (can_replace resistor (modified_content st)); auto.
Qed.

Lemma resistor_loop_keeps i current m :
  forall j st, In m (printed st) -> In m (printed (resistor_loop i j current st)).
Proof.
  induction current as [|r rest IH]; intros j st H; [exact H|].
  cbn [resistor_loop]. now apply IH, place_resistor_printed.
Qed.

Lemma display_loop_keeps displays resistors m :
  forall i st, In m (printed st) -> In m (printed (display_loop i displays resistors st)).
Proof.
  induction displays as [|d rest IH]; intros i st H; [exact H|].
  cbn [display_loop]. now apply IH, resistor_loop_keeps, place_display_printed.
Qed.

(** ** The characters outside the position fields *)

Lemma edited_refl cs s : edited cs s s.
Proof. induction s; now constructor. Qed.

(** Without a record nothing is replaced. *)
Lemma edited_nil s s' : edited [] s s' -> s = s'.
Proof.
  intros H. induction H as [|ch s s' _ IH|c anchor new s s' Hc _ _ _ _];
    [reflexivity|now rewrite IH|destruct Hc].
Qed.

(** Two texts that agree agree on their first parenthesis. *)
Lemma first_paren sp a r :
  forall sp' a' r',
    sp ++ a :: r = sp' ++ a' :: r' ->
    Forall (fun c => plain c = true) sp -> Forall (fun c => plain c = true) sp' ->
    plain a = false -> plain a' = false ->
    sp = sp' /\ a = a' /\ r = r'.
Proof.
  induction sp as [|x sp IH]; intros [|x' sp'] a' r' Heq Hsp Hsp' Ha Ha';
    cbn [app] in Heq; inversion Heq; subst.
  - auto.
  - apply Forall_inv in Hsp'. congruence.
  - apply Forall_inv in Hsp. congruence.
  - destruct (IH sp' a' r') as (-> & -> & ->); auto.
    + now apply Forall_inv_tail in Hsp.
    + now apply Forall_inv_tail in Hsp'.
Qed.

Lemma edited_cons_inv cs input ch doc :
  edited cs input (ch :: doc) ->
  (exists s, input = ch :: s /\ edited cs s doc) \/
  (exists new s', inserted new /\ new ++ s' = ch :: doc).
Proof.
  intros H. inversion H; subst.
  - left. now eexists.
  - right. eexists _, _. split; [eassumption|reflexivity].
Qed.

(** A stretch without parentheses that ends a group lies outside the
    inserted text: it is kept from the input. *)
Lemma edited_kept_run cs body :
  forall input post,
    Forall (fun c => plain c = true) body ->
    edited cs input (body ++ rparen :: post) ->
    exists input', input = body ++ rparen :: input' /\ edited cs input' post.
Proof.
  induction body as [|b body IH]; intros input post Hbody H; cbn [app] in H;
    apply edited_cons_inv in H;
    destruct H as [(s & -> & Hs)|(new & s' & Hnew & Heq)].
  - now exists s.
  - destruct Hnew as (sp & g & -> & Hsp & body' & -> & Hbody').
    rewrite <- app_assoc in Heq.
    destruct (first_paren sp lparen ((body' ++ [rparen]) ++ s') [] rparen post Heq)
      as (_ & Habs & _); auto; discriminate.
  - apply IH in Hs; [|now apply Forall_inv_tail in Hbody].
    destruct Hs as (input' & -> & Hs). now exists input'.
  - destruct Hnew as (sp & g & -> & Hsp & body' & -> & Hbody').
    rewrite <- app_assoc in Heq.
    destruct (first_paren sp lparen ((body' ++ [rparen]) ++ s') (b :: body)
                rparen post Heq) as (_ & Habs & _); auto; discriminate.
Qed.

(** The only opening parenthesis of inserted text opens its group. *)
Lemma only_lparen sp r :
  forall pre l,
    sp ++ lparen :: r = pre ++ lparen :: l ->
    Forall (fun c => plain c = true) sp ->
    ~ In lparen r ->
    pre = sp /\ l = r.
Proof.
  induction sp as [|x sp IH]; intros [|p pre] l Heq Hsp Hr; cbn [app] in Heq;
    inversion Heq; subst.
  - auto.
  - exfalso. apply Hr. apply in_or_app. right. now left.
  - apply Forall_inv in Hsp. discriminate.
  - destruct (IH pre l) as (-> & ->); auto.
    now apply Forall_inv_tail in Hsp.
Qed.

(** One more field replaced. The group [g] found in the document so far
    is either kept text of the input, and then a field of the input, or
    the group of a text inserted before, which is replaced again. *)
Lemma edited_replace cs c g new post input doc :
  In c cs ->
  Component.at_string c = Some g ->
  paren_group g ->
  inserted new ->
  edited cs input doc ->
  forall pre, doc = pre ++ g ++ post -> edited cs input (pre ++ new ++ post).
Proof.
  intros Hc Hat (body & -> & Hbody) Hnew H.
  induction H as [|ch s s' Hs IH|c0 a0 new0 s s' Hc0 Hat0 Hnew0 Hs IH]; intros pre Heq.
  - destruct pre; discriminate.
  - destruct pre as [|p pre]; cbn [app] in Heq; injection Heq as -> Heq.
    + rewrite <- app_assoc in Heq. cbn [app] in Heq. subst s'.
      apply edited_kept_run in Hs; [|exact Hbody].
      destruct Hs as (input' & -> & Hs). cbn [app].
      replace (lparen :: body ++ rparen :: input')
        with ((lparen :: body ++ [rparen]) ++ input')
        by (cbn [app]; now rewrite <- app_assoc).
      now apply edited_field with (c := c).
    + cbn [app]. constructor. now apply IH.
  - apply app_eq_app in Heq. destruct Heq as (l & [[Hn Hl]|[Hp Hl]]).
    + destruct l as [|x l].
      * rewrite app_nil_r in Hn. subst new0. cbn [app] in Hl.
        apply edited_field with (c := c0); auto.
        apply (IH []). now rewrite <- Hl.
      * cbn [app] in Hl. injection Hl as <- Hl.
        destruct Hnew0 as (sp & g0 & -> & Hsp & body0 & -> & Hbody0).
        destruct (only_lparen sp (body0 ++ [rparen]) pre l Hn Hsp) as (-> & ->).
        { intros Hin. apply in_app_or in Hin. destruct Hin as [Hin|[Hin|[]]].
          - rewrite Forall_forall in Hbody0. apply Hbody0 in Hin. discriminate.
          - discriminate. }
        rewrite <- !app_assoc in Hl. cbn [app] in Hl.
        destruct (first_paren body rparen post body0 rparen s' Hl)
          as (_ & _ & ->); auto.
        rewrite app_assoc. apply edited_field with (c := c0); auto.
        destruct Hnew as (sp' & g' & -> & Hsp' & Hg').
        exists (sp ++ sp'), g'. rewrite app_assoc. repeat split; auto.
        apply Forall_app. now split.
    + subst pre s'. rewrite <- app_assoc.
      apply edited_field with (c := c0); auto.
Qed.

(** The decimal strings have no parenthesis. *)
Lemma digit_char_plain d : (0 <= d < 10)%Z -> plain (Py.digit_char d) = true.
Proof.
  intros H.
  assert (Hd : (d = 0 \/ d = 1 \/ d = 2 \/ d = 3 \/ d = 4 \/ d = 5 \/ d = 6
                \/ d = 7 \/ d = 8 \/ d = 9)%Z) by lia.
  repeat (destruct Hd as [->|Hd]; [reflexivity|]). now subst.
Qed.

Lemma digits_fuel_plain fuel :
  forall n acc,
    Forall (fun c => plain c = true) acc ->
    Forall (fun c => plain c = true) (Py.digits_fuel fuel n acc).
Proof.
  induction fuel as [|fuel IH]; intros n acc Hacc; cbn [Py.digits_fuel]; [exact Hacc|].
  assert (Hd : Forall (fun c => plain c = true) (Py.digit_char (n mod 10) :: acc)).
  { constructor; [|exact Hacc]. apply digit_char_plain. apply Z.mod_pos_bound. lia. }
  destruct (n <? 10)%Z; auto.
Qed.

Lemma digits_of_plain n : Forall (fun c => plain c = true) (Py.digits_of n).
Proof. apply digits_fuel_plain. constructor. Qed.

Lemma str_of_int_plain n : Forall (fun c => plain c = true) (Py.str_of_int n).
Proof.
  unfold Py.str_of_int. destruct (n <? 0)%Z; [constructor; [reflexivity|]|];
    apply digits_of_plain.
Qed.

Lemma repeat_plain ch n :
  plain ch = true -> Forall (fun c => plain c = true) (repeat ch n).
Proof. intros H. apply Forall_forall. intros x Hx. apply repeat_spec in Hx. now subst. Qed.

Lemma zero_pad_plain w s :
  Forall (fun c => plain c = true) s -> Forall (fun c => plain c = true) (Py.zero_pad w s).
Proof.
  intros H. unfold Py.zero_pad. apply Forall_app. split; [|exact H].
  now apply repeat_plain.
Qed.

Lemma firstn_plain n s :
  Forall (fun c => plain c = true) s -> Forall (fun c => plain c = true) (firstn n s).
Proof.
  intros H. rewrite <- (firstn_skipn n s) in H. now apply Forall_app in H.
Qed.

Lemma skipn_plain n s :
  Forall (fun c => plain c = true) s -> Forall (fun c => plain c = true) (skipn n s).
Proof.
  intros H. rewrite <- (firstn_skipn n s) in H. now apply Forall_app in H.
Qed.

Ltac plain_text :=
  repeat first
    [ assumption
    | apply Forall_nil
    | apply digits_of_plain
    | apply str_of_int_plain
    | apply zero_pad_plain
    | apply firstn_plain
    | apply skipn_plain
    | apply repeat_plain; reflexivity
    | apply Forall_cons; [reflexivity|]
    | match goal with
      | H : Forall _ (?a :: _) |- Forall _ (?a :: _) =>
          apply Forall_cons; [exact (Forall_inv H)|]
      | H : Forall _ (_ :: ?l) |- Forall _ ?l => exact (Forall_inv_tail H)
      end
    | apply Forall_app; split ].

Lemma format_4f_plain x : Forall (fun c => plain c = true) (Py.format_4f x).
Proof.
  unfold Py.format_4f. destruct (Prim2SF x) as [s|s| |s m e]; try destruct s;
    cbn [app]; plain_text.
Qed.

Lemma repr_digits_plain m e :
  Forall (fun c => plain c = true) (fst (Py.repr_digits m e)).
Proof.
  unfold Py.repr_digits.
  destruct (Py.shortest_decimal _ _ _ _ _ _ _ _) as [c p].
  destruct (Py.strip_zeros _ _ _) as [c' p']. apply digits_of_plain.
Qed.

Lemma str_of_float_plain x : Forall (fun c => plain c = true) (Py.str_of_float x).
Proof.
  unfold Py.str_of_float. destruct (Prim2SF x) as [s|s| |s m e]; try destruct s;
    cbn [app]; plain_text;
    pose proof (repr_digits_plain m e) as Hds;
    destruct (Py.repr_digits m e) as [ds point]; cbn [fst] in Hds;
    repeat match goal with
           | |- context [if ?b then _ else _] => destruct b
           | |- context [match skipn 1 ds with _ => _ end] =>
               let H := fresh in
               pose proof (skipn_plain 1 ds Hds) as H; destruct (skipn 1 ds)
           end;
    cbn [app lit]; plain_text.
Qed.

(** The new [at] clause after four spaces is inserted text. *)
Lemma at_text_inserted x y rot :
  match rot with
  | Some r => Forall (fun c => plain c = true) r
  | None => True
  end ->
  inserted (lit "    " ++ at_text x y rot).
Proof.
  intros Hrot. exists (lit "    "). eexists. split; [reflexivity|]. split.
  - repeat constructor.
  - exists (lit "at " ++ Py.format_4f x ++ lit " " ++ Py.format_4f y
            ++ match rot with Some r => lit " " ++ r | None => [] end).
    split.
    + unfold at_text. cbn [lit app]. rewrite <- !app_assoc. reflexivity.
    + pose proof (format_4f_plain x). pose proof (format_4f_plain y).
      destruct rot; cbn [lit app]; plain_text.
Qed.

Lemma spec_display_at_inserted i d : inserted (lit "    " ++ spec_display_at i d).
Proof.
  apply at_text_inserted. destruct (Component.rotation d); cbn [option_map]; [|exact I].
  apply str_of_float_plain.
Qed.

Lemma spec_resistor_at_inserted i slot : inserted (lit "    " ++ spec_resistor_at i slot).
Proof. apply at_text_inserted. apply str_of_int_plain. Qed.

Lemma placements_from_inserted i displays resistors p :
  In p (placements_from i displays resistors) ->
  inserted (lit "    " ++ snd p).
Proof.
  unfold placements_from. intros H. apply in_flat_map in H.
  destruct H as ([k d] & _ & Hp). unfold spec_turn in Hp. cbn [fst snd] in Hp.
  destruct Hp as [<-|Hp].
  - apply spec_display_at_inserted.
  - apply in_map_iff in Hp. destruct Hp as ([r slot] & <- & _).
    apply spec_resistor_at_inserted.
Qed.

(** The [at] string of an extracted record is one parenthesised group. *)
Lemma at_string_paren_group footprint_str c anchor :
  get_footprint_details footprint_str = Ok c ->
  Component.at_string c = Some anchor ->
  paren_group anchor.
Proof.
  unfold get_footprint_details.
  destruct (float_or_none _) as [x|]; cbn [bind]; [|discriminate].
  destruct (float_or_none _) as [y|]; cbn [bind]; [|discriminate].
  destruct (float_or_none _) as [rot|]; cbn [bind]; [|discriminate].
  intros [= <-]. cbn [Component.at_string].
  destruct (re_search at_re footprint_str) as [m|] eqn:Hm; [|discriminate].
  intros [= <-]. apply at_re_paren_group. now apply group0_matches.
Qed.

Lemma map_result_In {A B : Type} (f : A -> result B) l bs :
  map_result f l = Ok bs -> forall b, In b bs -> exists a, In a l /\ f a = Ok b.
Proof.
  revert bs; induction l as [|a l IH]; intros bs; cbn [map_result].
  - intros [= <-] b [].
  - destruct (f a) as [b0|] eqn:Hf; cbn [bind]; [|discriminate].
    destruct (map_result f l) as [bs'|]; cbn [bind]; [|discriminate].
    intros [= <-] b [<-|Hin].
    + exists a. split; [now left|exact Hf].
    + destruct (IH bs' eq_refl b Hin) as (a' & Ha' & Hfa'). exists a'. split; [now right|exact Hfa'].
Qed.

Lemma groups_of_paren_group content displays resistors c anchor :
  groups_of content displays resistors ->
  In c (displays ++ resistors) ->
  Component.at_string c = Some anchor ->
  paren_group anchor.
Proof.
  intros (all & Hall & Hd & Hr) Hin Hat.
  assert (Hc : In c all).
  { apply in_app_or in Hin. destruct Hin as [Hin|Hin].
    - apply (sort_components_group _ _ _ _ Hd) in Hin. destruct Hin as [Hin _].
      now apply filter_In in Hin.
    - apply (sort_components_group _ _ _ _ Hr) in Hin. destruct Hin as [Hin _].
      now apply filter_In in Hin. }
  destruct (map_result_In _ _ _ Hall c Hc) as (b & _ & Hb).
  eapply at_string_paren_group; eassumption.
Qed.

(** A sequence of rewritings of position fields leaves every character
    outside the fields it replaced where it was. *)
Lemma field_replaced_edited cs input doc doc' :
  (forall c anchor,
     In c cs -> Component.at_string c = Some anchor -> paren_group anchor) ->
  edited cs input doc ->
  field_replaced cs doc doc' ->
  edited cs input doc'.
Proof.
  intros Hg Hed Hstep.
  destruct Hstep as [c anchor new pre bpre bpost post Hc Hat Hnew _ _ _].
  rewrite app_assoc.
  apply (edited_replace cs c anchor new (bpost ++ post) input
           (pre ++ bpre ++ anchor ++ bpost ++ post) Hc Hat (Hg c anchor Hc Hat) Hnew Hed).
  now rewrite <- app_assoc.
Qed.

Lemma fields_replaced_edited cs input doc doc' :
  (forall c anchor,
     In c cs -> Component.at_string c = Some anchor -> paren_group anchor) ->
  fields_replaced cs doc doc' ->
  edited cs input doc ->
  edited cs input doc'.
Proof.
  intros Hg Hsteps. induction Hsteps as [doc|doc doc' doc'' Hstep _ IH]; intros Hed;
    [exact Hed|].
  apply IH. eapply field_replaced_edited; eassumption.
Qed.

(** ** Runs of [main] *)

(** A run that writes its output file went through the placement loop
    with the two groups of the document. *)
Lemma main_written content out :
  written (main (Some content)) = Some out ->
  exists displays resistors log,
    groups_of content displays resistors /\
    displays <> [] /\
    out = modified_content
            (display_loop 0 displays resistors
               {| modified_content := content; printed := log |}).
Proof.
  unfold main, groups_of.
  destruct (parse_s_expression_blocks content (lit "footprint")) as [|b bs];
    [discriminate|].
  destruct (map_result get_footprint_details (b :: bs)) as [all|e] eqn:Hall;
    [|discriminate].
  destruct (sort_components (filter is_display all) (lit "SEGD"))
    as [displays|e] eqn:Hd; [|discriminate].
  destruct (sort_components (filter is_resistor all) (lit "R"))
    as [resistors|e] eqn:Hr; [|discriminate].
  destruct displays as [|d displays]; [discriminate|].
  cbn [written returned]. intros [= <-].
  eexists (d :: displays), resistors, _. split; [|split; [discriminate|reflexivity]].
  exists all. auto.
Qed.

(** A run whose groups are computed and which has a display with a slice
    of fewer than 15 resistors prints the warning on the number of
    resistors. *)
Lemma few_resistors_warned content displays resistors i :
  groups_of content displays resistors ->
  i < length displays ->
  length (current_display_resistors i resistors) < 15 ->
  In (FewResistors (length resistors) (length displays * 15))
    (console (main (Some content))).
Proof.
  intros (all & Hall & Hd & Hr) Hi Hshort. unfold main.
  destruct (parse_s_expression_blocks content (lit "footprint")) as [|b bs].
  - cbn [map_result] in Hall. injection Hall as <-. cbn [filter] in Hd.
    vm_compute in Hd. injection Hd as <-. cbn [length] in Hi. lia.
  - rewrite Hall, Hd, Hr. destruct displays as [|d displays];
      [cbn [length] in Hi; lia|].
    assert (Hfew : (length resistors <? length (d :: displays) * 15) = true).
    { apply Nat.ltb_lt. unfold current_display_resistors in Hshort.
      rewrite length_firstn, length_skipn in Hshort. lia. }
    rewrite Hfew. cbn [console returned]. apply in_or_app. left.
    apply display_loop_keeps. cbn [printed]. apply in_or_app. right. now left.
Qed.

(** Once the two groups are computed, the run ends without an exception:
    the placement raises nothing. *)
Lemma main_returns content displays resistors :
  groups_of content displays resistors ->
  raised (main (Some content)) = None.
Proof.
  intros (all & Hall & Hd & Hr). unfold main.
  destruct (parse_s_expression_blocks content (lit "footprint")) as [|b bs];
    [reflexivity|].
  rewrite Hall, Hd, Hr. destruct displays; reflexivity.
Qed.

Example main_example :
  main (Some example_document)
  = {| console := [FoundDisplays 2; FoundResistors 2; FewResistors 2 30;
                   Placed (Some (lit "SEGD1")) 5.7;
                   Placed (Some (lit "SEGD2")) 17.1; Complete];
       written := Some example_output;
       raised := None |}.
Proof. vm_compute. reflexivity. Qed.

Example main_no_file :
  main None
  = {| console := [FileNotFound; CheckDirectory]; written := None; raised := None |}.
Proof. reflexivity. Qed.

(** A resistor that is not numbered yet (["R?"]): the sort of the
    resistors raises and the run ends with the exception. *)
Example unnumbered_reference_raises :
  main (Some (qlit "(kicad_pcb (footprint 'External_Parts:ACPSC04-41SEKWA' (at 1 2) (property 'Reference' 'SEGD1')) (footprint 'Resistor_SMD:R_0603' (at 3 4) (property 'Reference' 'R?')))"))
  = {| console := []; written := None; raised := Some AttributeError |}.
Proof. vm_compute. reflexivity. Qed.

(** ** The extractor on a suffix of the text *)

Lemma match_end_shift rest a :
  forall i d, match_end rest (a + i) d = option_map (Nat.add a) (match_end rest i d).
Proof.
  induction rest as [|c rest IH]; intros i d; cbn [match_end]; [reflexivity|].
  destruct (count_paren d c =? 0)%Z; [reflexivity|].
  replace (S (a + i)) with (a + S i) by lia. apply IH.
Qed.

Lemma index_suffix before doc sub s :
  index (before ++ doc) sub (length before + s)
  = option_map (Nat.add (length before)) (index doc sub s).
Proof.
  unfold index. rewrite length_app.
  destruct (Nat.ltb_spec (length doc) s) as [Hlt|Hle].
  - destruct (Nat.ltb_spec (length before + length doc) (length before + s));
      [reflexivity|lia].
  - destruct (Nat.ltb_spec (length before + length doc) (length before + s)); [lia|].
    rewrite skipn_app, (skipn_all2 before) by lia.
    replace (length before + s - length before) with s by lia. cbn [app].
    rewrite find_from_shift, (find_from_shift _ _ s).
    destruct (find_from (skipn s doc) sub 0); cbn [option_map]; [f_equal; lia|reflexivity].
Qed.

Lemma slice_suffix before doc a b :
  slice (before ++ doc) (length before + a) (length before + b) = slice doc a b.
Proof.
  unfold slice. rewrite skipn_app, (skipn_all2 before) by lia.
  replace (length before + a - length before) with a by lia.
  cbn [app]. f_equal. lia.
Qed.

Lemma parse_loop_from_nil content tag start_index blocks :
  parse_loop content tag start_index blocks
  = blocks ++ parse_loop content tag start_index [].
Proof.
  rewrite <- (app_nil_r blocks) at 1. apply parse_loop_acc.
Qed.

(** Resuming the scan at an index is scanning the text from that index
    on: what lies before the cursor has no influence. *)
Lemma parse_loop_suffix before doc tag :
  forall n s blocks,
    length doc + 1 - s <= n ->
    parse_loop (before ++ doc) tag (length before + s) blocks
    = blocks ++ parse_loop doc tag s [].
Proof.
  induction n as [|n IH]; intros s blocks Hn;
    rewrite parse_loop_eq, (parse_loop_eq doc), index_suffix;
    destruct (index doc (lparen :: tag) s) as [p|] eqn:Hp; cbn [option_map];
    try (now rewrite app_nil_r);
    pose proof (index_bounds _ _ _ _ Hp) as Hb; cbn [length] in Hb; try lia.
  rewrite skipn_app, (skipn_all2 before) by lia.
  replace (length before + p - length before) with p by lia. cbn [app].
  rewrite match_end_shift.
  destruct (match_end (skipn p doc) p 0) as [i|] eqn:Hi; cbn [option_map].
  - pose proof (match_end_bounds _ _ _ _ Hi) as He. rewrite length_skipn in He.
    replace (length before + i + 1) with (length before + (i + 1)) by lia.
    rewrite slice_suffix, IH by lia. cbn [app].
    rewrite (parse_loop_from_nil doc tag (i + 1) [_]).
    now rewrite <- app_assoc.
  - replace (length before + p + length (lparen :: tag))
      with (length before + (p + length (lparen :: tag))) by lia.
    apply IH. cbn [length]. lia.
Qed.

Lemma parse_loop_skipn content tag s blocks :
  s <= length content ->
  parse_loop content tag s blocks
  = blocks ++ parse_s_expression_blocks (skipn s content) tag.
Proof.
  intros Hs.
  pose proof (parse_loop_suffix (firstn s content) (skipn s content) tag
                (length (skipn s content) + 1) 0 blocks) as H.
  rewrite firstn_skipn, length_firstn, Nat.add_0_r in H.
  replace (Nat.min s (length content)) with s in H by lia.
  apply H. lia.
Qed.

(** ** Blocks as texts of their own *)

Lemma extracted_blocks content tag :
  Forall (extracted_block tag) (parse_s_expression_blocks content tag).
Proof.
  unfold parse_s_expression_blocks.
  destruct (parse_loop_spans content tag 0 []) as (spans & -> & _ & Hall).
  exact Hall.
Qed.

Lemma index_at_start s sub : startswith s sub = true -> index s sub 0 = Some 0.
Proof. intros H. unfold index. cbn [length Nat.ltb Nat.leb skipn]. now apply find_from_hit. Qed.

Lemma index_at_end s sub : sub <> [] -> index s sub (length s) = None.
Proof.
  intros Hne. destruct (index s sub (length s)) as [b|] eqn:H; [|reflexivity].
  apply index_bounds in H. destruct sub; [congruence|]. cbn [length] in H. lia.
Qed.

Lemma extracted_block_match_end tag b :
  extracted_block tag b -> match_end b 0 0 = Some (length b - 1).
Proof.
  intros [(t & ->) _ Hcount Hprefix].
  rewrite <- (app_nil_r (lparen :: t)) at 1.
  apply (match_end_block (lparen :: t) [] 0 0); [discriminate| |].
  - fold (depth (lparen :: t)). rewrite depth_count. lia.
  - intros j Hj. fold (depth (firstn j (lparen :: t))). rewrite depth_count.
    specialize (Hprefix j Hj). lia.
Qed.

(** ** Occurrences *)

Lemma startswith_firstn_self n s : startswith s (firstn n s) = true.
Proof.
  revert n; induction s as [|c s IH]; intros [|n]; cbn [firstn startswith];
    try reflexivity.
  now rewrite Ascii.eqb_refl, IH.
Qed.

Lemma find_from_some rest sub j i :
  startswith (skipn j rest) sub = true ->
  exists b, find_from rest sub i = Some b /\ b <= i + j.
Proof.
  intros H. destruct (find_from rest sub i) as [b|] eqn:Hf.
  - exists b. split; [reflexivity|].
    revert i j b H Hf. induction rest as [|c rest IH]; intros i j b H Hf;
      cbn [find_from] in Hf.
    + rewrite skipn_nil in H. rewrite H in Hf. injection Hf as <-. lia.
    + destruct (startswith (c :: rest) sub) eqn:E.
      * injection Hf as <-. lia.
      * destruct j as [|j]; [cbn [skipn] in H; congruence|].
        cbn [skipn] in H. specialize (IH (S i) j b H Hf). lia.
  - pose proof (find_from_none _ _ _ Hf j). congruence.
Qed.

Lemma contains_slice s a b : contains s (slice s a b) = true.
Proof.
  unfold contains, index. cbn [length Nat.ltb Nat.leb skipn].
  destruct (find_from_some s (slice s a b) a 0 (startswith_firstn_self _ _))
    as (p & -> & _).
  reflexivity.
Qed.

(** ** The matcher is complete *)

Lemma star_loop_complete p k s :
  matches (Star p) s ->
  forall pos rest,
    k (pos + length s) rest <> None ->
    star_loop p k pos (s ++ rest) <> None.
Proof.
  intros H. remember (Star p) as r eqn:Hr.
  induction H as [| |q|q c s Hc Hs IH| | | |]; inversion Hr; subst; intros pos rest Hk.
  - cbn [app length] in *. rewrite Nat.add_0_r in Hk.
    destruct rest as [|c rest]; cbn [star_loop]; [exact Hk|].
    destruct (p c); [|exact Hk].
    destruct (star_loop p k (S pos) rest); [discriminate|exact Hk].
  - cbn [app star_loop]. rewrite Hc.
    specialize (IH eq_refl (S pos) rest).
    destruct (star_loop p k (S pos) (s ++ rest)); [discriminate|].
    exfalso. apply IH; [|reflexivity]. cbn [length] in Hk.
    now replace (S pos + length s) with (pos + S (length s)) by lia.
Qed.

(** Where the pattern matches a text and what follows accepts the rest,
    the matcher finds a match (the preferred one, maybe another). *)
Lemma rmatch_complete r s :
  matches r s ->
  forall k pos rest cs,
    (forall cs', k (pos + length s) rest cs' <> None) ->
    rmatch r k pos (s ++ rest) cs <> None.
Proof.
  intros H.
  induction H as [|p c Hc|p|p c s Hc Hs _|r1 r2 s1 s2 H1 IH1 H2 IH2|r|r s H IH|n r s H IH];
    intros k pos rest cs Hk; cbn [rmatch].
  - cbn [length app] in *. rewrite Nat.add_0_r in Hk. apply Hk.
  - cbn [app length] in *. rewrite Hc.
    replace (S pos) with (pos + 1) by lia. apply Hk.
  - apply (star_loop_complete p _ []); [constructor|apply Hk].
  - apply (star_loop_complete p _ (c :: s)); [now constructor|apply Hk].
  - rewrite <- app_assoc. apply IH1. intros cs'. apply IH2. intros cs''.
    rewrite <- Nat.add_assoc, <- length_app. apply Hk.
  - cbn [app length] in *. rewrite Nat.add_0_r in Hk.
    destruct (rmatch r k pos rest cs); [discriminate|apply Hk].
  - specialize (IH k pos rest cs Hk).
    destruct (rmatch r k pos (s ++ rest) cs); [discriminate|congruence].
  - apply IH. intros cs'. apply Hk.
Qed.

Lemma match_at_complete r s pos rest :
  matches r s -> match_at r pos (s ++ rest) <> None.
Proof. intros H. apply rmatch_complete; [exact H|discriminate]. Qed.

Lemma match_at_start r pos rest m :
  match_at r pos rest = Some m -> m_start m = pos.
Proof.
  unfold match_at. intros H. apply rmatch_sound in H.
  destruct H as (consumed & rest' & cs' & _ & _ & [= <-]). reflexivity.
Qed.

(** [re.search] returns the match at the first position that has one. *)
Lemma search_from_first r rest :
  forall pos m,
    search_from r pos rest = Some m ->
    exists j,
      m_start m = pos + j /\
      match_at r (pos + j) (skipn j rest) = Some m /\
      forall j', j' < j -> match_at r (pos + j') (skipn j' rest) = None.
Proof.
  induction rest as [|c rest IH]; intros pos m; cbn [search_from];
    destruct (match_at r pos _) as [m'|] eqn:Hm.
  1,3: intros [= <-]; exists 0; rewrite Nat.add_0_r; cbn [skipn];
    repeat split; [now apply match_at_start in Hm|exact Hm|lia].
  - discriminate.
  - intros H. apply IH in H. destruct H as (j & Hs & Hj & Hfirst).
    exists (S j). cbn [skipn]. replace (pos + S j) with (S pos + j) by lia.
    repeat split; [exact Hs|exact Hj|].
    intros [|j'] Hlt; [now rewrite Nat.add_0_r|].
    cbn [skipn]. replace (pos + S j') with (S pos + j') by lia.
    apply Hfirst. lia.
Qed.

Lemma startswith_split s sub :
  startswith s sub = true -> s = sub ++ skipn (length sub) s.
Proof.
  intros H. apply startswith_prefix in H.
  rewrite <- (firstn_skipn (length sub) s) at 1. now rewrite H.
Qed.

(** The text of the whole match occurs first where the match starts. *)
Lemma index_group0 r s m :
  re_search r s = Some m -> index s (group0 s m) 0 = Some (m_start m).
Proof.
  intros H. pose proof (group0_matches r s m H) as Hmatch.
  pose proof H as Hsound. apply search_from_sound in Hsound.
  destruct Hsound as (skipped & consumed & rest' & Hs & _ & Hstart & Hend).
  apply search_from_first in H. destruct H as (j & Hj & _ & Hfirst).
  cbn [Nat.add] in *.
  assert (Hocc : startswith (skipn j s) (group0 s m) = true).
  { unfold group0, slice. rewrite Hj. apply startswith_firstn_self. }
  destruct (find_from_some s (group0 s m) j 0 Hocc) as (b & Hb & Hle).
  unfold index. cbn [length Nat.ltb Nat.leb skipn]. rewrite Hb. f_equal.
  destruct (Nat.eq_dec b j) as [->|Hne]; [now rewrite Hj|].
  exfalso. apply find_from_startswith in Hb. destruct Hb as (k & -> & Hk).
  cbn [Nat.add] in *. apply startswith_split in Hk.
  specialize (Hfirst k ltac:(lia)). rewrite Hk in Hfirst.
  now apply (match_at_complete r _ k) in Hfirst.
Qed.

(** ** What the groups capture *)

Lemma slice_app_l a b s t : b <= length s -> slice (s ++ t) a b = slice s a b.
Proof.
  intros Hb. unfold slice. rewrite skipn_app, firstn_app, length_skipn.
  replace (b - a - (length s - a)) with 0 by lia. cbn [firstn].
  now rewrite app_nil_r.
Qed.

Lemma slice_all s : slice s 0 (length s) = s.
Proof. unfold slice. rewrite Nat.sub_0_r. cbn [skipn]. apply firstn_all. Qed.

(** A match consumes a text that the pattern matches, and the span a
    group gets is a stretch of it that the pattern of the group matches. *)
Lemma rmatch_groups r :
  forall k pos rest cs m,
    rmatch r k pos rest cs = Some m ->
    exists consumed rest' cs',
      rest = consumed ++ rest' /\
      matches r consumed /\
      k (pos + length consumed) rest' cs' = Some m /\
      forall n,
        cs' n = cs n \/
        exists a b r',
          cs' n = Some (pos + a, pos + b) /\ a <= b <= length consumed /\
          In r' (group_bodies n r) /\ matches r' (slice consumed a b).
Proof.
  induction r as [|p|p|r1 IH1 r2 IH2|r IH|g r IH]; intros k pos rest cs m H.
  - exists [], rest, cs. cbn [length app]. rewrite Nat.add_0_r.
    repeat split; [constructor|exact H|auto].
  - cbn [rmatch] in H. destruct rest as [|c rest]; [discriminate|].
    destruct (p c) eqn:Hp; [|discriminate].
    exists [c], rest, cs. cbn [length app].
    replace (pos + 1) with (S pos) by lia.
    repeat split; [now constructor|exact H|auto].
  - cbn [rmatch] in H. apply star_loop_sound in H.
    destruct H as (consumed & rest' & -> & Hm & Hk).
    exists consumed, rest', cs. auto.
  - cbn [rmatch] in H. apply IH1 in H.
    destruct H as (s1 & rest1 & cs1 & -> & Hm1 & H & Hg1).
    apply IH2 in H. destruct H as (s2 & rest2 & cs2 & -> & Hm2 & H & Hg2).
    exists (s1 ++ s2), rest2, cs2. rewrite length_app, <- app_assoc, Nat.add_assoc.
    repeat split; [now constructor|exact H|]. intros n. cbn [group_bodies].
    destruct (Hg2 n) as [Heq|(a & b & r' & Hc & Hab & Hin & Hm)].
    + rewrite Heq. destruct (Hg1 n) as [Heq1|(a & b & r' & Hc & Hab & Hin & Hm)];
        [now left|right].
      exists a, b, r'. repeat split; try lia; [exact Hc|apply in_or_app; now left|].
      rewrite slice_app_l by lia. exact Hm.
    + right. exists (length s1 + a), (length s1 + b), r'.
      rewrite !Nat.add_assoc. repeat split; try lia;
        [exact Hc|apply in_or_app; now right|].
      now rewrite slice_suffix.
  - cbn [rmatch] in H. destruct (rmatch r k pos rest cs) as [m'|] eqn:Hr.
    + injection H as ->. apply IH in Hr.
      destruct Hr as (consumed & rest' & cs' & -> & Hm & H & Hg).
      exists consumed, rest', cs'. repeat split; [now constructor|exact H|exact Hg].
    + exists [], rest, cs. cbn [length app]. rewrite Nat.add_0_r.
      repeat split; [constructor|exact H|auto].
  - cbn [rmatch] in H.
    apply IH in H. destruct H as (consumed & rest' & cs' & -> & Hm & H & Hg).
    exists consumed, rest'. eexists. repeat split; [now constructor|exact H|].
    intros n. cbn [group_bodies]. unfold set_capture.
    destruct (Nat.eqb_spec n g) as [->|Hne].
    + right. exists 0, (length consumed), r. rewrite Nat.add_0_r.
      repeat split; try lia; [rewrite Nat.eqb_refl; now left|].
      now rewrite slice_all.
    + destruct (Nat.eqb_spec g n) as [->|_]; [congruence|]. cbn [app].
      exact (Hg n).
Qed.

(** The text of a group of a match found by [re.search] is matched by
    the pattern of a group of that number. *)
Lemma search_from_group r n rest :
  forall pos m a b,
    search_from r pos rest = Some m ->
    m_groups m n = Some (a, b) ->
    exists r', In r' (group_bodies n r) /\
               pos <= a /\ matches r' (slice rest (a - pos) (b - pos)).
Proof.
  induction rest as [|c rest IH]; intros pos m a b; cbn [search_from];
    destruct (match_at r pos _) as [m'|] eqn:Hm.
  1,3: intros [= <-] Hg; unfold match_at in Hm; apply rmatch_groups in Hm;
    destruct Hm as (consumed & rest' & cs' & Hrest & _ & [= <-] & Hgroups);
    cbn [m_groups] in Hg;
    destruct (Hgroups n) as [Heq|(a' & b' & r' & Hc & Hab & Hin & Hmatch)];
    [unfold no_captures in Heq; congruence|];
    rewrite Hc in Hg; injection Hg as <- <-;
    exists r'; (split; [exact Hin|]); (split; [lia|]);
    replace (pos + a' - pos) with a' by lia;
    replace (pos + b' - pos) with b' by lia;
    rewrite Hrest, slice_app_l by lia; exact Hmatch.
  - discriminate.
  - intros H Hg. destruct (IH _ _ _ _ H Hg) as (r' & Hin & Hle & Hmatch).
    exists r'. split; [exact Hin|]. split; [lia|].
    replace (slice (c :: rest) (a - pos) (b - pos))
      with (slice rest (a - S pos) (b - S pos)); [exact Hmatch|].
    unfold slice. replace (a - pos) with (S (a - S pos)) by lia.
    cbn [skipn]. f_equal. lia.
Qed.

Lemma group_matches r s m n t :
  re_search r s = Some m ->
  group s m n = Some t ->
  exists r', In r' (group_bodies n r) /\ matches r' t.
Proof.
  unfold re_search, group. intros H Hg.
  destruct (m_groups m n) as [[a b]|] eqn:Hn; [|discriminate].
  cbn [option_map fst snd] in Hg. injection Hg as <-.
  destruct (search_from_group r n s 0 m a b H Hn) as (r' & Hin & _ & Hmatch).
  rewrite !Nat.sub_0_r in Hmatch. now exists r'.
Qed.

(** A text that [p+] matches is not empty and made of characters of [p]. *)
Lemma matches_Plus p t :
  matches (Plus p) t -> t <> [] /\ Forall (fun c => p c = true) t.
Proof.
  unfold Plus. intros H. inversion H as [| | | |? ? s1 s2 H1 H2| | |]; subst.
  inversion H1 as [|? c Hc| | | | | |]; subst. split; [discriminate|].
  cbn [app]. constructor; [exact Hc|].
  clear H H1. remember (Star p) as r eqn:Hr.
  induction H2; inversion Hr; subst; constructor; auto.
Qed.

Lemma not_char_Forall a t :
  Forall (fun c => not_char a c = true) t -> ~ In a t.
Proof.
  intros H Hin. rewrite Forall_forall in H. specialize (H a Hin).
  unfold not_char in H. now rewrite Ascii.eqb_refl in H.
Qed.

(** The group of the reference and of the type: [[^']+]. *)
Lemma quoted_group r s m t :
  group_bodies 1 r = [Plus (not_char dquote)] ->
  re_search r s = Some m ->
  group s m 1 = Some t ->
  t <> [] /\ ~ In dquote t.
Proof.
  intros Hr H Hg. destruct (group_matches r s m 1 t H Hg) as (r' & Hin & Hm).
  rewrite Hr in Hin. destruct Hin as [<-|[]].
  apply matches_Plus in Hm. destruct Hm as [Hne Hall].
  split; [exact Hne|now apply not_char_Forall].
Qed.

(** The groups of the numbers: [[-\d.]+]. *)
Lemma number_group s m n t :
  re_search at_re s = Some m ->
  group s m n = Some t ->
  t <> [] /\ Forall (fun c => is_number_char c = true) t.
Proof.
  intros H Hg. destruct (group_matches at_re s m n t H Hg) as (r' & Hin & Hm).
  destruct n as [|[|[|[|n]]]]; cbn in Hin; try contradiction;
    destruct Hin as [<-|[]]; now apply matches_Plus.
Qed.

(** The fields of a record, read off the three searches. *)
Lemma get_footprint_details_fields footprint_str c :
  get_footprint_details footprint_str = Ok c ->
  Component.type c
  = match re_search footprint_type_re footprint_str with
    | Some m => group footprint_str m 1
    | None => None
    end /\
  Component.reference c
  = match re_search reference_re footprint_str with
    | Some m => group footprint_str m 1
    | None => None
    end /\
  Component.at_string c
  = match re_search at_re footprint_str with
    | Some m => Some (group0 footprint_str m)
    | None => None
    end /\
  Component.original_string c = footprint_str /\
  float_or_none
    match re_search at_re footprint_str with
    | Some m => group footprint_str m 1
    | None => None
    end = Ok (Component.x c) /\
  float_or_none
    match re_search at_re footprint_str with
    | Some m => group footprint_str m 2
    | None => None
    end = Ok (Component.y c) /\
  float_or_none
    match re_search at_re footprint_str with
    | Some m => group footprint_str m 3
    | None => None
    end = Ok (Component.rotation c).
Proof.
  unfold get_footprint_details.
  destruct (re_search at_re footprint_str) as [m|]; cbn [fst snd].
  - destruct (float_or_none (group footprint_str m 1)) as [x|]; cbn [bind];
      [|discriminate].
    destruct (float_or_none (group footprint_str m 2)) as [y|]; cbn [bind];
      [|discriminate].
    destruct (float_or_none (group footprint_str m 3)) as [rot|]; cbn [bind];
      [|discriminate].
    intros [= <-]. cbn. auto 10.
  - cbn [float_or_none bind]. intros [= <-]. cbn. auto 10.
Qed.

Lemma float_or_none_some p v :
  float_or_none p = Ok (Some v) ->
  exists token, p = Some token /\ Py.float_of_str token = Some v.
Proof.
  destruct p as [token|]; cbn [float_or_none]; [|discriminate].
  unfold float_of. destruct (Py.float_of_str token) as [w|] eqn:Hw; cbn [bind];
    [|discriminate].
  intros [= <-]. now exists token.
Qed.

Lemma float_or_none_ok p :
  (exists v, float_or_none p = Ok v) <->
  (forall token, p = Some token -> Py.float_of_str token <> None).
Proof.
  destruct p as [token|]; cbn [float_or_none]; unfold float_of.
  - destruct (Py.float_of_str token) as [w|] eqn:Hw; cbn [bind]; split.
    + intros _ t [= <-]. congruence.
    + intros _. now eexists.
    + intros [v Hv]. discriminate.
    + intros H. exfalso. now apply (H token eq_refl).
  - split; [intros _ t; discriminate|intros _; now eexists].
Qed.

(** ** When the sort raises, and sorting what is sorted *)

Lemma map_result_raise {A B : Type} (f : A -> result B) l e :
  map_result f l = Raise e -> exists a, In a l /\ f a = Raise e.
Proof.
  induction l as [|a l IH]; cbn [map_result]; [discriminate|].
  destruct (f a) as [b|e'] eqn:Hf; cbn [bind].
  - destruct (map_result f l) as [bs|e'']; cbn [bind]; [discriminate|].
    intros [= <-]. destruct (IH eq_refl) as (a' & Hin & Ha').
    exists a'. split; [now right|exact Ha'].
  - intros [= <-]. exists a. split; [now left|exact Hf].
Qed.

Lemma map_result_ok {A B : Type} (f : A -> result B) l :
  (forall a, In a l -> exists b, f a = Ok b) -> exists bs, map_result f l = Ok bs.
Proof.
  intros H. destruct (map_result f l) as [bs|e] eqn:Hm; [now exists bs|].
  apply map_result_raise in Hm. destruct Hm as (a & Hin & Ha).
  destruct (H a Hin) as (b & Hb). congruence.
Qed.

Lemma has_prefix_spec prefix c :
  has_prefix prefix c = true <->
  exists r, Component.reference c = Some r /\ r <> [] /\ startswith r prefix = true.
Proof.
  unfold has_prefix. destruct (Component.reference c) as [r|].
  - destruct r as [|ch r]; cbn [truthy andb]; split.
    + discriminate.
    + intros (r' & [= <-] & Hne & _). congruence.
    + intros H. exists (ch :: r). repeat split; [discriminate|exact H].
    + now intros (r' & [= <-] & _ & H).
  - split; [discriminate|]. now intros (r & Hr & _).
Qed.

(** The key of a record the filter keeps. *)
Lemma sort_key_kept prefix c :
  has_prefix prefix c = true ->
  sort_key c = Ok (reference_number c) \/
  (sort_key c = Raise AttributeError /\
   exists r, Component.reference c = Some r /\ first_digit_run r = None) \/
  (sort_key c = Raise ValueError /\
   exists r d, Component.reference c = Some r /\ first_digit_run r = Some d /\
               Py.max_str_digits < length d).
Proof.
  intros H. apply has_prefix_spec in H. destruct H as (r & Hr & _ & _).
  rewrite (sort_key_spec c r Hr). unfold reference_number. rewrite Hr.
  destruct (first_digit_run r) as [d|] eqn:Hd.
  - unfold Py.int_of_str. destruct (Nat.ltb_spec Py.max_str_digits (length d));
      [right; right|now left].
    split; [reflexivity|]. now exists r, d.
  - right. left. split; [reflexivity|]. now exists r.
Qed.

Section Sorted.

Context {A : Type}.

Implicit Types (l : list (Z * A)).

Lemma sorted_by_key_fixed l : StronglySorted key_le l -> sorted_by_key l = l.
Proof.
  induction 1 as [|[k a] l Hl IH Hall]; cbn [sorted_by_key]; [reflexivity|].
  rewrite IH. destruct l as [|[k' a'] l]; cbn [insert_by_key]; [reflexivity|].
  apply Forall_inv in Hall. unfold key_le in Hall. cbn [fst] in Hall.
  destruct (Z.leb_spec k k'); [reflexivity|lia].
Qed.

End Sorted.

Lemma sorted_fixed {A : Type} (l : list A) (key : A -> result Z) (num : A -> Z) :
  (forall a, In a l -> key a = Ok (num a)) ->
  StronglySorted (fun a b => (num a <= num b)%Z) l ->
  sorted l key = Ok l.
Proof.
  intros Hkey Hs. unfold sorted. rewrite (map_result_total key num l Hkey).
  cbn [bind]. rewrite combine_map_self, sorted_by_key_fixed.
  - rewrite map_map. cbn [snd]. now rewrite map_id.
  - induction Hs as [|a l Hs IH Hall]; cbn [map]; constructor.
    + apply IH. intros b Hb. apply Hkey. now right.
    + apply Forall_map. eapply Forall_impl; [|exact Hall].
      intros b Hb. exact Hb.
Qed.

(** Two lists in ascending order of a number that no two elements share
    are equal when they hold the same elements. *)
Lemma sorted_unique {A : Type} (num : A -> Z) (l l' : list A) :
  StronglySorted (fun a b => (num a <= num b)%Z) l ->
  StronglySorted (fun a b => (num a <= num b)%Z) l' ->
  NoDup (map num l) ->
  Permutation l l' ->
  l = l'.
Proof.
  intros Hs. revert l'. induction Hs as [|a l Hs IH Hall]; intros l' Hs' Hnd Hp.
  - apply Permutation_nil in Hp. now subst.
  - destruct Hs' as [|a' l' Hs' Hall'].
    + apply Permutation_sym, Permutation_nil in Hp. discriminate.
    + cbn [map] in Hnd. apply NoDup_cons_iff in Hnd. destruct Hnd as [Hnotin Hnd].
      assert (Ha : a = a').
      { assert (Hin : In a (a' :: l')) by (apply (Permutation_in _ Hp); now left).
        assert (Hin' : In a' (a :: l))
          by (apply (Permutation_in _ (Permutation_sym Hp)); now left).
        destruct Hin as [E|Hin]; [now symmetry|].
        destruct Hin' as [E|Hin']; [exact E|].
        rewrite Forall_forall in Hall, Hall'.
        specialize (Hall a' Hin'). specialize (Hall' a Hin).
        exfalso. apply Hnotin. replace (num a) with (num a') by lia.
        now apply in_map. }
      subst a'. f_equal. apply IH; [exact Hs'|exact Hnd|].
      now apply Permutation_cons_inv in Hp.
Qed.

Lemma filter_perm {A : Type} (keep : A -> bool) :
  forall l l', Permutation l l' -> Permutation (filter keep l) (filter keep l').
Proof.
  intros l l' H.
  induction H as [|a l l' _ IH|a b l|l l' l'' _ IH1 _ IH2]; cbn [filter].
  - constructor.
  - destruct (keep a); [now constructor|exact IH].
  - destruct (keep a), (keep b); try reflexivity. apply perm_swap.
  - now transitivity (filter keep l').
Qed.

Lemma extracted_block_in content tag b :
  In b (parse_s_expression_blocks content tag) -> contains content b = true.
Proof.
  unfold parse_s_expression_blocks.
  destruct (parse_loop_spans content tag 0 []) as (spans & -> & _ & _).
  cbn [app]. intros Hin. apply in_map_iff in Hin.
  destruct Hin as (sp & <- & _). apply contains_slice.
Qed.

(** ** The guard on the document as it was read *)

Lemma paren_group_truthy anchor : paren_group anchor -> truthy (Some anchor) = true.
Proof. intros (body & -> & _). reflexivity. Qed.

Lemma groups_of_record content displays resistors c :
  groups_of content displays resistors ->
  In c (displays ++ resistors) ->
  exists b,
    In b (parse_s_expression_blocks content (lit "footprint")) /\
    get_footprint_details b = Ok c.
Proof.
  intros (all & Hall & Hd & Hr) Hin.
  assert (Hc : In c all).
  { apply in_app_or in Hin. destruct Hin as [Hin|Hin].
    - apply (sort_components_group _ _ _ _ Hd) in Hin. destruct Hin as [Hin _].
      now apply filter_In in Hin.
    - apply (sort_components_group _ _ _ _ Hr) in Hin. destruct Hin as [Hin _].
      now apply filter_In in Hin. }
  exact (map_result_In _ _ _ Hall c Hc).
Qed.

Lemma can_replace_initially content displays resistors c :
  groups_of content displays resistors ->
  In c (displays ++ resistors) ->
  can_replace c content
  = match Component.at_string c with Some _ => true | None => false end.
Proof.
  intros Hg Hin. unfold can_replace.
  destruct (groups_of_record _ _ _ _ Hg Hin) as (b & Hb & Hc).
  pose proof (get_footprint_details_fields _ _ Hc) as (_ & _ & _ & Ho & _).
  rewrite Ho, (extracted_block_in content (lit "footprint") b Hb).
  destruct (Component.at_string c) as [anchor|] eqn:Hat; [|reflexivity].
  rewrite (paren_group_truthy anchor); [reflexivity|].
  exact (at_string_paren_group b c anchor Hc Hat).
Qed.

(** ** The lines the loops print *)

Lemma subsequence_In {A : Type} (l : list A) :
  forall s a, subsequence s l -> In a s -> In a l.
Proof.
  induction l as [|b l IH]; intros s a Hs Hin; cbn [subsequence] in Hs.
  - now subst.
  - destruct Hs as [Hs|(s' & -> & Hs)].
    + right. now apply (IH s).
    + destruct Hin as [<-|Hin]; [now left|right; now apply (IH s')].
Qed.

Lemma length_current_display_resistors i resistors :
  length (current_display_resistors i resistors) <= 15.
Proof.
  unfold current_display_resistors. rewrite length_firstn. lia.
Qed.

Lemma display_loop_lines displays resistors :
  forall i st,
    exists placed,
      printed (display_loop i displays resistors st) = printed st ++ placed /\
      subsequence placed (display_lines i displays).
Proof.
  induction displays as [|d rest IH]; intros i st.
  - exists []. cbn [display_loop]. rewrite app_nil_r. split; reflexivity.
  - cbn [display_loop].
    destruct (IH (S i) (resistor_loop i 0 (current_display_resistors i resistors)
                          (place_display i d st))) as (placed & Hp & Hsub).
    rewrite Hp, resistor_loop_printed
      by (pose proof (length_current_display_resistors i resistors);
          cbn [length resistor_relative_coords Nat.add] in *; lia).
    unfold display_lines. cbn [length seq combine map fst snd].
    fold (display_lines (S i) rest). unfold place_display.
    destruct (can_replace d (modified_content st)).
    + cbn [print printed]. exists (Placed (Component.reference d) (new_display_x i) :: placed).
      rewrite <- app_assoc. split; [reflexivity|]. right. now exists placed.
    + exists placed. split; [reflexivity|now left].
Qed.

(** ** Resistors beyond fifteen for each display *)

Lemma current_display_resistors_app i resistors more :
  i * 15 + 15 <= length resistors ->
  current_display_resistors i (resistors ++ more)
  = current_display_resistors i resistors.
Proof.
  intros H. unfold current_display_resistors.
  replace (i * 15 + 15 - i * 15) with 15 by lia.
  rewrite skipn_app, firstn_app, length_skipn.
  replace (15 - (length resistors - i * 15)) with 0 by lia.
  cbn [firstn]. now rewrite app_nil_r.
Qed.

Lemma display_loop_surplus displays resistors more :
  forall i st,
    (i + length displays) * 15 <= length resistors ->
    display_loop i displays (resistors ++ more) st
    = display_loop i displays resistors st.
Proof.
  induction displays as [|d rest IH]; intros i st H; [reflexivity|].
  cbn [display_loop length] in *.
  rewrite current_display_resistors_app by lia. apply IH. lia.
Qed.

(** ** Parentheses of the document written *)

Lemma depth_from_plain d s :
  Forall (fun c => plain c = true) s -> depth_from d s = d.
Proof.
  unfold depth_from. revert d. induction s as [|c s IH]; intros d H; [reflexivity|].
  cbn [fold_left]. rewrite IH by (now apply Forall_inv_tail in H).
  apply Forall_inv in H. unfold plain in H. unfold count_paren.
  destruct (Ascii.eqb c lparen); [discriminate|].
  destruct (Ascii.eqb c rparen); [discriminate|reflexivity].
Qed.

Lemma nested_from_app_plain d s t :
  Forall (fun c => plain c = true) s ->
  (0 <= d)%Z ->
  nested_from d (s ++ t) = nested_from d t.
Proof.
  revert d. induction s as [|c s IH]; intros d H Hd; [reflexivity|].
  cbn [app nested_from].
  assert (Hc : count_paren d c = d).
  { apply Forall_inv in H. unfold plain in H. unfold count_paren.
    destruct (Ascii.eqb c lparen); [discriminate|].
    destruct (Ascii.eqb c rparen); [discriminate|reflexivity]. }
  rewrite Hc, IH; [|now apply Forall_inv_tail in H|exact Hd].
  destruct (Z.leb_spec 0 d); [reflexivity|lia].
Qed.

Lemma depth_from_paren_group d g : paren_group g -> depth_from d g = d.
Proof.
  intros (body & -> & Hbody). unfold depth_from. cbn [fold_left].
  rewrite fold_left_app. fold (depth_from (count_paren d lparen) body).
  rewrite depth_from_plain by exact Hbody. cbn [fold_left].
  unfold count_paren. cbn. lia.
Qed.

Lemma nested_from_paren_group d g t :
  paren_group g -> (0 <= d)%Z -> nested_from d (g ++ t) = nested_from d t.
Proof.
  intros (body & -> & Hbody) Hd. cbn [app nested_from].
  replace (count_paren d lparen) with (d + 1)%Z by (unfold count_paren; cbn; lia).
  rewrite <- app_assoc, nested_from_app_plain by (exact Hbody || lia).
  cbn [app nested_from].
  replace (count_paren (d + 1) rparen) with d by (unfold count_paren; cbn; lia).
  destruct (Z.leb_spec 0 (d + 1)); [|lia].
  destruct (Z.leb_spec 0 d); [reflexivity|lia].
Qed.

Lemma depth_from_inserted d s : inserted s -> depth_from d s = d.
Proof.
  intros (sp & g & -> & Hsp & Hg). rewrite depth_from_app.
  rewrite (depth_from_plain d sp Hsp). now apply depth_from_paren_group.
Qed.

Lemma nested_from_inserted d s t :
  inserted s -> (0 <= d)%Z -> nested_from d (s ++ t) = nested_from d t.
Proof.
  intros (sp & g & -> & Hsp & Hg) Hd. rewrite <- app_assoc.
  rewrite nested_from_app_plain by assumption. now apply nested_from_paren_group.
Qed.

Lemma edited_parens cs input output :
  (forall c anchor,
     In c cs -> Component.at_string c = Some anchor -> paren_group anchor) ->
  edited cs input output ->
  forall d,
    depth_from d input = depth_from d output /\
    ((0 <= d)%Z -> nested_from d input = nested_from d output).
Proof.
  intros Hg H. induction H as [|ch s s' _ IH|c anchor new s s' Hc Hat Hnew _ IH];
    intros d.
  - auto.
  - unfold depth_from in *. cbn [fold_left nested_from].
    destruct (IH (count_paren d ch)) as [Hd Hn]. split; [exact Hd|].
    intros _. destruct (Z.leb_spec 0 (count_paren d ch)); [|reflexivity].
    cbn [andb]. now apply Hn.
  - specialize (Hg c anchor Hc Hat). destruct (IH d) as [Hd Hn].
    rewrite !depth_from_app, (depth_from_paren_group d anchor Hg),
      (depth_from_inserted d new Hnew).
    split; [exact Hd|]. intros H0.
    rewrite (nested_from_paren_group d anchor s Hg H0),
      (nested_from_inserted d new s' Hnew H0).
    now apply Hn.
Qed.

(** ** The two groups *)

Lemma display_not_resistor c : is_display c = true -> is_resistor c = false.
Proof.
  unfold is_display, is_resistor. destruct (Component.type c) as [t|]; [|discriminate].
  destruct (list_eq_dec ascii_dec t display_type) as [->|]; [|discriminate].
  intros _. vm_compute. reflexivity.
Qed.

(** ** Runs that raise, runs that write *)

Lemma sort_components_raise_inv components prefix e :
  sort_components components prefix = Raise e ->
  exists c r,
    In c components /\ Component.reference c = Some r /\ r <> [] /\
    startswith r prefix = true /\
    ((e = AttributeError /\ first_digit_run r = None) \/
     (e = ValueError /\
      exists d, first_digit_run r = Some d /\ Py.max_str_digits < length d)).
Proof.
  unfold sort_components, sorted.
  destruct (map_result sort_key (filter (has_prefix prefix) components))
    as [keys|e'] eqn:Hk; cbn [bind]; [discriminate|].
  intros [= <-]. apply map_result_raise in Hk. destruct Hk as (c & Hin & Hc).
  apply filter_In in Hin. destruct Hin as [Hin Hp].
  pose proof Hp as Hspec. apply has_prefix_spec in Hspec.
  destruct Hspec as (r & Hr & Hne & Hs). exists c, r.
  repeat (split; [assumption|]).
  destruct (sort_key_kept prefix c Hp)
    as [Hok|[(Hre & r' & Hr' & Hd)|(Hre & r' & d & Hr' & Hd & Hlen)]];
    [congruence| |]; rewrite Hr in Hr'; injection Hr' as <-.
  - left. split; [congruence|exact Hd].
  - right. split; [congruence|]. now exists d.
Qed.

Lemma sort_components_raise_intro components prefix c r :
  In c components ->
  Component.reference c = Some r ->
  r <> [] ->
  startswith r prefix = true ->
  first_digit_run r = None \/
  (exists d, first_digit_run r = Some d /\ Py.max_str_digits < length d) ->
  exists e, sort_components components prefix = Raise e.
Proof.
  intros Hin Hr Hne Hs Hbad. unfold sort_components, sorted.
  destruct (map_result sort_key (filter (has_prefix prefix) components))
    as [keys|e] eqn:Hk; cbn [bind]; [|now exists e].
  exfalso. destruct (map_result_all _ _ _ Hk c) as (k & Hkey).
  - apply filter_In. split; [exact Hin|]. apply has_prefix_spec. now exists r.
  - rewrite (sort_key_spec c r Hr) in Hkey.
    destruct Hbad as [Hd|(d & Hd & Hlen)]; rewrite Hd in Hkey; [discriminate|].
    unfold Py.int_of_str in Hkey.
    destruct (Nat.ltb_spec Py.max_str_digits (length d)); [discriminate|lia].
Qed.

Lemma groups_of_blocks content displays resistors :
  groups_of content displays resistors ->
  displays <> [] ->
  parse_s_expression_blocks content (lit "footprint") <> [].
Proof.
  intros (all & Hall & Hd & _) Hne Hnil. rewrite Hnil in Hall.
  cbn [map_result] in Hall. injection Hall as <-. cbn [filter] in Hd.
  vm_compute in Hd. injection Hd as <-. now apply Hne.
Qed.

Lemma main_with_groups content displays resistors :
  groups_of content displays resistors ->
  displays <> [] ->
  main (Some content)
  = let log := [FoundDisplays (length displays); FoundResistors (length resistors)] in
    let log := if length resistors <? length displays * 15
               then log ++ [FewResistors (length resistors) (length displays * 15)]
               else log in
    let st := display_loop 0 displays resistors
                {| modified_content := content; printed := log |} in
    returned (printed st ++ [Complete]) (Some (modified_content st)).
Proof.
  intros Hg Hne. pose proof (groups_of_blocks _ _ _ Hg Hne) as Hb.
  destruct Hg as (all & Hall & Hd & Hr). unfold main.
  destruct (parse_s_expression_blocks content (lit "footprint")) as [|b bs];
    [congruence|].
  rewrite Hall, Hd, Hr. destruct displays; [congruence|reflexivity].
Qed.

Lemma main_written_groups content out :
  written (main (Some content)) = Some out ->
  exists displays resistors,
    groups_of content displays resistors /\ displays <> [].
Proof.
  intros H. apply main_written in H.
  destruct H as (displays & resistors & log & Hg & Hne & _). now exists displays, resistors.
Qed.

(** ** Texts inside texts *)

Lemma contains_iff s t :
  contains s t = true <-> exists pre post, s = pre ++ t ++ post.
Proof.
  unfold contains. split.
  - destruct (index s t 0) as [b|] eqn:Hi; [|discriminate]. intros _.
    apply index_split in Hi.
    now exists (firstn b s), (skipn (b + length t) s).
  - intros (pre & post & ->). unfold index. cbn [length Nat.ltb Nat.leb skipn].
    destruct (find_from_some (pre ++ t ++ post) t (length pre) 0) as (b & -> & _);
      [|reflexivity].
    rewrite skipn_app, skipn_all, Nat.sub_diag. cbn [skipn app].
    apply startswith_app, startswith_refl.
Qed.

Lemma contains_trans s t u :
  contains s t = true -> contains t u = true -> contains s u = true.
Proof.
  rewrite !contains_iff. intros (pre & post & ->) (pre' & post' & ->).
  exists (pre ++ pre'), (post' ++ post). now rewrite <- !app_assoc.
Qed.

Lemma contains_group s m n t : group s m n = Some t -> contains s t = true.
Proof.
  unfold group. destruct (m_groups m n) as [[a b]|]; [|discriminate].
  cbn [option_map fst snd]. intros [= <-]. apply contains_slice.
Qed.


(** ** The coordinates written *)

Lemma pystr_eqb_eq a b : pystr_eqb a b = true -> a = b.
Proof. unfold pystr_eqb. destruct (list_eq_dec ascii_dec a b); [auto|discriminate]. Qed.

Lemma exact_displays : forallb exact_display (seq 0 200) = true.
Proof. vm_compute. reflexivity. Qed.

Lemma whole_degrees_all :
  forallb (fun k => whole_degrees (Z.of_nat k - 360)) (seq 0 721) = true.
Proof. vm_compute. reflexivity. Qed.

(** ** One turn of the loop in a run *)

Lemma example_groups_of :
  groups_of example_document (fst example_groups) (snd example_groups).
Proof.
  unfold groups_of. eexists.
  split; [vm_compute; reflexivity|]. split; vm_compute; reflexivity.
Qed.

Lemma main_run content displays resistors :
  groups_of content displays resistors ->
  displays <> [] ->
  main (Some content)
  = returned
      (printed (display_loop 0 displays resistors
                  {| modified_content := content;
                     printed := lines_before_loop displays resistors |})
       ++ [Complete])
      (Some (modified_content
               (display_loop 0 displays resistors
                  {| modified_content := content;
                     printed := lines_before_loop displays resistors |}))).
Proof.
  intros Hg Hne. rewrite (main_with_groups content displays resistors Hg Hne).
  cbv zeta. unfold lines_before_loop.
  destruct (length resistors <? length displays * 15); reflexivity.
Qed.

Lemma nth_error_split_turn {A : Type} (l : list A) i a :
  nth_error l i = Some a ->
  l = firstn i l ++ a :: skipn (S i) l /\ length (firstn i l) = i.
Proof.
  intros H. split.
  - rewrite <- (firstn_skipn i l) at 1. f_equal. now apply skipn_nth_error.
  - rewrite length_firstn. assert (i < length l) by (apply nth_error_Some; congruence). lia.
Qed.

Lemma display_loop_turn displays resistors i display st :
  nth_error displays i = Some display ->
  display_loop 0 displays resistors st
  = display_loop (S i) (skipn (S i) displays) resistors
      (resistor_loop i 0 (current_display_resistors i resistors)
         (place_display i display
            (display_loop 0 (firstn i displays) resistors st))).
Proof.
  intros H. destruct (nth_error_split_turn _ _ _ H) as [Hsplit Hlen].
  rewrite Hsplit at 1.
  rewrite (display_loop_app (firstn i displays) display (skipn (S i) displays)
             resistors 0 st).
  cbn [Nat.add]. now rewrite Hlen.
Qed.

(** The substitution, when its guard holds and the [at] string occurs in
    the block: the first occurrence of the block in the document gets the
    new text in the place of the first occurrence of the [at] string. *)
Lemma substitute_split c new_at_str content anchor :
  can_replace c content = true ->
  Component.at_string c = Some anchor ->
  contains (Component.original_string c) anchor = true ->
  exists pre bpre bpost post,
    Component.original_string c = bpre ++ anchor ++ bpost /\
    index (Component.original_string c) anchor 0 = Some (length bpre) /\
    content = pre ++ bpre ++ anchor ++ bpost ++ post /\
    index content (Component.original_string c) 0 = Some (length pre) /\
    substitute c new_at_str content
    = pre ++ bpre ++ (lit "    " ++ new_at_str) ++ bpost ++ post.
Proof.
  unfold can_replace, substitute, contains. intros Hguard Hat Hocc.
  rewrite Hat in *. apply andb_true_iff in Hguard. destruct Hguard as [_ Hguard].
  destruct (index content (Component.original_string c) 0) as [p|] eqn:Hp;
    [|discriminate].
  destruct (index (Component.original_string c) anchor 0) as [q|] eqn:Hq;
    [|discriminate].
  unfold replace1 at 2. rewrite Hq. unfold replace1. rewrite Hp.
  pose proof (index_split _ _ _ _ Hp) as Hc.
  pose proof (index_split _ _ _ _ Hq) as Ho.
  set (pre := firstn p content) in *.
  set (post := skipn (p + length (Component.original_string c)) content) in *.
  set (bpre := firstn q (Component.original_string c)) in *.
  set (bpost := skipn (q + length anchor) (Component.original_string c)) in *.
  assert (Hlp : length pre = p).
  { subst pre. rewrite length_firstn. apply index_bounds in Hp. lia. }
  assert (Hlq : length bpre = q).
  { subst bpre. rewrite length_firstn. apply index_bounds in Hq. lia. }
  exists pre, bpre, bpost, post. rewrite Hlp, Hlq.
  split; [exact Ho|]. split; [reflexivity|].
  split; [rewrite Hc at 1; rewrite Ho at 1; now rewrite <- !app_assoc|].
  split; [reflexivity|]. now rewrite <- !app_assoc.
Qed.

Lemma at_string_occurs content displays resistors c anchor :
  groups_of content displays resistors ->
  In c (displays ++ resistors) ->
  Component.at_string c = Some anchor ->
  contains (Component.original_string c) anchor = true.
Proof.
  intros Hg Hin Hat. destruct (groups_of_record _ _ _ _ Hg Hin) as (b & _ & Hc).
  pose proof (get_footprint_details_fields _ _ Hc) as (_ & _ & Hat' & -> & _).
  rewrite Hat in Hat'. destruct (re_search at_re b) as [m|]; [|discriminate].
  injection Hat' as ->. apply contains_slice.
Qed.

Lemma place_display_guarded i display st :
  can_replace display (modified_content st) = true ->
  place_display i display st
  = {| modified_content :=
         substitute display (display_at_str i display) (modified_content st);
       printed := printed st ++ [Placed (Component.reference display) (new_display_x i)] |}.
Proof. intros H. unfold place_display. now rewrite H. Qed.

Lemma place_display_skipped i display st :
  can_replace display (modified_content st) = false ->
  place_display i display st = st.
Proof. intros H. unfold place_display. now rewrite H. Qed.

(** A run that goes through the loop prints no warning about a resistor
    without coordinates. *)
Lemma no_coordinates_in_run content displays resistors reference :
  groups_of content displays resistors ->
  displays <> [] ->
  ~ In (NoCoordinates reference) (console (main (Some content))).
Proof.
  intros Hg Hne. rewrite (main_run content displays resistors Hg Hne).
  match goal with
  | |- context [display_loop 0 displays resistors ?st] =>
      destruct (display_loop_lines displays resistors 0 st) as (placed & Hp & Hsub)
  end.
  cbn [console returned]. rewrite Hp. cbn [printed]. intros Hin.
  apply in_app_or in Hin. destruct Hin as [Hin|[Hin|[]]]; [|discriminate].
  apply in_app_or in Hin. destruct Hin as [Hin|Hin].
  - unfold lines_before_loop in Hin.
    destruct (length resistors <? length displays * 15); cbn in Hin;
      intuition discriminate.
  - apply (subsequence_In _ _ _ Hsub) in Hin. unfold display_lines in Hin.
    apply in_map_iff in Hin. destruct Hin as (p & Hp' & _). discriminate.
Qed.

(** A resistor whose number has 4301 digits: [int()] refuses it, the sort
    of the resistors raises [ValueError] and the run ends with it. *)
Example long_number_raises :
  main (Some (qlit "(kicad_pcb (footprint 'External_Parts:ACPSC04-41SEKWA' (at 1 2) (property 'Reference' 'SEGD1')) (footprint 'Resistor_SMD:R_0603' (at 3 4) (property 'Reference' 'R"
              ++ repeat "1"%char 4301 ++ qlit "')))"))
  = {| console := []; written := None; raised := Some ValueError |}.
Proof. vm_compute. reflexivity. Qed.

(** * Part IV. The statements of the specification *)

(** ** The block extractor *)

Example parse_two :
  parse_s_expression_blocks (lit "(kicad (footprint a (at 1 2)) x (footprint b))")
    (lit "footprint")
  = [lit "(footprint a (at 1 2))"; lit "(footprint b)"].
Proof. vm_compute. reflexivity. Qed.

(** C1. A document made of [k] well-formed [(footprint ...)] expressions
    that do not overlap, separated by text without the token: the
    extractor returns exactly these [k] expressions, in document order,
    each starting with [(footprint] and balanced. *)
Theorem parse_footprint_document parts tail :
  Forall (fun p => no_footprint_token (fst p) /\
                   well_formed_footprint (snd p)) parts ->
  no_footprint_token tail ->
  parse_s_expression_blocks (document parts tail) footprint_tag = map snd parts /\
  length (parse_s_expression_blocks (document parts tail) footprint_tag)
    = length parts /\
  Forall well_formed_footprint
    (parse_s_expression_blocks (document parts tail) footprint_tag).
Proof.
  intros Hparts Htail.
  assert (Heq : parse_s_expression_blocks (document parts tail) footprint_tag
                = map snd parts).
  { unfold parse_s_expression_blocks.
    refine (parse_loop_document footprint_tag parts tail _ _ Htail [] []).
    - vm_compute. intuition discriminate.
    - eapply Forall_impl; [|exact Hparts].
      intros p (Hg & Hb & Hbal). auto. }
  rewrite Heq. split; [reflexivity|]. split; [apply length_map|].
  apply Forall_map. eapply Forall_impl; [|exact Hparts]. now intros p [_ H].
Qed.

Lemma parse_footprint_document_witness :
  parse_s_expression_blocks
    (lit "(kicad_pcb (footprint a (at 1 2)) (gr_line) (footprint b))")
    footprint_tag
  = [lit "(footprint a (at 1 2))"; lit "(footprint b)"].
Proof.
  apply (parse_footprint_document
           [(lit "(kicad_pcb ", lit "(footprint a (at 1 2))");
            (lit " (gr_line) ", lit "(footprint b)")] (lit ")")).
  - repeat constructor; try (apply balanced_from_sound); reflexivity.
  - reflexivity.
Defined.

(** C6. When the counter of a located block never returns to zero before
    the end of the text, the turn of the loop adds no block, moves the
    cursor just past the search token and the extraction goes on from
    there: the result is the blocks found so far followed by those found
    from the new cursor. The loop is a total function: nothing is
    raised. *)
Theorem unclosed_block_dropped content tag start_index blocks block_start :
  index content (lparen :: tag) start_index = Some block_start ->
  (forall j, block_start < j <= length content ->
             depth (slice content block_start j) <> 0%Z) ->
  parse_loop content tag start_index blocks
    = parse_loop content tag (block_start + length (lparen :: tag)) blocks /\
  parse_loop content tag start_index blocks
    = blocks ++ parse_loop content tag (block_start + length (lparen :: tag)) [].
Proof.
  intros Hfind Hnever. apply never_closes in Hnever.
  assert (Hturn : parse_loop content tag start_index blocks
    = parse_loop content tag (block_start + length (lparen :: tag)) blocks).
  { rewrite parse_loop_eq, Hfind, Hnever. reflexivity. }
  split; [exact Hturn|]. rewrite Hturn.
  rewrite <- (app_nil_r blocks) at 1. apply parse_loop_acc.
Qed.

Lemma unclosed_block_dropped_witness :
  parse_loop (lit "(footprint (a (footprint b) c") footprint_tag 0 []
    = parse_loop (lit "(footprint (a (footprint b) c") footprint_tag 10 [] /\
  parse_loop (lit "(footprint (a (footprint b) c") footprint_tag 0 []
    = [] ++ parse_loop (lit "(footprint (a (footprint b) c") footprint_tag 10 [].
Proof.
  apply (unclosed_block_dropped
           (lit "(footprint (a (footprint b) c") footprint_tag 0 [] 0).
  - reflexivity.
  - apply never_closes. reflexivity.
Defined.

Example unclosed_block_example :
  parse_s_expression_blocks (lit "(footprint (a (footprint b) c") footprint_tag
  = [lit "(footprint b)"].
Proof. vm_compute. reflexivity. Qed.

(** C9, as the code has it. For every text and tag, the returned blocks
    are the texts of non-empty spans of the input that follow one another
    from left to right without overlap; each block opens with a
    parenthesis, has as many opening as closing parentheses, and each of
    its proper prefixes, the empty one apart, has strictly more opening
    than closing ones; it starts with the whole search token whenever the
    counter does not return to zero inside the token itself (in
    particular for every tag without a closing parenthesis, see
    [token_without_rparen]). *)
Theorem extracted_blocks_invariant content tag :
  exists spans,
    parse_s_expression_blocks content tag = map (span_text content) spans /\
    ordered_spans 0 (length content) spans /\
    Forall (extracted_block tag) (parse_s_expression_blocks content tag).
Proof.
  unfold parse_s_expression_blocks.
  destruct (parse_loop_spans content tag 0 []) as (spans & Heq & Hord & Hall).
  exists spans. rewrite Heq. simpl. auto.
Qed.

(** With the tag [")x"] the block returned for the text ["()x"] is ["()"],
    which does not start with the search token ["()x"]. *)
Lemma tag_closing_early_counterexample :
  parse_s_expression_blocks (lit "()x") (lit ")x") = [lit "()"] /\
  startswith (lit "()") (lparen :: lit ")x") = false.
Proof. split; vm_compute; reflexivity. Qed.

(** ** The field extractor *)

Example at_re_two :
  option_map (fun m => (group0 (lit "x (at 1.5 -2) y") m,
                        group (lit "x (at 1.5 -2) y") m 1,
                        group (lit "x (at 1.5 -2) y") m 2,
                        group (lit "x (at 1.5 -2) y") m 3))
    (re_search at_re (lit "x (at 1.5 -2) y"))
  = Some (lit "(at 1.5 -2)", Some (lit "1.5"), Some (lit "-2"), None).
Proof. vm_compute. reflexivity. Qed.

Example at_re_three :
  option_map (fun m => (group0 (lit "(at 10 20   90)") m,
                        group (lit "(at 10 20   90)") m 3))
    (re_search at_re (lit "(at 10 20   90)"))
  = Some (lit "(at 10 20   90)", Some (lit "90")).
Proof. vm_compute. reflexivity. Qed.

Example reference_re_example :
  option_map (fun m => group (qlit "(property 'Reference' 'R280' (at 0 0))") m 1)
    (re_search reference_re (qlit "(property 'Reference' 'R280' (at 0 0))"))
  = Some (Some (lit "R280")).
Proof. vm_compute. reflexivity. Qed.

(** The only exception [get_footprint_details] raises is the [ValueError]
    of [float()], on a token of a matched [at] clause. *)
Lemma get_footprint_details_raises footprint_str e :
  get_footprint_details footprint_str = Raise e ->
  e = ValueError /\
  exists m token,
    re_search at_re footprint_str = Some m /\
    In (Some token) [group footprint_str m 1; group footprint_str m 2;
                     group footprint_str m 3] /\
    Py.float_of_str token = None.
Proof.
  unfold get_footprint_details.
  destruct (re_search at_re footprint_str) as [m|];
    [|cbn [fst snd float_or_none bind]; discriminate].
  cbn [fst snd]. unfold float_or_none, float_of. intros H.
  repeat match type of H with
         | context [group ?s ?m' ?n] => destruct (group s m' n) eqn:?
         | context [Py.float_of_str ?t] => destruct (Py.float_of_str t) eqn:?
         end;
    cbn [bind] in H; try discriminate; injection H as <-;
    (split; [reflexivity|]); exists m;
    first
      [ solve [eexists; split; [reflexivity|];
               split; [left; eassumption|eassumption]]
      | solve [eexists; split; [reflexivity|];
               split; [right; left; eassumption|eassumption]]
      | solve [eexists; split; [reflexivity|];
               split; [right; right; left; eassumption|eassumption]] ].
Qed.

(** C5. A block whose [at] clause holds a token of the class [[-\d.]]
    that is not a number: the pattern matches, [float()] raises
    [ValueError] and no record is returned. *)
Theorem malformed_number_raises :
  get_footprint_details
    (qlit "(footprint 'Resistor_SMD:R_0603' (at 1.2.3 4) (property 'Reference' 'R280'))")
  = Raise ValueError.
Proof. vm_compute. reflexivity. Qed.

Example reference_found :
  get_footprint_details
    (qlit "(footprint 'Resistor_SMD:R_0603' (at 3 4.5) (property 'Reference' 'R280'))")
  = Ok {| Component.type := Some (lit "Resistor_SMD:R_0603");
          Component.reference := Some (lit "R280");
          Component.x := Some 3%float;
          Component.y := Some 4.5%float;
          Component.rotation := None;
          Component.at_string := Some (lit "(at 3 4.5)");
          Component.original_string :=
            qlit "(footprint 'Resistor_SMD:R_0603' (at 3 4.5) (property 'Reference' 'R280'))" |}.
Proof. vm_compute. reflexivity. Qed.

Example reference_missing :
  get_footprint_details (qlit "(footprint 'Resistor_SMD:R_0603' (layer 'F.Cu'))")
  = Ok {| Component.type := Some (lit "Resistor_SMD:R_0603");
          Component.reference := None;
          Component.x := None;
          Component.y := None;
          Component.rotation := None;
          Component.at_string := None;
          Component.original_string :=
            qlit "(footprint 'Resistor_SMD:R_0603' (layer 'F.Cu'))" |}.
Proof. vm_compute. reflexivity. Qed.

(** C10. In the record of a block, [x] is null exactly when [y] is, and
    exactly when the [at] string is; the rotation is only there when both
    coordinates are. *)
Theorem position_fields_together footprint_str c :
  get_footprint_details footprint_str = Ok c ->
  (Component.x c = None <-> Component.y c = None) /\
  (Component.y c = None <-> Component.at_string c = None) /\
  (Component.rotation c <> None ->
   Component.x c <> None /\ Component.y c <> None).
Proof.
  unfold get_footprint_details.
  destruct (re_search at_re footprint_str) as [m|] eqn:Hat.
  - destruct (at_re_groups _ _ Hat) as (t1 & t2 & -> & ->). cbn [fst snd float_or_none].
    destruct (float_of t1) as [v1|]; cbn [bind]; [|discriminate].
    destruct (float_of t2) as [v2|]; cbn [bind]; [|discriminate].
    destruct (float_or_none (group footprint_str m 3)) as [rot|]; cbn [bind];
      [|discriminate].
    intros [= <-]. cbn. repeat split; intros; congruence.
  - cbn [fst snd float_or_none bind]. intros [= <-]. cbn.
    repeat split; intros; congruence.
Qed.

Lemma position_fields_together_witness :
  (Some 1%float = None <-> Some 2%float = None) /\
  (Some 2%float = None <-> Some (lit "(at 1 2 90)") = None) /\
  (Some 90%float <> None -> Some 1%float <> None /\ Some 2%float <> None).
Proof.
  apply (position_fields_together
           (qlit "(footprint 'X' (at 1 2 90))")
           {| Component.type := Some (lit "X");
              Component.reference := None;
              Component.x := Some 1%float;
              Component.y := Some 2%float;
              Component.rotation := Some 90%float;
              Component.at_string := Some (lit "(at 1 2 90)");
              Component.original_string := qlit "(footprint 'X' (at 1 2 90))" |}).
  vm_compute. reflexivity.
Defined.

(** ** Filter and sort *)

(** C4. [sort_components] does not return a group for every list: on a
    record whose reference starts with the prefix and has no decimal
    digit, as ['R?'], the key calls [.group()] on the [None] that
    [re.search] returns and the call raises [AttributeError]; on a run
    of more than 4300 digits [int()] raises [ValueError]. The example of
    the claim holds: ['R2'], ['R10'], ['R1'] with the prefix ['R'] come
    back as ['R1'], ['R2'], ['R10']. *)
Theorem sort_components_unnumbered :
  sort_components [with_reference (lit "R1"); with_reference (lit "R?")] (lit "R")
  = Raise AttributeError /\
  sort_components [with_reference (lit "R" ++ repeat "1"%char 4301)] (lit "R")
  = Raise ValueError /\
  sort_components
    [with_reference (lit "R2"); with_reference (lit "R10"); with_reference (lit "R1")]
    (lit "R")
  = Ok [with_reference (lit "R1"); with_reference (lit "R2");
        with_reference (lit "R10")].
Proof. repeat split; vm_compute; reflexivity. Qed.

(** ** The placement driver *)

(** C2. In every run that writes its output, the document written is the
    input with the placements of the specification applied in order, each
    under the guard of the script. Display [i] of the sorted displays is
    given the [at] clause of [(start_x + i * spacing, start_y)] with its
    own rotation; resistor [j] of its slice of 15, that is resistor
    [15 * i + j] of the sorted resistors, is given the clause of
    [(x_i + dx_j, start_y + dy_j)] with the rotation [rot_j] of slot [j]
    of the table, in place of its own. With [start_x = 5.7],
    [start_y = 199.1] and [spacing = 11.4], display 2 goes to
    [(28.5, 199.1)]. *)
Theorem placement_by_index content out :
  written (main (Some content)) = Some out ->
  (exists displays resistors,
     groups_of content displays resistors /\
     out = apply_placements (placements displays resistors) content /\
     (forall i display,
        nth_error displays i = Some display ->
        In (display,
            at_text (start_x + Py.float_of_nat i * spacing) start_y
              (option_map Py.str_of_float (Component.rotation display)))
          (placements displays resistors)) /\
     (forall i j display resistor dx dy rot,
        nth_error displays i = Some display ->
        j < 15 ->
        nth_error resistors (15 * i + j) = Some resistor ->
        nth_error resistor_relative_coords j = Some (dx, dy, rot) ->
        In (resistor,
            at_text ((start_x + Py.float_of_nat i * spacing) + dx)
              (start_y + dy) (Some (Py.str_of_int rot)))
          (placements displays resistors))) /\
  (start_x + Py.float_of_nat 2 * spacing = 28.5)%float /\
  start_y = 199.1%float /\
  forall display,
    Component.rotation display = None ->
    spec_display_at 2 display = lit "(at 28.5000 199.1000)".
Proof.
  intros H. split; [|split; [|split]].
  - apply main_written in H. destruct H as (displays & resistors & log & Hg & _ & ->).
    exists displays, resistors. split; [exact Hg|]. split; [|split].
    + apply display_loop_content.
    + intros i display Hd. apply (placements_display displays resistors i display Hd).
    + intros i j display resistor dx dy rot Hd Hj Hr Hs.
      apply (placements_resistor displays resistors i j display resistor
               (dx, dy, rot) Hd Hj Hr Hs).
  - vm_compute. reflexivity.
  - reflexivity.
  - intros display Hrot. unfold spec_display_at. rewrite Hrot.
    vm_compute. reflexivity.
Qed.

Lemma placement_by_index_witness :
  exists displays resistors,
    groups_of example_document displays resistors /\
    example_output = apply_placements (placements displays resistors) example_document.
Proof.
  assert (H : written (main (Some example_document)) = Some example_output)
    by (vm_compute; reflexivity).
  destruct (placement_by_index example_document example_output H)
    as [(displays & resistors & Hg & Hout & _) _].
  exists displays, resistors. split; [exact Hg|exact Hout].
Defined.



(** C7, as the code has it. A record whose position field was not matched
    (its [at] string is null) is not relocated: its turn in either loop
    leaves the document and the printed lines as they are, so that it is
    skipped without a message, and nothing is raised; extracting such a
    record raises nothing either. A record whose reference is null, empty
    or without the prefix of a group is in no group that
    [sort_components] returns, and every record of a group has a number
    in its reference. *)
Theorem null_anchor_skipped c :
  Component.at_string c = None ->
  (forall i st, place_display i c st = st) /\
  (forall i j st, j < length resistor_relative_coords ->
                  place_resistor i j c st = st) /\
  (forall new_at_str content, guarded_substitute c new_at_str content = content) /\
  (forall footprint_str,
     re_search at_re footprint_str = None ->
     exists c',
       get_footprint_details footprint_str = Ok c' /\
       Component.at_string c' = None) /\
  (forall components prefix group c',
     sort_components components prefix = Ok group ->
     In c' group ->
     In c' components /\
     exists r, Component.reference c' = Some r /\ r <> [] /\
               startswith r prefix = true /\ first_digit_run r <> None).
Proof.
  intros Hat.
  assert (Hguard : forall content, can_replace c content = false).
  { intros content. unfold can_replace. now rewrite Hat. }
  split; [|split; [|split; [|split]]].
  - intros i st. unfold place_display. now rewrite Hguard.
  - intros i j st Hj. unfold place_resistor.
    destruct (Nat.leb_spec (length resistor_relative_coords) j); [lia|].
    rewrite Hguard. now destruct (nth_error resistor_relative_coords j).
  - intros new_at_str content. unfold guarded_substitute. now rewrite Hguard.
  - intros footprint_str H. destruct (no_at_match_record _ H) as (c' & Hc & Ha & _).
    now exists c'.
  - apply sort_components_group.
Qed.

Lemma null_anchor_skipped_witness :
  place_display 0 (with_reference (lit "SEGD1"))
    {| modified_content := display_without_at; printed := [] |}
  = {| modified_content := display_without_at; printed := [] |} /\
  place_resistor 0 3 (with_reference (lit "R4"))
    {| modified_content := display_without_at; printed := [] |}
  = {| modified_content := display_without_at; printed := [] |}.
Proof.
  split.
  - apply (null_anchor_skipped (with_reference (lit "SEGD1")) eq_refl).
  - apply (null_anchor_skipped (with_reference (lit "R4")) eq_refl).
    cbn. lia.
Defined.

(** A display without an [at] clause: the run leaves the document as it
    is and prints the two counts, the warning on the number of resistors
    and the final line, and no line about the display it skipped. *)
Lemma silent_skip_counterexample :
  main (Some display_without_at)
  = {| console := [FoundDisplays 1; FoundResistors 0; FewResistors 0 15; Complete];
       written := Some display_without_at;
       raised := None |}.
Proof. vm_compute. reflexivity. Qed.

(** C8. A run in which the slice of resistors of display [i] has fewer
    than 15 members (or none). The run raises nothing and writes its
    output. The warning on the number of resistors is printed; no
    warning names a resistor, since every resistor of a slice has its
    slot in the table. In the turn of the display, the resistors of the
    slice take the first slots of the table, one each, the remaining
    slots are left unused and nothing is printed for them. The display
    receives its position whatever the length of the slice: when its
    guard holds, the first occurrence of its block in the document gets
    four spaces and the new [at] string in the place of the [at] string,
    and the line [Placed] is printed; when the guard does not hold, the
    turn of the display changes nothing. *)
Theorem short_slice_placement content displays resistors i display :
  groups_of content displays resistors ->
  nth_error displays i = Some display ->
  length (current_display_resistors i resistors) < 15 ->
  raised (main (Some content)) = None /\
  written (main (Some content))
  = Some (modified_content
            (display_loop (S i) (skipn (S i) displays) resistors
               (resistor_loop i 0 (current_display_resistors i resistors)
                  (place_display i display
                     (state_before content displays resistors i))))) /\
  In (FewResistors (length resistors) (length displays * 15))
    (console (main (Some content))) /\
  (forall reference, ~ In (NoCoordinates reference) (console (main (Some content)))) /\
  (forall j resistor,
     nth_error (current_display_resistors i resistors) j = Some resistor ->
     exists slot, nth_error resistor_relative_coords j = Some slot) /\
  (forall st,
     modified_content
       (resistor_loop i 0 (current_display_resistors i resistors) st)
     = apply_placements
         (map (fun q => (fst q, spec_resistor_at i (snd q)))
            (combine (current_display_resistors i resistors)
               (firstn (length (current_display_resistors i resistors))
                  resistor_relative_coords)))
         (modified_content st) /\
     printed (resistor_loop i 0 (current_display_resistors i resistors) st)
     = printed st) /\
  (can_replace display
     (modified_content (state_before content displays resistors i)) = true ->
   In (Placed (Component.reference display) (new_display_x i))
     (console (main (Some content))) /\
   exists anchor pre bpre bpost post,
     Component.at_string display = Some anchor /\
     Component.original_string display = bpre ++ anchor ++ bpost /\
     modified_content (state_before content displays resistors i)
     = pre ++ bpre ++ anchor ++ bpost ++ post /\
     modified_content
       (place_display i display (state_before content displays resistors i))
     = pre ++ bpre ++ (lit "    " ++ display_at_str i display) ++ bpost ++ post) /\
  (can_replace display
     (modified_content (state_before content displays resistors i)) = false ->
   place_display i display (state_before content displays resistors i)
   = state_before content displays resistors i).
Proof.
  intros Hg Hi Hshort.
  assert (Hne : displays <> []) by (intros ->; destruct i; discriminate).
  assert (Hlt : i < length displays) by (apply nth_error_Some; congruence).
  pose proof (main_run content displays resistors Hg Hne) as Hrun.
  rewrite (display_loop_turn displays resistors i display _ Hi) in Hrun.
  fold (state_before content displays resistors i) in Hrun.
  assert (Hfew : (length resistors <? length displays * 15) = true).
  { apply Nat.ltb_lt. unfold current_display_resistors in Hshort.
    rewrite length_firstn, length_skipn in Hshort. lia. }
  split; [exact (main_returns content displays resistors Hg)|].
  split; [now rewrite Hrun|]. split; [|split; [|split; [|split; [|split]]]].
  - rewrite Hrun. cbn [console returned]. apply in_or_app. left.
    apply display_loop_keeps, resistor_loop_keeps, place_display_printed.
    unfold state_before. apply display_loop_keeps. cbn [printed].
    unfold lines_before_loop. rewrite Hfew. apply in_or_app. right. now left.
  - intros reference. exact (no_coordinates_in_run _ _ _ reference Hg Hne).
  - intros j resistor Hj.
    assert (Hlen : j < length (current_display_resistors i resistors))
      by (apply nth_error_Some; congruence).
    destruct (nth_error resistor_relative_coords j) as [slot|] eqn:Hslot;
      [now exists slot|].
    apply nth_error_None in Hslot. cbn [length resistor_relative_coords] in Hslot.
    lia.
  - intros st. split.
    + rewrite resistor_loop_content, <- combine_firstn_l. reflexivity.
    + apply resistor_loop_printed. cbn [length resistor_relative_coords]. lia.
  - intros Hguard.
    assert (Hin : In display (displays ++ resistors)).
    { apply in_or_app. left. now apply nth_error_In in Hi. }
    destruct (Component.at_string display) as [anchor|] eqn:Hat;
      [|unfold can_replace in Hguard; rewrite Hat in Hguard; discriminate].
    pose proof (at_string_occurs _ _ _ _ _ Hg Hin Hat) as Hocc.
    destruct (substitute_split display (display_at_str i display) _ anchor
                Hguard Hat Hocc)
      as (pre & bpre & bpost & post & Ho & _ & Hdoc & _ & Hsub).
    rewrite (place_display_guarded i display _ Hguard) in *. split.
    + rewrite Hrun. cbn [console returned]. apply in_or_app. left.
      apply display_loop_keeps, resistor_loop_keeps. cbn [printed].
      apply in_or_app. right. now left.
    + exists anchor, pre, bpre, bpost, post. cbn [modified_content]. auto.
  - apply place_display_skipped.
Qed.

Lemma short_slice_placement_witness :
  length (current_display_resistors 1 (snd example_groups)) = 0 /\
  raised (main (Some example_document)) = None /\
  written (main (Some example_document)) = Some example_output /\
  In (FewResistors 2 30) (console (main (Some example_document))) /\
  In (Placed (Some (lit "SEGD2")) (new_display_x 1))
    (console (main (Some example_document))) /\
  exists pre bpre bpost post,
    Component.original_string example_second_display
    = bpre ++ lit "(at 10.5 20 45)" ++ bpost /\
    modified_content
      (state_before example_document (fst example_groups) (snd example_groups) 1)
    = pre ++ bpre ++ lit "(at 10.5 20 45)" ++ bpost ++ post /\
    modified_content
      (place_display 1 example_second_display
         (state_before example_document (fst example_groups) (snd example_groups) 1))
    = pre ++ bpre ++ lit "    (at 17.1000 199.1000 45.0)" ++ bpost ++ post.
Proof.
  destruct (short_slice_placement example_document (fst example_groups)
              (snd example_groups) 1 example_second_display example_groups_of)
    as (Hraised & Hwritten & Hfew & _ & _ & _ & Hplaced & _);
    [reflexivity|vm_compute; lia|].
  destruct Hplaced as (Hline & anchor & pre & bpre & bpost & post
                       & Hat & Ho & Hdoc & Hnew); [vm_compute; reflexivity|].
  assert (Hanchor : anchor = lit "(at 10.5 20 45)")
    by (vm_compute in Hat; now injection Hat as <-).
  subst anchor.
  assert (Htext : display_at_str 1 example_second_display
                  = lit "(at 17.1000 199.1000 45.0)") by (vm_compute; reflexivity).
  rewrite Htext in Hnew.
  split; [vm_compute; reflexivity|]. split; [exact Hraised|].
  split; [rewrite Hwritten; vm_compute; reflexivity|].
  split; [exact Hfew|]. split; [exact Hline|].
  change (lit "    " ++ lit "(at 17.1000 199.1000 45.0)")
    with (lit "    (at 17.1000 199.1000 45.0)") in Hnew.
  exists pre, bpre, bpost, post.
  split; [exact Ho|]. split; [exact Hdoc|exact Hnew].
Defined.

(** * Part V. Further properties of the code *)

(** ** The block extractor *)

(** X1. The scan starts afresh after every token it has dealt with. When
    the token does not occur, nothing is returned; when the block at its
    first occurrence closes, that block is returned, followed by the
    blocks of the text after it; when it does not close, the blocks of
    the text after the token are returned. *)
Theorem scan_restarts_after_token content block_name :
  parse_s_expression_blocks content block_name =
  match index content (lparen :: block_name) 0 with
  | None => []
  | Some block_start =>
      match match_end (skipn block_start content) block_start 0 with
      | Some i =>
          slice content block_start (i + 1)
          :: parse_s_expression_blocks (skipn (i + 1) content) block_name
      | None =>
          parse_s_expression_blocks
            (skipn (block_start + length (lparen :: block_name)) content) block_name
      end
  end.
Proof.
  unfold parse_s_expression_blocks at 1. rewrite parse_loop_eq.
  destruct (index content (lparen :: block_name) 0) as [p|] eqn:Hp; [|reflexivity].
  pose proof (index_bounds _ _ _ _ Hp) as Hb.
  destruct (match_end (skipn p content) p 0) as [i|] eqn:Hi.
  - pose proof (match_end_bounds _ _ _ _ Hi) as He. rewrite length_skipn in He.
    rewrite parse_loop_skipn by lia. reflexivity.
  - rewrite parse_loop_skipn by lia. reflexivity.
Qed.

(** X2. For a tag without a closing parenthesis, a block the extractor
    returned is a text the extractor returns whole: extracting from the
    block alone gives the block and nothing else. *)
Theorem parse_extracted_block content tag b :
  ~ In rparen tag ->
  In b (parse_s_expression_blocks content tag) ->
  parse_s_expression_blocks b tag = [b].
Proof.
  intros Htag Hin.
  pose proof (extracted_blocks content tag) as Hall.
  rewrite Forall_forall in Hall. specialize (Hall b Hin).
  pose proof (eb_tag _ _ Hall (token_without_rparen tag Htag)) as Hstart.
  pose proof (extracted_block_match_end tag b Hall) as Hend.
  assert (Hlen : 0 < length b).
  { destruct (eb_open _ _ Hall) as (t & ->). cbn [length]. lia. }
  unfold parse_s_expression_blocks.
  rewrite parse_loop_eq, (index_at_start b _ Hstart). cbn [skipn]. rewrite Hend.
  replace (length b - 1 + 1) with (length b) by lia.
  unfold slice. rewrite Nat.sub_0_r. cbn [skipn app]. rewrite firstn_all.
  rewrite parse_loop_eq, index_at_end by discriminate. reflexivity.
Qed.

Lemma parse_extracted_block_witness :
  parse_s_expression_blocks (lit "(footprint (at 1 2))") (lit "footprint")
  = [lit "(footprint (at 1 2))"].
Proof.
  apply (parse_extracted_block (lit "x (footprint (at 1 2)) y") (lit "footprint")).
  - vm_compute. intuition discriminate.
  - vm_compute. now left.
Defined.

(** X3. Every block the extractor returns occurs in the text it was
    given: the test [block in content] holds. *)
Theorem extracted_block_occurs content tag b :
  In b (parse_s_expression_blocks content tag) ->
  contains content b = true.
Proof. apply extracted_block_in. Qed.

Lemma extracted_block_occurs_witness :
  contains (lit "x (footprint (at 1 2)) y") (lit "(footprint (at 1 2))") = true.
Proof.
  apply (extracted_block_occurs (lit "x (footprint (at 1 2)) y") (lit "footprint")).
  vm_compute. now left.
Defined.

(** ** The field extractor *)

(** X4. [get_footprint_details] returns a record exactly when [float()]
    accepts every number the [at] pattern captured; otherwise it raises,
    and [ValueError] is the only exception it raises. *)
Theorem get_footprint_details_returns footprint_str :
  ((exists c, get_footprint_details footprint_str = Ok c) <->
   (forall m n token,
      re_search at_re footprint_str = Some m ->
      In n [1; 2; 3] ->
      group footprint_str m n = Some token ->
      Py.float_of_str token <> None)) /\
  (forall e, get_footprint_details footprint_str = Raise e -> e = ValueError).
Proof.
  split; [|intros e He; now apply get_footprint_details_raises in He].
  split.
  - intros [c Hc] m n token Hm Hn Hg.
    apply get_footprint_details_fields in Hc.
    destruct Hc as (_ & _ & _ & _ & Hx & Hy & Hrot). rewrite Hm in Hx, Hy, Hrot.
    destruct Hn as [<-|[<-|[<-|[]]]].
    + apply (proj1 (float_or_none_ok _) (ex_intro _ _ Hx)), Hg.
    + apply (proj1 (float_or_none_ok _) (ex_intro _ _ Hy)), Hg.
    + apply (proj1 (float_or_none_ok _) (ex_intro _ _ Hrot)), Hg.
  - intros H. destruct (get_footprint_details footprint_str) as [c|e] eqn:Hc;
      [now exists c|].
    apply get_footprint_details_raises in Hc.
    destruct Hc as (_ & m & token & Hm & Hin & Hf). exfalso.
    destruct Hin as [Hg|[Hg|[Hg|[]]]]; symmetry in Hg.
    + now apply (H m 1 token Hm) in Hf; [|cbn; auto|].
    + now apply (H m 2 token Hm) in Hf; [|cbn; auto|].
    + now apply (H m 3 token Hm) in Hf; [|cbn; auto|].
Qed.

(** X5. The [at_string] of a record is the text the [at] pattern
    matched in the block, and its first occurrence in the block is that
    match: the [replace] of the script on the block rewrites the matched
    field itself and keeps the text before and after the match. *)
Theorem at_string_first_occurrence footprint_str c anchor :
  get_footprint_details footprint_str = Ok c ->
  Component.at_string c = Some anchor ->
  exists m,
    re_search at_re footprint_str = Some m /\
    anchor = group0 footprint_str m /\
    index (Component.original_string c) anchor 0 = Some (m_start m) /\
    forall new,
      replace1 (Component.original_string c) anchor new
      = firstn (m_start m) footprint_str ++ new ++ skipn (m_end m) footprint_str.
Proof.
  intros Hc Hat. apply get_footprint_details_fields in Hc.
  destruct Hc as (_ & _ & Hat' & -> & _). rewrite Hat in Hat'.
  destruct (re_search at_re footprint_str) as [m|] eqn:Hm; [|discriminate].
  injection Hat' as ->. exists m. split; [reflexivity|]. split; [reflexivity|].
  pose proof (index_group0 _ _ _ Hm) as Hi. split; [exact Hi|].
  intros new. unfold replace1. rewrite Hi.
  replace (m_start m + length (group0 footprint_str m)) with (m_end m);
    [reflexivity|].
  apply search_from_sound in Hm.
  destruct Hm as (skipped & consumed & rest' & Hs & _ & Hstart & Hend).
  apply (f_equal (@length _)) in Hs. rewrite !length_app in Hs.
  unfold group0, slice. rewrite length_firstn, length_skipn. lia.
Qed.

Lemma at_string_first_occurrence_witness :
  exists m,
    re_search at_re (lit "(footprint (at 1 2))") = Some m /\
    lit "(at 1 2)" = group0 (lit "(footprint (at 1 2))") m /\
    index (lit "(footprint (at 1 2))") (lit "(at 1 2)") 0 = Some (m_start m) /\
    forall new,
      replace1 (lit "(footprint (at 1 2))") (lit "(at 1 2)") new
      = firstn (m_start m) (lit "(footprint (at 1 2))") ++ new
        ++ skipn (m_end m) (lit "(footprint (at 1 2))").
Proof.
  destruct (get_footprint_details (lit "(footprint (at 1 2))")) as [c|] eqn:Hc;
    [|vm_compute in Hc; discriminate].
  assert (Hat : Component.at_string c = Some (lit "(at 1 2)")).
  { vm_compute in Hc. injection Hc as <-. reflexivity. }
  assert (Ho : Component.original_string c = lit "(footprint (at 1 2))").
  { vm_compute in Hc. injection Hc as <-. reflexivity. }
  destruct (at_string_first_occurrence _ c _ Hc Hat) as (m & Hm & Ha & Hi & Hr).
  rewrite Ho in Hi, Hr. exists m. auto.
Defined.

(** X6. The reference and the type of a record, when they are not null,
    are not empty and hold no double quote; on the records of
    [get_footprint_details] the test [c['reference'] and
    c['reference'].startswith(prefix)] is therefore the test that the
    reference is not null and starts with the prefix. *)
Theorem reference_and_type_quoted footprint_str c :
  get_footprint_details footprint_str = Ok c ->
  (forall r, Component.reference c = Some r -> r <> [] /\ ~ In dquote r) /\
  (forall t, Component.type c = Some t -> t <> [] /\ ~ In dquote t) /\
  (forall prefix, has_prefix prefix c = kept prefix c).
Proof.
  intros Hc. apply get_footprint_details_fields in Hc.
  destruct Hc as (Ht & Hr & _).
  assert (Href : forall r, Component.reference c = Some r -> r <> [] /\ ~ In dquote r).
  { intros r Hcr. rewrite Hcr in Hr.
    destruct (re_search reference_re footprint_str) as [m|] eqn:Hm; [|discriminate].
    symmetry in Hr. now apply (quoted_group reference_re footprint_str m). }
  split; [exact Href|]. split.
  - intros t Hct. rewrite Hct in Ht.
    destruct (re_search footprint_type_re footprint_str) as [m|] eqn:Hm;
      [|discriminate].
    symmetry in Ht. now apply (quoted_group footprint_type_re footprint_str m).
  - intros prefix. unfold has_prefix, kept.
    destruct (Component.reference c) as [r|]; [|reflexivity].
    destruct (Href r eq_refl) as [Hne _]. destruct r; [congruence|reflexivity].
Qed.

Lemma reference_and_type_quoted_witness :
  exists c,
    get_footprint_details
      (qlit "(footprint 'Resistor_SMD:R_0603' (at 1 2) (property 'Reference' 'R280'))")
    = Ok c /\
    (forall r, Component.reference c = Some r -> r <> [] /\ ~ In dquote r) /\
    (forall t, Component.type c = Some t -> t <> [] /\ ~ In dquote t) /\
    (forall prefix, has_prefix prefix c = kept prefix c).
Proof.
  destruct (get_footprint_details
              (qlit "(footprint 'Resistor_SMD:R_0603' (at 1 2) (property 'Reference' 'R280'))"))
    as [c|] eqn:Hc; [|vm_compute in Hc; discriminate].
  exists c. split; [reflexivity|].
  exact (reference_and_type_quoted _ c Hc).
Defined.

(** X7. The coordinates and the rotation of a record are what [float()]
    gives for the first, second and third number of the matched [at]
    clause, and each of these numbers is a non-empty text of digits,
    minus signs and points. *)
Theorem position_numbers footprint_str c :
  get_footprint_details footprint_str = Ok c ->
  forall n field,
    In (n, field) [(1, Component.x c); (2, Component.y c); (3, Component.rotation c)] ->
    forall v, field = Some v ->
    exists m token,
      re_search at_re footprint_str = Some m /\
      group footprint_str m n = Some token /\
      token <> [] /\ Forall (fun ch => is_number_char ch = true) token /\
      Py.float_of_str token = Some v.
Proof.
  intros Hc n field Hin v Hv. apply get_footprint_details_fields in Hc.
  destruct Hc as (_ & _ & _ & _ & Hx & Hy & Hrot).
  assert (H : float_or_none
                match re_search at_re footprint_str with
                | Some m => group footprint_str m n
                | None => None
                end = Ok (Some v)).
  { destruct Hin as [[= <- <-]|[[= <- <-]|[[= <- <-]|[]]]]; now rewrite <- Hv. }
  apply float_or_none_some in H. destruct H as (token & Hg & Hf).
  destruct (re_search at_re footprint_str) as [m|] eqn:Hm; [|discriminate].
  exists m, token. split; [reflexivity|]. split; [exact Hg|].
  destruct (number_group footprint_str m n token Hm Hg) as [Hne Hall]. auto.
Qed.

Lemma position_numbers_witness :
  exists c,
    get_footprint_details (lit "(footprint (at 1.5 -2 90))") = Ok c /\
    Component.x c = Some 1.5%float /\
    exists m token,
      re_search at_re (lit "(footprint (at 1.5 -2 90))") = Some m /\
      group (lit "(footprint (at 1.5 -2 90))") m 1 = Some token /\
      token <> [] /\ Forall (fun ch => is_number_char ch = true) token /\
      Py.float_of_str token = Some 1.5%float.
Proof.
  destruct (get_footprint_details (lit "(footprint (at 1.5 -2 90))"))
    as [c|] eqn:Hc; [|vm_compute in Hc; discriminate].
  assert (Hx : Component.x c = Some 1.5%float).
  { vm_compute in Hc. injection Hc as <-. reflexivity. }
  exists c. split; [reflexivity|]. split; [exact Hx|].
  apply (position_numbers _ c Hc 1 (Component.x c)); [now left|exact Hx].
Defined.

(** ** Filter and sort *)

(** X8. [sort_components] raises exactly when a record it keeps (its
    reference is not null, not empty and starts with the prefix) has no
    decimal digit in its reference, or a first run of more than 4300
    digits. The exception is [AttributeError] for a reference without
    digit and the [ValueError] of [int()] for a run that is too long.
    When every run is within the limit, it raises exactly when a record
    it keeps has no digit, and [AttributeError] is the only exception. *)
Theorem sort_components_raises components prefix :
  ((exists e, sort_components components prefix = Raise e) <->
   (exists c r,
      In c components /\ Component.reference c = Some r /\ r <> [] /\
      startswith r prefix = true /\
      (first_digit_run r = None \/
       exists d, first_digit_run r = Some d /\ Py.max_str_digits < length d))) /\
  (forall e,
     sort_components components prefix = Raise e ->
     exists c r,
       In c components /\ Component.reference c = Some r /\ r <> [] /\
       startswith r prefix = true /\
       ((e = AttributeError /\ first_digit_run r = None) \/
        (e = ValueError /\
         exists d, first_digit_run r = Some d /\ Py.max_str_digits < length d))) /\
  ((forall c r d,
      In c components -> Component.reference c = Some r ->
      startswith r prefix = true -> first_digit_run r = Some d ->
      length d <= Py.max_str_digits) ->
   ((exists e, sort_components components prefix = Raise e) <->
    (exists c r,
       In c components /\ Component.reference c = Some r /\ r <> [] /\
       startswith r prefix = true /\ first_digit_run r = None)) /\
   (forall e, sort_components components prefix = Raise e -> e = AttributeError)).
Proof.
  pose proof (sort_components_raise_inv components prefix) as Hraise.
  split; [split|split].
  - intros [e He]. destruct (Hraise e He) as (c & r & Hin & Hr & Hne & Hs & Hbad).
    exists c, r. repeat (split; [assumption|]).
    destruct Hbad as [[_ Hd]|[_ Hd]]; [now left|now right].
  - intros (c & r & Hin & Hr & Hne & Hs & Hbad).
    exact (sort_components_raise_intro _ _ c r Hin Hr Hne Hs Hbad).
  - exact Hraise.
  - intros Hlimit.
    assert (Hshort : forall e,
              sort_components components prefix = Raise e ->
              e = AttributeError /\
              exists c r,
                In c components /\ Component.reference c = Some r /\ r <> [] /\
                startswith r prefix = true /\ first_digit_run r = None).
    { intros e He. destruct (Hraise e He) as (c & r & Hin & Hr & Hne & Hs & Hbad).
      destruct Hbad as [[-> Hd]|[_ (d & Hd & Hlen)]].
      - split; [reflexivity|]. now exists c, r.
      - specialize (Hlimit c r d Hin Hr Hs Hd). lia. }
    split; [split|].
    + intros [e He]. now apply Hshort in He.
    + intros (c & r & Hin & Hr & Hne & Hs & Hd).
      apply (sort_components_raise_intro _ _ c r Hin Hr Hne Hs). now left.
    + intros e He. now apply Hshort in He.
Qed.

Lemma sort_components_raises_witness :
  (exists e,
     sort_components [with_reference (lit "R1"); with_reference (lit "R?")] (lit "R")
     = Raise e) /\
  (forall e,
     sort_components [with_reference (lit "R1"); with_reference (lit "R?")] (lit "R")
     = Raise e -> e = AttributeError).
Proof.
  destruct (sort_components_raises
              [with_reference (lit "R1"); with_reference (lit "R?")] (lit "R"))
    as (_ & _ & Hlimit).
  destruct Hlimit as [Hiff Honly].
  - intros c r d [<-|[<-|[]]] [= <-] _ Hd; vm_compute in Hd;
      [|discriminate]. injection Hd as <-. apply Nat.leb_le. vm_compute. reflexivity.
  - split; [|exact Honly]. apply Hiff.
    exists (with_reference (lit "R?")), (lit "R?"). vm_compute. intuition discriminate.
Defined.

(** X9. Sorting a group that [sort_components] returned, with the same
    prefix, returns the group as it is. *)
Theorem sort_components_idempotent components prefix group :
  sort_components components prefix = Ok group ->
  sort_components group prefix = Ok group.
Proof.
  intros Hs.
  assert (Hkept : forall c, In c group -> has_prefix prefix c = true).
  { intros c Hc. unfold sort_components in Hs.
    apply (Permutation_in _ (sorted_perm _ _ _ Hs)) in Hc.
    now apply filter_In in Hc. }
  assert (Hkey : forall c, In c (filter (has_prefix prefix) components) ->
                           sort_key c = Ok (reference_number c)).
  { intros c Hc. unfold sort_components, sorted in Hs.
    destruct (map_result sort_key (filter (has_prefix prefix) components))
      as [keys|] eqn:Hk; cbn [bind] in Hs; [|discriminate].
    destruct (map_result_all _ _ _ Hk c Hc) as (k & Hkc).
    apply filter_In in Hc. destruct Hc as [_ Hp].
    destruct (sort_key_kept prefix c Hp) as [Hok|[[Hre _]|[Hre _]]]; congruence. }
  destruct (sorted_spec _ sort_key reference_number Hkey)
    as (res & Hres & Hperm & Hsorted & _).
  unfold sort_components in Hs. rewrite Hs in Hres. injection Hres as <-.
  unfold sort_components.
  assert (Hfilter : filter (has_prefix prefix) group = group).
  { apply forallb_filter_id. apply forallb_forall. exact Hkept. }
  rewrite Hfilter. apply (sorted_fixed group sort_key reference_number);
    [|exact Hsorted].
  intros c Hc. apply Hkey. now apply (Permutation_in _ Hperm).
Qed.

Lemma sort_components_idempotent_witness :
  sort_components
    [with_reference (lit "R1"); with_reference (lit "R2"); with_reference (lit "R10")]
    (lit "R")
  = Ok [with_reference (lit "R1"); with_reference (lit "R2");
        with_reference (lit "R10")].
Proof.
  apply (sort_components_idempotent
           [with_reference (lit "R2"); with_reference (lit "R10");
            with_reference (lit "R1")] (lit "R")).
  vm_compute. reflexivity.
Defined.

(** X10. When no two records that are kept have the same number, the
    group does not depend on the order of the records given: a
    rearranged list gives the same group. *)
Theorem sort_components_order components components' prefix group :
  sort_components components prefix = Ok group ->
  Permutation components components' ->
  NoDup (map reference_number group) ->
  sort_components components' prefix = Ok group.
Proof.
  intros Hs Hperm Hnd.
  assert (Hkey : forall c, In c (filter (has_prefix prefix) components) ->
                           sort_key c = Ok (reference_number c)).
  { intros c Hc. unfold sort_components, sorted in Hs.
    destruct (map_result sort_key (filter (has_prefix prefix) components))
      as [keys|] eqn:Hk; cbn [bind] in Hs; [|discriminate].
    destruct (map_result_all _ _ _ Hk c Hc) as (k & Hkc).
    apply filter_In in Hc. destruct Hc as [_ Hp].
    destruct (sort_key_kept prefix c Hp) as [Hok|[[Hre _]|[Hre _]]]; congruence. }
  assert (Hkey' : forall c, In c (filter (has_prefix prefix) components') ->
                            sort_key c = Ok (reference_number c)).
  { intros c Hc. apply Hkey. apply filter_In in Hc. destruct Hc as [Hin Hp].
    apply filter_In. split; [|exact Hp].
    now apply (Permutation_in _ (Permutation_sym Hperm)). }
  destruct (sorted_spec _ sort_key reference_number Hkey)
    as (res & Hres & Hp & Hsorted & _).
  destruct (sorted_spec _ sort_key reference_number Hkey')
    as (res' & Hres' & Hp' & Hsorted' & _).
  unfold sort_components in *. rewrite Hs in Hres. injection Hres as <-.
  rewrite Hres'. f_equal. symmetry.
  apply (sorted_unique reference_number); [exact Hsorted|exact Hsorted'|exact Hnd|].
  rewrite Hp, Hp'. apply filter_perm. exact Hperm.
Qed.

Lemma sort_components_order_witness :
  sort_components
    [with_reference (lit "R1"); with_reference (lit "R10"); with_reference (lit "R2")]
    (lit "R")
  = Ok [with_reference (lit "R1"); with_reference (lit "R2");
        with_reference (lit "R10")].
Proof.
  apply (sort_components_order
           [with_reference (lit "R2"); with_reference (lit "R10");
            with_reference (lit "R1")]).
  - vm_compute. reflexivity.
  - apply perm_trans with
      [with_reference (lit "R10"); with_reference (lit "R2"); with_reference (lit "R1")];
      [apply perm_swap|].
    apply perm_trans with
      [with_reference (lit "R10"); with_reference (lit "R1"); with_reference (lit "R2")];
      [apply perm_skip, perm_swap|apply perm_swap].
  - vm_compute. repeat constructor; cbn; intuition discriminate.
Defined.

(** X23. When every record whose reference is not null and starts with
    the prefix has a decimal digit in its reference, and a first run of
    at most 4300 digits, [sort_components] returns exactly these
    records, ordered by the integer value of the first run of digits of
    the reference, those of equal value in the order of the list. *)
Theorem sort_components_numbered components prefix :
  (forall c r, In c components -> Component.reference c = Some r ->
               startswith r prefix = true ->
               exists d, first_digit_run r = Some d /\
                         length d <= Py.max_str_digits) ->
  exists group,
    sort_components components prefix = Ok group /\
    Permutation group (filter (kept prefix) components) /\
    StronglySorted
      (fun a b => (reference_number a <= reference_number b)%Z) group /\
    forall k,
      filter (fun c => (reference_number c =? k)%Z) group
      = filter (fun c => (reference_number c =? k)%Z)
          (filter (kept prefix) components).
Proof.
  intros Hdigit.
  assert (Hfilter : filter (has_prefix prefix) components
                    = filter (kept prefix) components).
  { apply filter_ext_in. intros c Hin. unfold has_prefix, kept.
    destruct (Component.reference c) as [r|] eqn:Hr; [|reflexivity].
    destruct (startswith r prefix) eqn:Hp; [|apply andb_false_r].
    destruct (Hdigit c r Hin Hr Hp) as (d & Hd & _).
    destruct r; [discriminate|reflexivity]. }
  unfold sort_components. rewrite Hfilter.
  apply sorted_spec. intros c Hc. apply filter_In in Hc. destruct Hc as [Hin Hk].
  unfold kept in Hk. unfold reference_number.
  destruct (Component.reference c) as [r|] eqn:Hr; [|discriminate].
  rewrite (sort_key_spec c r Hr). destruct (Hdigit c r Hin Hr Hk) as (d & Hd & Hlen).
  rewrite Hd. unfold Py.int_of_str.
  destruct (Nat.ltb_spec Py.max_str_digits (length d)); [lia|reflexivity].
Qed.

Lemma sort_components_numbered_witness :
  exists group,
    sort_components
      [with_reference (lit "R2"); with_reference (lit "R10");
       with_reference (lit "R1"); with_reference (lit "C7")] (lit "R")
    = Ok group /\
    Permutation group
      (filter (kept (lit "R"))
         [with_reference (lit "R2"); with_reference (lit "R10");
          with_reference (lit "R1"); with_reference (lit "C7")]) /\
    StronglySorted
      (fun a b => (reference_number a <= reference_number b)%Z) group /\
    forall k,
      filter (fun c => (reference_number c =? k)%Z) group
      = filter (fun c => (reference_number c =? k)%Z)
          (filter (kept (lit "R"))
             [with_reference (lit "R2"); with_reference (lit "R10");
              with_reference (lit "R1"); with_reference (lit "C7")]).
Proof.
  apply (sort_components_numbered
           [with_reference (lit "R2"); with_reference (lit "R10");
            with_reference (lit "R1"); with_reference (lit "C7")] (lit "R")).
  intros c r [<-|[<-|[<-|[<-|[]]]]] [= <-] Hs;
    try (vm_compute in Hs; discriminate);
    eexists; (split; [vm_compute; reflexivity|]);
    apply Nat.leb_le; vm_compute; reflexivity.
Defined.

(** ** The placement driver *)

(** X11. A run of [main] that ends with an exception has printed nothing
    and written nothing. The exception is the [ValueError] of
    [get_footprint_details] on one of the blocks, or the exception of
    [sort_components] on the displays or on the resistors: the
    [AttributeError] for a reference without digit, or the [ValueError]
    of [int()] for a run of more than 4300 digits. *)
Theorem main_raises input e :
  raised (main input) = Some e ->
  written (main input) = None /\
  console (main input) = [] /\
  exists content,
    input = Some content /\
    ((e = ValueError /\
      exists b,
        In b (parse_s_expression_blocks content (lit "footprint")) /\
        get_footprint_details b = Raise ValueError) \/
     (exists all_components,
        map_result get_footprint_details
          (parse_s_expression_blocks content (lit "footprint")) = Ok all_components /\
        (sort_components (filter is_display all_components) (lit "SEGD") = Raise e \/
         sort_components (filter is_resistor all_components) (lit "R") = Raise e) /\
        exists c r,
          In c all_components /\ Component.reference c = Some r /\
          ((e = AttributeError /\ first_digit_run r = None) \/
           (e = ValueError /\
            exists d, first_digit_run r = Some d /\ Py.max_str_digits < length d)))).
Proof.
  unfold main. destruct input as [content|]; [|discriminate].
  destruct (parse_s_expression_blocks content (lit "footprint")) as [|b bs] eqn:Hb;
    [discriminate|].
  destruct (map_result get_footprint_details (b :: bs)) as [all|e0] eqn:Hall.
  - destruct (sort_components (filter is_display all) (lit "SEGD"))
      as [displays|e1] eqn:Hd.
    + destruct (sort_components (filter is_resistor all) (lit "R"))
        as [resistors|e2] eqn:Hr.
      * destruct displays; discriminate.
      * cbn [raised written console failed]. intros [= <-].
        destruct (sort_components_raise_inv _ _ _ Hr)
          as (c & r & Hin & Href & _ & _ & Hbad).
        apply filter_In in Hin. destruct Hin as [Hin _].
        repeat split. exists content. split; [reflexivity|]. right.
        exists all. rewrite Hb. split; [exact Hall|]. split; [now right|].
        now exists c, r.
    + cbn [raised written console failed]. intros [= <-].
      destruct (sort_components_raise_inv _ _ _ Hd)
        as (c & r & Hin & Href & _ & _ & Hbad).
      apply filter_In in Hin. destruct Hin as [Hin _].
      repeat split. exists content. split; [reflexivity|]. right.
      exists all. rewrite Hb. split; [exact Hall|]. split; [now left|].
      now exists c, r.
  - cbn [raised written console failed]. intros [= <-].
    apply map_result_raise in Hall. destruct Hall as (b' & Hin & Hb').
    destruct (get_footprint_details_raises _ _ Hb') as [-> _].
    repeat split. exists content. split; [reflexivity|]. left.
    split; [reflexivity|]. exists b'. rewrite Hb. auto.
Qed.

Lemma main_raises_witness :
  written (main (Some (qlit "(footprint 'Resistor_SMD:R_0603' (at 3 4) (property 'Reference' 'R?'))"))) = None /\
  console (main (Some (qlit "(footprint 'Resistor_SMD:R_0603' (at 3 4) (property 'Reference' 'R?'))"))) = [].
Proof.
  destruct (main_raises
              (Some (qlit "(footprint 'Resistor_SMD:R_0603' (at 3 4) (property 'Reference' 'R?'))"))
              AttributeError) as (Hw & Hc & _); [vm_compute; reflexivity|].
  split; [exact Hw|exact Hc].
Defined.

(** X12. [main] writes the output file exactly when the input file
    exists, the two groups can be computed (no block and no sort raises)
    and there is at least one display; such a run raises nothing. *)
Theorem main_writes input :
  ((exists out, written (main input) = Some out) <->
   (exists content displays resistors,
      input = Some content /\
      groups_of content displays resistors /\ displays <> [])) /\
  (forall out, written (main input) = Some out -> raised (main input) = None).
Proof.
  split; [split|].
  - intros [out H]. destruct input as [content|]; [|discriminate].
    destruct (main_written_groups content out H) as (displays & resistors & Hg & Hne).
    now exists content, displays, resistors.
  - intros (content & displays & resistors & -> & Hg & Hne).
    rewrite (main_with_groups content displays resistors Hg Hne).
    cbn [written returned]. now eexists.
  - intros out H. destruct input as [content|]; [|discriminate].
    destruct (main_written_groups content out H) as (displays & resistors & Hg & _).
    exact (main_returns content displays resistors Hg).
Qed.

(** X13. On a text in which the token ['(footprint'] does not occur (the
    empty file is one), [main] prints that it could not parse any
    footprint, writes nothing and raises nothing. *)
Theorem main_no_footprints content :
  contains content (lparen :: footprint_tag) = false ->
  main (Some content) = returned [NoFootprints] None.
Proof.
  intros H. unfold main, parse_s_expression_blocks. rewrite parse_loop_eq.
  unfold contains, footprint_tag in H.
  destruct (index content (lparen :: lit "footprint") 0); [discriminate|reflexivity].
Qed.

Lemma main_no_footprints_witness :
  main (Some []) = returned [NoFootprints] None /\
  main (Some (lit "(kicad_pcb (version 20221018))")) = returned [NoFootprints] None.
Proof.
  split; apply main_no_footprints; vm_compute; reflexivity.
Defined.

(** X14. The lines of a run that writes its output: the two counts, the
    warning on the number of resistors exactly when there are fewer than
    15 for each display, lines [Placed] of displays in the order of the
    displays, at most one for each, and the closing line. *)
Theorem main_log content out :
  written (main (Some content)) = Some out ->
  exists displays resistors placed,
    groups_of content displays resistors /\
    console (main (Some content))
    = [FoundDisplays (length displays); FoundResistors (length resistors)]
      ++ (if length resistors <? length displays * 15
          then [FewResistors (length resistors) (length displays * 15)]
          else [])
      ++ placed ++ [Complete] /\
    subsequence placed (display_lines 0 displays).
Proof.
  intros H. destruct (main_written_groups content out H)
    as (displays & resistors & Hg & Hne).
  rewrite (main_with_groups content displays resistors Hg Hne). cbv zeta.
  match goal with
  | |- context [display_loop 0 displays resistors ?st] =>
      destruct (display_loop_lines displays resistors 0 st) as (placed & Hp & Hsub)
  end.
  exists displays, resistors, placed. split; [exact Hg|]. split; [|exact Hsub].
  cbn [console returned]. rewrite Hp. cbn [printed].
  destruct (length resistors <? length displays * 15); cbn [app];
    now rewrite <- ?app_assoc.
Qed.

Lemma main_log_witness :
  exists displays resistors placed,
    groups_of example_document displays resistors /\
    console (main (Some example_document))
    = [FoundDisplays (length displays); FoundResistors (length resistors)]
      ++ (if length resistors <? length displays * 15
          then [FewResistors (length resistors) (length displays * 15)]
          else [])
      ++ placed ++ [Complete] /\
    subsequence placed (display_lines 0 displays).
Proof.
  apply (main_log example_document example_output). vm_compute. reflexivity.
Defined.

(** X15. No run of [main] prints the warning that a resistor has no
    relative coordinates: a slice holds at most 15 resistors, as many as
    the table has entries. *)
Theorem no_coordinates_never_printed input reference :
  ~ In (NoCoordinates reference) (console (main input)).
Proof.
  destruct (written (main input)) as [out|] eqn:Hw.
  - destruct input as [content|]; [|discriminate].
    destruct (main_written_groups content out Hw) as (displays & resistors & Hg & Hne).
    rewrite (main_with_groups content displays resistors Hg Hne). cbv zeta.
    match goal with
    | |- context [display_loop 0 displays resistors ?st] =>
        destruct (display_loop_lines displays resistors 0 st) as (placed & Hp & Hsub)
    end.
    cbn [console returned]. rewrite Hp. cbn [printed]. intros Hin.
    apply in_app_or in Hin. destruct Hin as [Hin|[Hin|[]]]; [|discriminate].
    apply in_app_or in Hin. destruct Hin as [Hin|Hin].
    + destruct (length resistors <? length displays * 15); cbn in Hin;
        intuition discriminate.
    + apply (subsequence_In _ _ _ Hsub) in Hin. unfold display_lines in Hin.
      apply in_map_iff in Hin. destruct Hin as (p & Hp' & _). discriminate.
  - revert Hw. unfold main. destruct input as [content|];
      [|cbn; intuition discriminate].
    destruct (parse_s_expression_blocks content (lit "footprint")) as [|b bs];
      [cbn; intuition discriminate|].
    destruct (map_result get_footprint_details (b :: bs)) as [all|];
      [|cbn; intuition discriminate].
    destruct (sort_components (filter is_display all) (lit "SEGD")) as [displays|];
      [|cbn; intuition discriminate].
    destruct (sort_components (filter is_resistor all) (lit "R")) as [resistors|];
      [|cbn; intuition discriminate].
    destruct displays; [cbn; intuition discriminate|discriminate].
Qed.

(** X16. On the document as it was read, the guard of a substitution
    holds for every record of the two groups whose position field was
    matched: its block occurs in the document. For the first display,
    when its position field was matched, the substitution is therefore
    always made: the first occurrence of the text of its block in the
    document (the block itself, or an earlier copy of it inside another
    footprint) gets four spaces and the new [at] string, with X = 5.7,
    in the place of the first occurrence of the matched field in the
    block; the line [Placed] is printed, and the run goes on from the
    document so rewritten. *)
Theorem guard_on_input content displays resistors :
  groups_of content displays resistors ->
  (forall c, In c (displays ++ resistors) ->
     can_replace c content
     = match Component.at_string c with Some _ => true | None => false end) /\
  (forall display rest anchor,
     displays = display :: rest ->
     Component.at_string display = Some anchor ->
     In (Placed (Component.reference display) start_x)
       (console (main (Some content))) /\
     exists pre bpre bpost post,
       Component.original_string display = bpre ++ anchor ++ bpost /\
       index (Component.original_string display) anchor 0 = Some (length bpre) /\
       content = pre ++ bpre ++ anchor ++ bpost ++ post /\
       index content (Component.original_string display) 0 = Some (length pre) /\
       written (main (Some content))
       = Some (modified_content
                 (display_loop 1 rest resistors
                    (resistor_loop 0 0 (current_display_resistors 0 resistors)
                       {| modified_content :=
                            pre ++ bpre ++ (lit "    " ++ display_at_str 0 display)
                            ++ bpost ++ post;
                          printed :=
                            lines_before_loop (display :: rest) resistors
                            ++ [Placed (Component.reference display) start_x] |})))).
Proof.
  intros Hg. split; [intros c Hc; now apply (can_replace_initially _ _ _ _ Hg)|].
  intros d rest anchor -> Hat.
  assert (Hin : In d ((d :: rest) ++ resistors)) by now left.
  assert (Hguard : can_replace d content = true)
    by (rewrite (can_replace_initially _ _ _ _ Hg Hin), Hat; reflexivity).
  pose proof (at_string_occurs _ _ _ _ _ Hg Hin Hat) as Hocc.
  destruct (substitute_split d (display_at_str 0 d) content anchor Hguard Hat Hocc)
    as (pre & bpre & bpost & post & Ho & Hq & Hdoc & Hp & Hsub).
  rewrite (main_run content (d :: rest) resistors Hg) by discriminate.
  cbn [console written returned display_loop].
  rewrite (place_display_guarded 0 d
             {| modified_content := content;
                printed := lines_before_loop (d :: rest) resistors |} Hguard).
  cbn [modified_content printed]. rewrite Hsub.
  change (new_display_x 0) with start_x. split.
  - apply in_or_app. left. apply display_loop_keeps, resistor_loop_keeps.
    cbn [printed]. apply in_or_app. right. now left.
  - exists pre, bpre, bpost, post.
    split; [exact Ho|]. split; [exact Hq|]. split; [exact Hdoc|].
    split; [exact Hp|reflexivity].
Qed.

Lemma guard_on_input_witness :
  In (Placed (Some (lit "SEGD1")) start_x) (console (main (Some example_document))) /\
  exists pre bpre bpost post,
    Component.original_string example_first_display
    = bpre ++ lit "(at 10.5 20)" ++ bpost /\
    example_document = pre ++ bpre ++ lit "(at 10.5 20)" ++ bpost ++ post /\
    written (main (Some example_document))
    = Some (modified_content
              (display_loop 1 [example_second_display] (snd example_groups)
                 (resistor_loop 0 0
                    (current_display_resistors 0 (snd example_groups))
                    {| modified_content :=
                         pre ++ bpre ++ lit "    (at 5.7000 199.1000)"
                         ++ bpost ++ post;
                       printed :=
                         lines_before_loop
                           [example_first_display; example_second_display]
                           (snd example_groups)
                         ++ [Placed (Some (lit "SEGD1")) start_x] |}))) /\
    written (main (Some example_document)) = Some example_output.
Proof.
  destruct (guard_on_input example_document (fst example_groups)
              (snd example_groups) example_groups_of) as [_ H].
  destruct (H example_first_display [example_second_display] (lit "(at 10.5 20)")
              eq_refl eq_refl)
    as (Hline & pre & bpre & bpost & post & Ho & _ & Hdoc & _ & Hw).
  assert (Htext : display_at_str 0 example_first_display
                  = lit "(at 5.7000 199.1000)") by (vm_compute; reflexivity).
  rewrite Htext in Hw.
  change (lit "    " ++ lit "(at 5.7000 199.1000)")
    with (lit "    (at 5.7000 199.1000)") in Hw.
  split; [exact Hline|]. exists pre, bpre, bpost, post.
  split; [exact Ho|]. split; [exact Hdoc|]. split; [exact Hw|].
  vm_compute. reflexivity.
Defined.

(** X17. Only the first 15 resistors for each display take part in the
    placement: resistors after them change nothing. *)
Theorem surplus_resistors_ignored displays resistors more st :
  length displays * 15 <= length resistors ->
  display_loop 0 displays (resistors ++ more) st
  = display_loop 0 displays resistors st.
Proof. intros H. now apply display_loop_surplus. Qed.

Lemma surplus_resistors_ignored_witness :
  display_loop 0 [with_reference (lit "SEGD1")]
    (repeat (with_reference (lit "R1")) 15 ++ [with_reference (lit "R16")])
    {| modified_content := lit "(kicad_pcb)"; printed := [] |}
  = display_loop 0 [with_reference (lit "SEGD1")]
      (repeat (with_reference (lit "R1")) 15)
      {| modified_content := lit "(kicad_pcb)"; printed := [] |}.
Proof.
  apply (surplus_resistors_ignored [with_reference (lit "SEGD1")]).
  cbn [length repeat]. lia.
Defined.

(** X18. The document written has the parentheses of the document read:
    the same difference between opening and closing ones, and every
    parenthesis has its partner in the one exactly when it has in the
    other. *)
Theorem main_keeps_parentheses content out :
  written (main (Some content)) = Some out ->
  depth out = depth content /\ well_nested out = well_nested content.
Proof.
  intros H. apply main_written in H.
  destruct H as (displays & resistors & log & Hg & _ & ->).
  assert (Hed : edited (displays ++ resistors) content
                  (modified_content
                     (display_loop 0 displays resistors
                        {| modified_content := content; printed := log |}))).
  { apply (fields_replaced_edited _ content content); [| |apply edited_refl].
    - intros c anchor Hc Hat. exact (groups_of_paren_group _ _ _ c anchor Hg Hc Hat).
    - rewrite display_loop_content. apply apply_placements_frame.
      intros p Hp. split.
      + now apply placements_from_records in Hp.
      + now apply placements_from_inserted in Hp. }
  apply edited_parens with (d := 0%Z) in Hed.
  - destruct Hed as [Hd Hn]. unfold depth, well_nested.
    split; [now symmetry|]. symmetry. apply Hn. lia.
  - intros c anchor Hc Hat. exact (groups_of_paren_group _ _ _ c anchor Hg Hc Hat).
Qed.

Lemma main_keeps_parentheses_witness :
  depth example_output = depth example_document /\
  well_nested example_output = well_nested example_document.
Proof.
  apply (main_keeps_parentheses example_document example_output).
  vm_compute. reflexivity.
Defined.

(** X19. No footprint is in both groups: a record that passes the test
    of the displays does not pass the test of the resistors, and a
    record without a type passes neither. *)
Theorem groups_disjoint content displays resistors :
  groups_of content displays resistors ->
  (forall c, In c displays -> ~ In c resistors) /\
  (forall c, In c (displays ++ resistors) -> Component.type c <> None).
Proof.
  intros (all & _ & Hd & Hr).
  assert (Hdis : forall c, In c displays -> is_display c = true).
  { intros c Hc. apply (sort_components_group _ _ _ _ Hd) in Hc.
    destruct Hc as [Hc _]. now apply filter_In in Hc. }
  assert (Hres : forall c, In c resistors -> is_resistor c = true).
  { intros c Hc. apply (sort_components_group _ _ _ _ Hr) in Hc.
    destruct Hc as [Hc _]. now apply filter_In in Hc. }
  split.
  - intros c Hc Hc'. apply Hdis, display_not_resistor in Hc.
    apply Hres in Hc'. congruence.
  - intros c Hc Hnone. apply in_app_or in Hc. destruct Hc as [Hc|Hc].
    + apply Hdis in Hc. unfold is_display in Hc. now rewrite Hnone in Hc.
    + apply Hres in Hc. unfold is_resistor in Hc. rewrite Hnone in Hc.
      vm_compute in Hc. discriminate.
Qed.

Lemma groups_disjoint_witness :
  exists displays resistors,
    groups_of example_document displays resistors /\
    (forall c, In c displays -> ~ In c resistors) /\
    (forall c, In c (displays ++ resistors) -> Component.type c <> None).
Proof.
  assert (H : exists displays resistors, groups_of example_document displays resistors).
  { unfold groups_of. eexists _, _, _.
    split; [vm_compute; reflexivity|]. split; vm_compute; reflexivity. }
  destruct H as (displays & resistors & Hg). exists displays, resistors.
  split; [exact Hg|]. exact (groups_disjoint _ _ _ Hg).
Defined.

(** X20. When the type of the displays,
    ['External_Parts:ACPSC04-41SEKWA'], occurs nowhere in the text,
    no footprint is a display and [main] writes no output file. *)
Theorem no_display_type_nothing_written content :
  contains content display_type = false ->
  written (main (Some content)) = None.
Proof.
  intros Hno. destruct (written (main (Some content))) as [out|] eqn:Hw;
    [|reflexivity].
  exfalso. destruct (main_written_groups content out Hw)
    as (displays & resistors & Hg & Hne).
  destruct displays as [|d displays]; [congruence|].
  destruct (groups_of_record _ _ _ d Hg) as (b & Hb & Hd); [now left|].
  destruct Hg as (all & _ & Hs & _).
  assert (Hdis : is_display d = true).
  { destruct (sort_components_group _ _ _ d Hs) as [Hin _]; [now left|].
    now apply filter_In in Hin. }
  unfold is_display in Hdis. destruct (Component.type d) as [t|] eqn:Ht;
    [|discriminate].
  destruct (list_eq_dec ascii_dec t display_type) as [->|]; [|discriminate].
  pose proof (get_footprint_details_fields _ _ Hd) as (Htype & _).
  rewrite Ht in Htype.
  destruct (re_search footprint_type_re b) as [m|]; [|discriminate].
  symmetry in Htype. apply contains_group in Htype.
  apply extracted_block_in in Hb.
  rewrite (contains_trans _ _ _ Hb Htype) in Hno. discriminate.
Qed.

Lemma no_display_type_nothing_written_witness :
  written
    (main (Some (qlit "(kicad_pcb (footprint 'Resistor_SMD:R_0603' (at 3 4) (property 'Reference' 'R1')))")))
  = None.
Proof.
  apply no_display_type_nothing_written. vm_compute. reflexivity.
Defined.


(** X21. For each of the first 200 displays, the coordinates written
    are exact: with their four decimals they are the decimal numbers
    [5.7 + 11.4 i] and [199.1] for display [i], and these plus the
    entries of the table for its resistors. The rounding of the
    floating-point sums does not show in the document. *)
Theorem written_coordinates_exact i :
  i < 200 ->
  (forall display,
     display_at_str i display
     = lit "(at " ++ decimal_4 (57 + 114 * Z.of_nat i) ++ lit " " ++ decimal_4 1991
       ++ match Component.rotation display with
          | Some r => lit " " ++ Py.str_of_float r
          | None => []
          end ++ lit ")") /\
  (forall j slot dx dy rot,
     nth_error resistor_relative_coords j = Some slot ->
     nth_error relative_tenths j = Some (dx, dy, rot) ->
     resistor_at_str i slot
     = lit "(at " ++ decimal_4 (57 + 114 * Z.of_nat i + dx) ++ lit " "
       ++ decimal_4 (1991 + dy) ++ lit " " ++ Py.str_of_int rot ++ lit ")").
Proof.
  intros Hi. pose proof exact_displays as H. rewrite forallb_forall in H.
  specialize (H i). unfold exact_display in H.
  rewrite !andb_true_iff in H. destruct H as [[Hx Hy] Hslots];
    [apply in_seq; lia|].
  apply pystr_eqb_eq in Hx, Hy. split.
  - intros display. unfold display_at_str. now rewrite Hx, Hy.
  - intros j [[rel_x rel_y] rel_rot] dx dy rot Hs Ht.
    rewrite forallb_forall in Hslots.
    specialize (Hslots _ (In_combine_nth _ _ _ _ _ Hs Ht)).
    cbn [exact_slot] in Hslots. rewrite !andb_true_iff in Hslots.
    destruct Hslots as [[Hrx Hry] Hrot]. apply pystr_eqb_eq in Hrx, Hry.
    apply Z.eqb_eq in Hrot. subst rel_rot.
    unfold resistor_at_str. now rewrite Hrx, Hry.
Qed.

Lemma written_coordinates_exact_witness :
  display_at_str 2 (with_reference (lit "SEGD3")) = lit "(at 28.5000 199.1000)" /\
  resistor_at_str 2 (rel (-5.7) (-4.0) 90) = lit "(at 22.8000 195.1000 90)".
Proof.
  destruct (written_coordinates_exact 2) as [Hd Hr]; [lia|]. split.
  - rewrite Hd. vm_compute. reflexivity.
  - rewrite (Hr 0 _ (-57)%Z (-40)%Z 90%Z eq_refl eq_refl). vm_compute. reflexivity.
Defined.

(** X22. A display keeps the value of its rotation, not its text: a
    rotation of a whole number [n] of degrees between -360 and 360,
    read by [float()], is written back as [n.0]. *)
Theorem whole_degree_rotation n i display :
  (-360 <= n <= 360)%Z ->
  Component.rotation display = Py.float_of_str (Py.str_of_int n) ->
  display_at_str i display
  = lit "(at " ++ Py.format_4f (new_display_x i) ++ lit " "
    ++ Py.format_4f new_display_y ++ lit " " ++ Py.str_of_int n ++ lit ".0)".
Proof.
  intros Hn Hrot. pose proof whole_degrees_all as H. rewrite forallb_forall in H.
  specialize (H (Z.to_nat (n + 360))).
  replace (Z.of_nat (Z.to_nat (n + 360)) - 360)%Z with n in H by lia.
  unfold whole_degrees in H. rewrite <- Hrot in H.
  unfold display_at_str. destruct (Component.rotation display) as [r|].
  - rewrite (pystr_eqb_eq _ _ (H ltac:(apply in_seq; lia))).
    now rewrite <- !app_assoc.
  - discriminate H; apply in_seq; lia.
Qed.

Lemma whole_degree_rotation_witness :
  display_at_str 0
    {| Component.type := None;
       Component.reference := Some (lit "SEGD1");
       Component.x := Some 1%float;
       Component.y := Some 2%float;
       Component.rotation := Some 90%float;
       Component.at_string := Some (lit "(at 1 2 90)");
       Component.original_string := lit "(footprint (at 1 2 90))" |}
  = lit "(at 5.7000 199.1000 90.0)".
Proof.
  rewrite (whole_degree_rotation 90 0);
    [vm_compute; reflexivity|lia|vm_compute; reflexivity].
Defined.
